(** * vigenere.py: a Vigenere cipher and its Kasiski cracker

    A shallow embedding of [vigenere.py] and the properties of its
    functions.  Python values are modelled as follows.

    - [int] is [Z]; [%] on ints is [Z.modulo] (the sign of the divisor, as
      in Python) and raises [ZeroDivisionError] on a zero divisor.
    - [str] is a list of code points ([Z], the value of [ord]).
    - a [dict] is an association list in insertion order (the order
      Python iterates it in) without repeated keys.
    - a [float] is an IEEE 754 binary64 value ([spec_float] at precision 53)
      with the correctly rounded operations of [SpecFloat]; [math.log] is a
      parameter.
    - an exception is a constructor of [exn]; a function that can raise
      returns a [result].
    - [print] is not modelled; what a [print] statement evaluates and can
      raise is. *)

From Stdlib Require Import ZArith List Bool Lia String Ascii Permutation.
From Stdlib Require Import Znumtheory Sorted.
From Stdlib Require Import Floats.SpecFloat.
From Stdlib Require Import Reals Lra.
Import ListNotations.
Open Scope Z_scope.

(** ** Exceptions *)

Inductive exn : Set :=
| ZeroDivisionError   (* x % 0, x / 0 *)
| IndexError          (* sequence index out of range *)
| ValueError          (* str.index of an absent character, max() of an empty
                         iterable, math domain error *)
| KeyError            (* dict lookup of an absent key *)
| OverflowError.      (* int too large to convert to float *)

Inductive result (A : Type) : Type :=
| Ok (a : A)
| Raise (e : exn).
Arguments Ok {A} a.
Arguments Raise {A} e.

Definition bind {A B} (m : result A) (k : A -> result B) : result B :=
  match m with
  | Ok a => k a
  | Raise e => Raise e
  end.

Notation "x <- m ;; k" := (bind m (fun x => k))
  (at level 61, m at next level, right associativity).

(** [for x in xs: acc = body(acc, x)], stopping at the first exception. *)
Fixpoint for_each {A S} (xs : list A) (body : S -> A -> result S) (acc : S)
  : result S :=
  match xs with
  | [] => Ok acc
  | x :: xs' => acc' <- body acc x ;; for_each xs' body acc'
  end.

(** A list comprehension [[f(x) for x in xs]]. *)
Fixpoint map_result {A B} (f : A -> result B) (xs : list A) : result (list B) :=
  match xs with
  | [] => Ok []
  | x :: xs' => y <- f x ;; ys <- map_result f xs' ;; Ok (y :: ys)
  end.

(** ** Built-ins *)

Definition len {A} (l : list A) : Z := Z.of_nat (List.length l).

(** [range(lo, hi)]. *)
Definition range (lo hi : Z) : list Z :=
  map (fun k => lo + Z.of_nat k) (seq 0 (Z.to_nat (hi - lo))).

(** [a % b] on ints. *)
Definition py_mod (a b : Z) : result Z :=
  if b =? 0 then Raise ZeroDivisionError else Ok (a mod b).

(** [l[i]]: a negative index counts from the end. *)
Definition getitem {A} (l : list A) (i : Z) : result A :=
  let j := if i <? 0 then i + len l else i in
  if j <? 0 then Raise IndexError
  else match nth_error l (Z.to_nat j) with
       | Some x => Ok x
       | None => Raise IndexError
       end.

(** The bound of a slice, as [PySlice_AdjustIndices] clips it. *)
Definition clip (n i : Z) : Z :=
  if i <? 0 then Z.max 0 (i + n) else Z.min i n.

(** [l[a:b]]. *)
Definition slice {A} (l : list A) (a b : Z) : list A :=
  let a' := clip (len l) a in
  let b' := clip (len l) b in
  firstn (Z.to_nat (b' - a')) (skipn (Z.to_nat a') l).

(** ** Dictionaries

    A [dict] keeps its keys in insertion order; assigning to a key that is
    present keeps the key's place. *)

Section Dict.

Variables K V : Type.
Variable eqb : K -> K -> bool.

Definition dict := list (K * V).

Fixpoint dict_get (k : K) (d : dict) : option V :=
  match d with
  | [] => None
  | (k', v) :: d' => if eqb k' k then Some v else dict_get k d'
  end.

(** [k in d]. *)
Definition dict_mem (k : K) (d : dict) : bool :=
  match dict_get k d with Some _ => true | None => false end.

(** [d[k] = v]. *)
Fixpoint dict_set (k : K) (v : V) (d : dict) : dict :=
  match d with
  | [] => [(k, v)]
  | (k', v') :: d' =>
      if eqb k' k then (k', v) :: d' else (k', v') :: dict_set k v d'
  end.

(** [d[k] = f(d[k])], for a key that is present. *)
Fixpoint dict_update (k : K) (f : V -> V) (d : dict) : dict :=
  match d with
  | [] => []
  | (k', v') :: d' =>
      if eqb k' k then (k', f v') :: d' else (k', v') :: dict_update k f d'
  end.

Definition dict_keys (d : dict) : list K := map fst d.
Definition dict_values (d : dict) : list V := map snd d.

End Dict.

Arguments dict_get {K V} eqb k d.
Arguments dict_mem {K V} eqb k d.
Arguments dict_set {K V} eqb k v d.
Arguments dict_update {K V} eqb k f d.
Arguments dict_keys {K V} d.
Arguments dict_values {K V} d.

(** Equality of strings and of tuples of ints. *)
Fixpoint list_eqb (s1 s2 : list Z) : bool :=
  match s1, s2 with
  | [], [] => true
  | x :: s1', y :: s2' => (x =? y) && list_eqb s1' s2'
  | _, _ => false
  end.

(** ** Strings *)

Abbreviation char := Z (only parsing).
Abbreviation str := (list Z) (only parsing).

(** The code points of a literal. *)
Definition lit (s : string) : str :=
  map (fun a => Z.of_N (N_of_ascii a)) (list_ascii_of_string s).

Definition ALPHABET : str := lit "ABCDEFGHIJKLMNOPQRSTUVWXYZ".

Definition MIN_NGRAM : Z := 3.
Definition MAX_NGRAM : Z := 16.
Definition MOST_COMMON_LETTER : str := lit "E".

(** [char in ALPHABET], for a string of one character. *)
Definition in_alphabet (c : char) : bool := existsb (Z.eqb c) ALPHABET.

Fixpoint index_from (c : char) (s : str) (i : Z) : result Z :=
  match s with
  | [] => Raise ValueError
  | x :: s' => if x =? c then Ok i else index_from c s' (i + 1)
  end.

(** [ALPHABET.index(char)]. *)
Definition alphabet_index (c : char) : result Z := index_from c ALPHABET 0.

(** ** Floats *)

Definition prec : Z := 53.
Definition emax : Z := 1024.
Abbreviation float := spec_float (only parsing).

(** The conversion of an int operand of a float operation. *)
Definition float_of_int (z : Z) : result float :=
  match binary_normalize prec emax z 0 false with
  | S754_infinity _ => Raise OverflowError
  | f => Ok f
  end.

(** [a / b] on ints: the quotient rounded once, to nearest. *)
Definition int_truediv (a b : Z) : result float :=
  if b =? 0 then Raise ZeroDivisionError
  else if a =? 0 then Ok (S754_zero (b <? 0))
  else
    let '(q, e, l) := SFdiv_core_binary prec emax (Z.abs a) 0 (Z.abs b) 0 in
    match binary_round_aux prec emax (xorb (a <? 0) (b <? 0)) q e l with
    | S754_infinity _ => Raise OverflowError
    | f => Ok f
    end.

Definition float_mul : float -> float -> float := SFmul prec emax.
Definition float_add : float -> float -> float := SFadd prec emax.

(** [x > y]. *)
Definition float_gt (x y : float) : bool := SFltb y x.

(** The literals [0.1] and [0.8]. *)
Definition literal_0_1 : float := S754_finite false 7205759403792794 (-56).
Definition literal_0_8 : float := S754_finite false 7205759403792794 (-53).

(** [d[k]]. *)
Definition dict_getitem {V} (k : Z) (d : dict Z V) : result V :=
  match dict_get Z.eqb k d with
  | Some v => Ok v
  | None => Raise KeyError
  end.

(** [max(items, key=key)]: the first item whose key no later key exceeds. *)
Definition py_max_by {A} (key : A -> result float) (items : list A) : result A :=
  match items with
  | [] => Raise ValueError
  | x :: items' =>
      kx <- key x ;;
      best <- for_each items'
                (fun best y =>
                   ky <- key y ;;
                   Ok (if float_gt ky (snd best) then (y, ky) else best))
                (x, kx) ;;
      Ok (fst best)
  end.

(** [collections.Counter(s)]: the counts, in the order of first occurrence. *)
Definition counter (s : str) : dict Z Z :=
  fold_left
    (fun counts c =>
       dict_set Z.eqb c
                (match dict_get Z.eqb c counts with Some n => n | None => 0 end + 1)
                counts)
    s [].

Fixpoint insert_by_count (x : Z * Z) (l : list (Z * Z)) : list (Z * Z) :=
  match l with
  | [] => [x]
  | y :: l' => if snd x <? snd y then y :: insert_by_count x l' else x :: y :: l'
  end.

(** [counts.most_common(n)]: the [n] greatest counts, equal counts in the
    order of first occurrence. *)
Definition most_common (counts : dict Z Z) (n : Z) : list (Z * Z) :=
  firstn (Z.to_nat n) (fold_right insert_by_count [] counts).

(** [l[start::step]], for [0 <= start] and [1 <= step]. *)
Definition slice_step {A} (l : list A) (start step : Z) : list A :=
  map snd
      (filter (fun '(j, _) => (start <=? j) && ((j - start) mod step =? 0))
              (combine (range 0 (len l)) l)).

(** [s * n]. *)
Definition str_mul (s : str) (n : Z) : str := List.concat (repeat s (Z.to_nat n)).

(** A stand-in for [math.log] in closed examples whose outcome does not
    depend on the logarithm. *)
Definition no_log : float -> float := fun x => x.

(** A case table for closed examples: no case mapping outside ASCII. *)
Definition ascii_upper : char -> str := fun c => [c].

Section Vigenere.

(** [str.upper] maps each character on its own, to one or more
    characters ("ß" becomes "SS").  On ASCII it is fixed below; the Unicode
    case table of the other code points is not part of the program and is a
    parameter of the development. *)
Variable unicode_upper : char -> str.

Definition upper_char (c : char) : str :=
  if (97 <=? c) && (c <=? 122) then [c - 32]
  else if c <? 128 then [c]
  else unicode_upper c.

Definition upper (s : str) : str := flat_map upper_char s.

Definition normalize_text (text : str) : str :=
  filter in_alphabet (upper text).

Definition encrypt (plain key : str) : result str :=
  let plain := normalize_text plain in
  key_offsets <- map_result alphabet_index (normalize_text key) ;;
  for_each (range 0 (len plain))
    (fun cypher i =>
       p <- getitem plain i ;;
       a <- alphabet_index p ;;
       j <- py_mod i (len key) ;;
       k <- getitem key_offsets j ;;
       m <- py_mod (a + k) (len ALPHABET) ;;
       c <- getitem ALPHABET m ;;
       Ok (cypher ++ [c]))
    [].

Definition decrypt (cypher key : str) : result str :=
  let cypher := normalize_text cypher in
  key_offsets <- map_result alphabet_index (normalize_text key) ;;
  for_each (range 0 (len cypher))
    (fun plain i =>
       c <- getitem cypher i ;;
       a <- alphabet_index c ;;
       j <- py_mod i (len key) ;;
       k <- getitem key_offsets j ;;
       m <- py_mod (a - k) (len ALPHABET) ;;
       p <- getitem ALPHABET m ;;
       Ok (plain ++ [p]))
    [].

(** ** The Kasiski test *)

(** One pass of the inner loop body of [find_multiples]: the ngram of
    length [n] that ends at index [i] is recorded with its start.  The
    [print] under [verbosity >= 4] does not touch [multiples]. *)
Definition record_ngram (cypher : str) (i : Z)
           (multiples : dict str (list Z)) (n : Z) : dict str (list Z) :=
  if i + 1 <? n then multiples
  else
    let pos := i - n + 1 in
    let ngram := slice cypher (i - n + 1) (i + 1) in
    let multiples :=
      if negb (dict_mem list_eqb ngram multiples)
      then dict_set list_eqb ngram [] multiples
      else multiples in
    dict_update list_eqb ngram (fun positions => positions ++ [pos]) multiples.

Definition find_multiples (cypher : str) (verbosity : Z) : dict str (list Z) :=
  let multiples :=
    fold_left
      (fun multiples i =>
         fold_left (record_ngram cypher i) (range MIN_NGRAM (MAX_NGRAM + 1))
                   multiples)
      (range 0 (len cypher)) [] in
  filter (fun '(ngram, positions) => 1 <? len positions) multiples.

(** [positions[i]] is read for [i] in [range(2, len(positions))] only, where
    it cannot raise. *)
Definition calc_distances (multiples : dict str (list Z)) (verbosity : Z)
  : list Z :=
  fold_left
    (fun distances '(ngram, positions) =>
       fold_left
         (fun distances i =>
            distances ++ map (fun j => nth (Z.to_nat i) positions 0 - j)
                             (slice positions 0 i))
         (range 2 (len positions)) distances)
    multiples [].

(** What one entry adds to [distances]. *)
Definition entry_distances (positions : list Z) : list Z :=
  flat_map
    (fun i => map (fun j => nth (Z.to_nat i) positions 0 - j) (slice positions 0 i))
    (range 2 (len positions)).

(** ** Prime factors

    [n /= d] makes [n] a float.  It is executed when [n % d == 0] only, so
    the quotient is a whole number, and a float holds it exactly as long as
    it is below 2^53, which a difference of two positions in a text is; the
    model computes with exact integers.  The two [while] loops take fuel;
    [prime_factors_returns] shows that the fuel given by [prime_factors] is
    never used up. *)

(** [while n % d == 0: factors.append(d); n /= d] *)
Fixpoint divide_out (fuel : nat) (n d : Z) (factors : list Z)
  : option (Z * list Z) :=
  match fuel with
  | O => None
  | S fuel' =>
      if n mod d =? 0 then divide_out fuel' (n / d) d (factors ++ [d])
      else Some (n, factors)
  end.

Fixpoint prime_factors_loop (fuel : nat) (n d : Z) (factors : list Z)
  : option (list Z) :=
  match fuel with
  | O => None
  | S fuel' =>
      if 1 <? n then
        match divide_out (S (Z.to_nat n)) n d factors with
        | None => None
        | Some (n, factors) =>
            let d := d + 1 in
            if n <? d * d then
              Some (if 1 <? n then factors ++ [n] else factors)
            else prime_factors_loop fuel' n d factors
        end
      else Some factors
  end.

Definition prime_factors (n : Z) : list Z :=
  match prime_factors_loop (S (Z.to_nat n)) n 2 [] with
  | Some factors => factors
  | None => []
  end.

(** ** Divisor frequencies *)

(** [sorted] on ints. *)
Fixpoint insert (x : Z) (l : list Z) : list Z :=
  match l with
  | [] => [x]
  | y :: l' => if x <=? y then x :: y :: l' else y :: insert x l'
  end.

Definition sorted (l : list Z) : list Z := fold_right insert [] l.

(** The ways to take one element out of a list, by position. *)
Fixpoint picks {A} (l : list A) : list (A * list A) :=
  match l with
  | [] => []
  | x :: l' => (x, l') :: map (fun '(y, rest) => (y, x :: rest)) (picks l')
  end.

(** [itertools.permutations(l, r)]: the arrangements of [r] elements taken
    at distinct positions, in lexicographic order of the positions. *)
Fixpoint permutations {A} (l : list A) (r : nat) : list (list A) :=
  match r with
  | O => [[]]
  | S r' =>
      flat_map (fun '(x, rest) => map (cons x) (permutations rest r')) (picks l)
  end.

(** [functools.reduce(operator.mul, c)]; it raises on an empty [c], which
    the caller never passes ([r >= 1]). *)
Definition reduce_mul (c : list Z) : Z :=
  match c with
  | [] => 1
  | x :: c' => fold_left Z.mul c' x
  end.

(** The first loop of [find_common_divisors]: the sorted factors of each
    distance, looked up in [factor_cache]. *)
Definition factor_distances (distances : list Z) : list (list Z) :=
  snd
    (fold_left
       (fun '(factor_cache, divisors) distance =>
          let factor_cache :=
            if negb (dict_mem Z.eqb distance factor_cache)
            then dict_set Z.eqb distance (sorted (prime_factors distance))
                          factor_cache
            else factor_cache in
          (factor_cache,
           divisors ++ [match dict_get Z.eqb distance factor_cache with
                        | Some factors => factors
                        | None => []
                        end]))
       distances ([], [])).

(** The body of the innermost loop, on the pair of [old] and [div_freqs]. *)
Definition count_divisor (state : list (list Z) * dict Z Z) (c : list Z)
  : list (list Z) * dict Z Z :=
  let '(old, div_freqs) := state in
  let t := sorted c in
  if existsb (list_eqb t) old then state
  else
    let old := t :: old in
    let prod := reduce_mul c in
    let div_freqs :=
      if negb (dict_mem Z.eqb prod div_freqs)
      then dict_set Z.eqb prod 0 div_freqs
      else div_freqs in
    (old, dict_update Z.eqb prod (fun count => count + 1) div_freqs).

(** The body of [for divs in divisors]. *)
Definition count_divisors_of (div_freqs : dict Z Z) (divs : list Z) : dict Z Z :=
  snd
    (fold_left
       (fun state r => fold_left count_divisor (permutations divs (Z.to_nat r)) state)
       (range 1 (len divs)) ([], div_freqs)).

Definition find_common_divisors (distances : list Z) (verbosity : Z) : dict Z Z :=
  fold_left count_divisors_of (factor_distances distances) [].

(** The product of a list of ints. *)
Definition product (l : list Z) : Z := fold_right Z.mul 1 l.

(** [p] is the product of a non-empty part of the prime factors of
    [distance] that leaves a non-empty rest. *)
Definition proper_subproduct (p distance : Z) : Prop :=
  exists c rest,
    c <> [] /\ rest <> [] /\
    Permutation (c ++ rest) (prime_factors distance) /\
    p = reduce_mul c /\ 1 < p < distance.

(** [p] divides [d] and lies strictly between 1 and [d]. *)
Definition proper_divisor (p d : Z) : bool :=
  (1 <? p) && (p <? d) && (d mod p =? 0).

(** The number of distances of which [p] is a proper divisor. *)
Definition divisor_count (distances : list Z) (p : Z) : Z :=
  len (filter (proper_divisor p) distances).

(** [ngram] is the substring of [cypher] that starts at [pos]. *)
Definition occurs_at (cypher ngram : str) (pos : Z) : Prop :=
  0 <= pos /\ pos + len ngram <= len cypher /\
  slice cypher pos (pos + len ngram) = ngram.

(** What holds of every entry while the scan runs: the key has an admitted
    length and the recorded positions are starts of the key in the text. *)
Definition scanned (cypher : str) (entry : str * list Z) : Prop :=
  MIN_NGRAM <= len (fst entry) <= MAX_NGRAM /\
  Forall (occurs_at cypher (fst entry)) (snd entry).

(** The positions recorded for an ngram, none when it is not a key. *)
Definition positions_of (multiples : dict str (list Z)) (ngram : str) : list Z :=
  match dict_get list_eqb ngram multiples with
  | Some positions => positions
  | None => []
  end.

(** All the starts of [ngram] in [cypher], in ascending order. *)
Definition occurrences (cypher ngram : str) : list Z :=
  filter (fun pos => list_eqb (slice cypher pos (pos + len ngram)) ngram)
         (range 0 (len cypher - len ngram + 1)).

(** The state of the scan of [find_multiples] when the ngrams that end
    before the index [i], and those of a length below [k] that end at [i],
    have been recorded: the keys are distinct, and every ngram of an
    admitted length has its starts so far, in ascending order. *)
Definition scan_state (cypher : str) (i k : Z) (multiples : dict str (list Z))
  : Prop :=
  NoDup (dict_keys multiples) /\
  forall ngram,
    positions_of multiples ngram
    = if (MIN_NGRAM <=? len ngram) && (len ngram <=? MAX_NGRAM)
      then filter (fun pos => list_eqb (slice cypher pos (pos + len ngram)) ngram)
                  (range 0 (i - len ngram + 1 + (if len ngram <? k then 1 else 0)))
      else [].

(** [s.count(c)] for a character [c]. *)
Definition count (s : str) (c : char) : Z := Z.of_nat (count_occ Z.eq_dec s c).

(** Vocabulary of the statements about keys: an ASCII letter, and the
    alphabet index of its upper-case form. *)
Definition is_ascii_letter (c : char) : bool :=
  ((65 <=? c) && (c <=? 90)) || ((97 <=? c) && (c <=? 122)).

Definition key_offset (c : char) : Z :=
  if 97 <=? c then c - 97 else c - 65.

Definition letters (s : str) : Prop := Forall (fun c => in_alphabet c = true) s.

(** ** [crack] *)

(** The logarithm of the C library on the positive finite doubles. *)
Variable flog : float -> float.

(** [math.log(x)] on a float. *)
Definition math_log (x : float) : result float :=
  match x with
  | S754_nan => Ok S754_nan
  | S754_infinity false => Ok x
  | S754_finite false _ _ => Ok (flog x)
  | _ => Raise ValueError
  end.

(** [freq*weight] with [weight = 50*math.log(0.1*freq+0.8)*(10/freq)]. *)
Definition score_of (freq : Z) : result float :=
  x <- float_of_int freq ;;
  l <- math_log (float_add (float_mul literal_0_1 x) literal_0_8) ;;
  c <- float_of_int 50 ;;
  q <- int_truediv 10 freq ;;
  let weight := float_mul (float_mul c l) q in
  f <- float_of_int freq ;;
  Ok (float_mul f weight).

Definition compute_scores (div_freqs : dict Z Z) : result (dict Z float) :=
  for_each div_freqs
    (fun scores '(div, freq) =>
       score <- score_of freq ;;
       Ok (dict_set Z.eqb div score scores))
    [].

(** [max(div_freqs, key=(lambda k: scores[k]))]. *)
Definition select_top_div (div_freqs : dict Z Z) (scores : dict Z float)
  : result Z :=
  py_max_by (fun k => dict_getitem k scores) (dict_keys div_freqs).

(** The key length that [crack] infers from a table of divisors. *)
Definition key_length_of (div_freqs : dict Z Z) : result Z :=
  scores <- compute_scores div_freqs ;;
  select_top_div div_freqs scores.

(** Every frequency of the table gets a score, and a greater frequency a
    greater score. *)
Definition scores_ordered (div_freqs : dict Z Z) : Prop :=
  (forall d f, In (d, f) div_freqs -> exists s, score_of f = Ok s) /\
  (forall d1 f1 d2 f2 s1 s2,
      In (d1, f1) div_freqs -> In (d2, f2) div_freqs -> f1 < f2 ->
      score_of f1 = Ok s1 -> score_of f2 = Ok s2 -> float_gt s2 s1 = true).

(** The score of a frequency, when it is computed, and the entry of
    [scores] for an entry of [div_freqs]. *)
Definition score_value (freq : Z) : float :=
  match score_of freq with Ok s => s | Raise _ => S754_nan end.

Definition scored (entry : Z * Z) : Z * float :=
  (fst entry, score_value (snd entry)).

(** The body of the second loop of [crack].  Under [verbosity >= 2] and
    under [verbosity >= 3] the second most common letter is read. *)
Definition most_common_letter (cypher : str) (key_length verbosity : Z)
           (raw_key : str) (i : Z) : result str :=
  let sub_cypher := slice_step cypher i key_length in
  let most_common := most_common (counter sub_cypher) 2 in
  _ <- (if 2 <=? verbosity
        then first <- getitem most_common 0 ;;
             second <- getitem most_common 1 ;;
             Ok tt
        else Ok tt) ;;
  first <- getitem most_common 0 ;;
  let raw_key := raw_key ++ [fst first] in
  _ <- (if 3 <=? verbosity
        then first <- getitem most_common 0 ;;
             second <- getitem most_common 1 ;;
             Ok tt
        else Ok tt) ;;
  Ok raw_key.

(** The listing under [verbosity >= 2] divides every frequency by
    [div_total]; the order of its rows does not change what it raises. *)
Definition crack (cypher : str) (verbosity : Z) : result (str * str) :=
  let cypher := normalize_text cypher in
  let multiples := find_multiples cypher verbosity in
  let distances := calc_distances multiples verbosity in
  let dist_len := len distances in
  let div_freqs := find_common_divisors distances verbosity in
  scores <- compute_scores div_freqs ;;
  let div_total := fold_left Z.add (dict_values div_freqs) 0 in
  top_div <- select_top_div div_freqs scores ;;
  top_freq <- dict_getitem top_div div_freqs ;;
  confidence <- int_truediv top_freq dist_len ;;
  _ <- (if 1 <=? verbosity
        then share <- int_truediv top_freq div_total ;; Ok tt
        else Ok tt) ;;
  _ <- (if 2 <=? verbosity
        then for_each (dict_values div_freqs)
               (fun _ value => share <- int_truediv value div_total ;; Ok tt) tt
        else Ok tt) ;;
  let key_length := top_div in
  raw_key <- for_each (range 0 key_length)
               (most_common_letter cypher key_length verbosity) [] ;;
  key <- decrypt raw_key (str_mul MOST_COMMON_LETTER key_length) ;;
  plain <- decrypt cypher key ;;
  Ok (plain, key).

End Vigenere.

(** The expression of the score on the reals, without rounding, for the
    comparison with what [score_of] computes on floats. *)
Definition exact_score (f : R) : R :=
  (f * (50 * ln (0.1 * f + 0.8) * (10 / f)))%R.

(** The outcome of the loop of [encrypt] ([op] the addition) and of
    [decrypt] (the subtraction) on a normalised text, the normalised key
    and the length [L] of the raw key, in closed form. *)
Definition shift_outcome (op : Z -> Z -> Z) (text key : str) (L : Z) : result str :=
  if len text =? 0 then Ok []
  else if L =? 0 then Raise ZeroDivisionError
  else if len key <? Z.min (len text) L then Raise IndexError
  else Ok (map (fun i => 65 + op (nth (Z.to_nat i) text 0 - 65)
                                (nth (Z.to_nat (i mod L)) key 0 - 65) mod 26)
               (range 0 (len text))).

(** Modelled from the spec's words: "the first divisor encountered with
    maximal frequency". *)
Definition most_frequent_divisor (div_freqs : dict Z Z) : option Z :=
  match div_freqs with
  | [] => None
  | entry :: div_freqs' =>
      Some (fst (fold_left
                   (fun best entry => if snd best <? snd entry then entry else best)
                   div_freqs' entry))
  end.


(** * Properties *)

(** ** The result monad and the built-ins *)

Lemma bind_ok {A B} (m : result A) (k : A -> result B) (b : B) :
  bind m k = Ok b -> exists a, m = Ok a /\ k a = Ok b.
Proof. destruct m as [a|e]; simpl; [eauto | discriminate]. Qed.

Lemma map_result_ok {A B} (f : A -> result B) (g : A -> B) (xs : list A) :
  (forall x, In x xs -> f x = Ok (g x)) -> map_result f xs = Ok (map g xs).
Proof.
  induction xs as [|x xs IH]; intros H; simpl; [reflexivity|].
  rewrite (H x (or_introl eq_refl)); simpl.
  rewrite IH by (intros y Hy; apply H; right; exact Hy).
  reflexivity.
Qed.

Lemma len_nonneg {A} (l : list A) : 0 <= len l.
Proof. unfold len; lia. Qed.

Lemma len_app {A} (l1 l2 : list A) : len (l1 ++ l2) = len l1 + len l2.
Proof. unfold len; rewrite length_app; lia. Qed.

Lemma len_nil_iff {A} (l : list A) : len l = 0 <-> l = [].
Proof.
  unfold len; split; intros H; [|subst; reflexivity].
  destruct l; [reflexivity | simpl in H; lia].
Qed.

Lemma range_empty lo hi : hi <= lo -> range lo hi = [].
Proof.
  intros H; unfold range.
  replace (Z.to_nat (hi - lo)) with 0%nat by lia; reflexivity.
Qed.

Lemma range_cons lo hi : lo < hi -> range lo hi = lo :: range (lo + 1) hi.
Proof.
  intros H; unfold range.
  replace (Z.to_nat (hi - lo)) with (S (Z.to_nat (hi - (lo + 1)))) by lia.
  rewrite <- cons_seq, <- seq_shift; simpl; rewrite map_map.
  f_equal; [lia|].
  apply map_ext; intros k; lia.
Qed.

Lemma range_length lo hi : List.length (range lo hi) = Z.to_nat (hi - lo).
Proof. unfold range; rewrite length_map, length_seq; reflexivity. Qed.

Lemma in_range lo hi i : In i (range lo hi) <-> lo <= i < hi.
Proof.
  unfold range; rewrite in_map_iff; split.
  - intros [k [<- Hk]]; apply in_seq in Hk; lia.
  - intros H; exists (Z.to_nat (i - lo)); split; [lia|].
    apply in_seq; lia.
Qed.

Lemma range_snoc lo hi : lo <= hi -> range lo (hi + 1) = range lo hi ++ [hi].
Proof.
  intros H; unfold range.
  replace (Z.to_nat (hi + 1 - lo)) with (Z.to_nat (hi - lo) + 1)%nat by lia.
  rewrite seq_app, map_app; simpl; repeat f_equal; lia.
Qed.

Lemma getitem_nth {A} (l : list A) (i : Z) (d : A) :
  0 <= i < len l -> getitem l i = Ok (nth (Z.to_nat i) l d).
Proof.
  unfold getitem, len; intros H.
  destruct (Z.ltb_spec i 0); [lia|].
  destruct (Z.ltb_spec i 0); [lia|].
  destruct (nth_error l (Z.to_nat i)) eqn:E.
  - rewrite (nth_error_nth _ _ d E); reflexivity.
  - apply nth_error_None in E; lia.
Qed.

Lemma getitem_out_of_range {A} (l : list A) (i : Z) :
  len l <= i -> getitem l i = Raise IndexError.
Proof.
  unfold getitem, len; intros H.
  destruct (Z.ltb_spec i 0); [lia|].
  destruct (Z.ltb_spec i 0); [lia|].
  destruct (nth_error l (Z.to_nat i)) eqn:E; [|reflexivity].
  assert (nth_error l (Z.to_nat i) <> None) as Hn by congruence.
  apply nth_error_Some in Hn; lia.
Qed.

(** A loop that appends one computed element per index. *)
Lemma for_each_append_ok {A B} (f : A -> result B) (g : A -> B) (xs : list A)
      (acc : list B) :
  (forall x, In x xs -> f x = Ok (g x)) ->
  for_each xs (fun acc x => c <- f x ;; Ok (acc ++ [c])) acc
  = Ok (acc ++ map g xs).
Proof.
  revert acc; induction xs as [|x xs IH]; intros acc H; simpl.
  - rewrite app_nil_r; reflexivity.
  - rewrite (H x (or_introl eq_refl)); simpl.
    rewrite IH by (intros y Hy; apply H; right; exact Hy).
    rewrite <- app_assoc; reflexivity.
Qed.

Lemma for_each_ext {A S} (xs : list A) (b1 b2 : S -> A -> result S) (acc : S) :
  (forall s x, In x xs -> b1 s x = b2 s x) ->
  for_each xs b1 acc = for_each xs b2 acc.
Proof.
  revert acc; induction xs as [|x xs IH]; intros acc H; simpl; [reflexivity|].
  rewrite (H acc x (or_introl eq_refl)).
  destruct (b2 acc x); simpl; [|reflexivity].
  apply IH; intros s y Hy; apply H; right; exact Hy.
Qed.

Lemma nth_range lo hi (k : nat) d :
  (k < Z.to_nat (hi - lo))%nat -> nth k (range lo hi) d = lo + Z.of_nat k.
Proof.
  intros H; unfold range.
  pose proof (map_nth (fun k => lo + Z.of_nat k)
                      (seq 0 (Z.to_nat (hi - lo))) 0%nat k) as E.
  cbv beta in E.
  rewrite (nth_indep _ d (lo + Z.of_nat 0)) by (rewrite length_map, length_seq; lia).
  rewrite E, seq_nth by lia; reflexivity.
Qed.

Lemma getitem_map_range {B} (g : Z -> B) (n i : Z) :
  0 <= i < n -> getitem (map g (range 0 n)) i = Ok (g i).
Proof.
  intros H.
  rewrite (getitem_nth _ i (g 0))
    by (unfold len; rewrite length_map, range_length; lia).
  rewrite (map_nth g (range 0 n) 0), nth_range by lia.
  f_equal; f_equal; lia.
Qed.

Lemma nth_map_range {B} (g : Z -> B) (n : Z) (j : nat) (d : B) :
  Z.of_nat j < n -> nth j (map g (range 0 n)) d = g (Z.of_nat j).
Proof.
  intros H.
  rewrite (nth_indep _ d (g 0)) by (rewrite length_map, range_length; lia).
  rewrite (map_nth g (range 0 n) 0), nth_range by lia.
  f_equal.
Qed.

Lemma len_map_range {B} (g : Z -> B) (n : Z) : 0 <= n -> len (map g (range 0 n)) = n.
Proof. intros H; unfold len; rewrite length_map, range_length; lia. Qed.

(** ** The alphabet *)

Lemma in_alphabet_iff c : in_alphabet c = true <-> 65 <= c <= 90.
Proof.
  unfold in_alphabet; rewrite existsb_exists; split.
  - intros [x [Hx E]]; apply Z.eqb_eq in E; subst x.
    vm_compute in Hx; intuition lia.
  - intros H; exists c; split; [|apply Z.eqb_refl].
    assert (In c (range 65 91)) as Hr by (apply in_range; lia).
    exact Hr.
Qed.

Lemma alphabet_index_ok c : in_alphabet c = true -> alphabet_index c = Ok (c - 65).
Proof.
  intros H; apply in_alphabet_iff in H.
  assert (In c (range 65 91)) as Hr by (apply in_range; lia).
  vm_compute in Hr.
  repeat (destruct Hr as [<-|Hr]; [reflexivity|]); destruct Hr.
Qed.

Lemma alphabet_getitem m : 0 <= m < 26 -> getitem ALPHABET m = Ok (65 + m).
Proof.
  intros H.
  assert (In m (range 0 26)) as Hr by (apply in_range; lia).
  vm_compute in Hr.
  repeat (destruct Hr as [<-|Hr]; [reflexivity|]); destruct Hr.
Qed.

Lemma len_ALPHABET : len ALPHABET = 26.
Proof. reflexivity. Qed.


Lemma is_ascii_letter_iff c :
  is_ascii_letter c = true <-> 65 <= c <= 90 \/ 97 <= c <= 122.
Proof.
  unfold is_ascii_letter.
  rewrite orb_true_iff, !andb_true_iff, !Z.leb_le; reflexivity.
Qed.

Lemma key_offset_range c : is_ascii_letter c = true -> 0 <= key_offset c < 26.
Proof.
  intros H; apply is_ascii_letter_iff in H; unfold key_offset.
  destruct (Z.leb_spec 97 c); lia.
Qed.

Lemma shifted_letters (g : Z -> Z) (n : Z) :
  letters (map (fun i => 65 + g i mod 26) (range 0 n)).
Proof.
  unfold letters; apply Forall_forall; intros c Hc.
  apply in_map_iff in Hc; destruct Hc as [i [<- _]].
  apply in_alphabet_iff.
  pose proof (Z.mod_pos_bound (g i) 26); lia.
Qed.

(** ** Slices and dictionaries *)

Lemma slice_nonneg {A} (l : list A) (a b : Z) :
  0 <= a <= b -> b <= len l ->
  slice l a b = firstn (Z.to_nat (b - a)) (skipn (Z.to_nat a) l).
Proof.
  intros Ha Hb; unfold slice, clip.
  destruct (Z.ltb_spec a 0); [lia|].
  destruct (Z.ltb_spec b 0); [lia|].
  rewrite !Z.min_l by lia; reflexivity.
Qed.

Lemma len_slice {A} (l : list A) (a b : Z) :
  0 <= a <= b -> b <= len l -> len (slice l a b) = b - a.
Proof.
  intros Ha Hb; rewrite slice_nonneg by assumption.
  unfold len in *; rewrite length_firstn, length_skipn; lia.
Qed.

Lemma slice_substring {A} (l : list A) (a b : Z) :
  0 <= a <= b -> b <= len l ->
  exists pre post, l = pre ++ slice l a b ++ post.
Proof.
  intros Ha Hb; rewrite slice_nonneg by assumption.
  exists (firstn (Z.to_nat a) l),
         (skipn (Z.to_nat (b - a)) (skipn (Z.to_nat a) l)).
  rewrite firstn_skipn, firstn_skipn; reflexivity.
Qed.

Lemma slice_prefix {A} (l : list A) (i : Z) :
  0 <= i <= len l -> slice l 0 i = firstn (Z.to_nat i) l.
Proof.
  intros H; rewrite slice_nonneg by lia.
  rewrite Z.sub_0_r; reflexivity.
Qed.

Section DictFacts.

Context {K V : Type} (eqb : K -> K -> bool).

Lemma dict_set_Forall (P : K * V -> Prop) k v (d : dict K V) :
  P (k, v) ->
  (forall k' v', P (k', v') -> eqb k' k = true -> P (k', v)) ->
  Forall P d -> Forall P (dict_set eqb k v d).
Proof.
  intros Hk Hv; induction 1 as [|[k' v'] d Hx Hd IH]; simpl.
  - constructor; [exact Hk | constructor].
  - destruct (eqb k' k) eqn:E; constructor; eauto.
Qed.

Lemma dict_update_Forall (P : K * V -> Prop) k f (d : dict K V) :
  (forall k' v', P (k', v') -> eqb k' k = true -> P (k', f v')) ->
  Forall P d -> Forall P (dict_update eqb k f d).
Proof.
  intros Hf; induction 1 as [|[k' v'] d Hx Hd IH]; simpl.
  - constructor.
  - destruct (eqb k' k) eqn:E; constructor; auto.
Qed.

End DictFacts.

Lemma list_eqb_eq s1 s2 : list_eqb s1 s2 = true <-> s1 = s2.
Proof.
  revert s2; induction s1 as [|x s1 IH]; intros [|y s2]; simpl;
    try (split; [discriminate | congruence]); [tauto|].
  rewrite andb_true_iff, Z.eqb_eq, IH; split; [intros []|intros [=]]; subst; auto.
Qed.

(** ** [find_multiples] *)

Lemma record_ngram_scanned cypher i multiples n :
  0 <= i < len cypher -> MIN_NGRAM <= n <= MAX_NGRAM ->
  Forall (scanned cypher) multiples ->
  Forall (scanned cypher) (record_ngram cypher i multiples n).
Proof.
  intros Hi Hn Hm; unfold record_ngram.
  destruct (Z.ltb_spec (i + 1) n); [exact Hm|].
  assert (len (slice cypher (i - n + 1) (i + 1)) = n) as Hlen
    by (unfold MIN_NGRAM in Hn; rewrite len_slice; lia).
  apply dict_update_Forall.
  - intros g ps [Hg Hps] E; apply list_eqb_eq in E; subst g.
    split; [exact Hg|]; cbn [fst snd] in *.
    apply Forall_app; split; [exact Hps|].
    constructor; [|constructor].
    unfold occurs_at; rewrite Hlen.
    unfold MIN_NGRAM in Hn.
    repeat split; try lia.
    f_equal; lia.
  - destruct (negb _); [|exact Hm].
    apply dict_set_Forall; [| |exact Hm].
    + split; cbn [fst snd]; [rewrite Hlen; exact Hn | constructor].
    + intros g ps [Hg _] _; split; cbn [fst snd] in *; [exact Hg | constructor].
Qed.

Lemma fold_left_invariant {A S} (P : S -> Prop) (Q : A -> Prop)
      (f : S -> A -> S) (xs : list A) (s : S) :
  (forall s x, Q x -> P s -> P (f s x)) ->
  Forall Q xs -> P s -> P (fold_left f xs s).
Proof.
  intros Hf Hxs; revert s; induction Hxs as [|x xs Hx _ IH]; intros s Hs.
  - exact Hs.
  - cbn [fold_left]; apply IH, Hf; assumption.
Qed.

Lemma find_multiples_scanned cypher verbosity :
  Forall (scanned cypher) (find_multiples cypher verbosity).
Proof.
  unfold find_multiples.
  apply Forall_forall; intros e He; apply filter_In in He; destruct He as [He _].
  revert e He; apply Forall_forall.
  apply (fold_left_invariant (Forall (scanned cypher))
                             (fun i => 0 <= i < len cypher)).
  - intros multiples i Hi Hm.
    apply (fold_left_invariant (Forall (scanned cypher))
                               (fun n => MIN_NGRAM <= n <= MAX_NGRAM)).
    + intros m n Hn Hm'; apply record_ngram_scanned; assumption.
    + apply Forall_forall; intros n Hn; apply in_range in Hn; lia.
    + exact Hm.
  - apply Forall_forall; intros i Hi; apply in_range in Hi; lia.
  - constructor.
Qed.

(** C8: every entry of the mapping that [find_multiples] returns has at
    least two positions, and its key is a substring of the text, of at least
    3 and at most 16 characters, that starts at each recorded position. *)
Theorem find_multiples_entries (cypher : str) (verbosity : Z)
        (ngram : str) (positions : list Z) :
  In (ngram, positions) (find_multiples cypher verbosity) ->
  2 <= len positions /\
  3 <= len ngram <= 16 /\
  (exists pre post, cypher = pre ++ ngram ++ post) /\
  Forall (occurs_at cypher ngram) positions.
Proof.
  intros Hin.
  pose proof (find_multiples_scanned cypher verbosity) as Hs.
  rewrite Forall_forall in Hs; destruct (Hs _ Hin) as [Hlen Hocc].
  cbn [fst snd] in *.
  unfold find_multiples in Hin; apply filter_In in Hin; destruct Hin as [_ Hk].
  apply Z.ltb_lt in Hk.
  split; [lia|]; split; [exact Hlen|]; split; [|exact Hocc].
  destruct positions as [|pos positions]; [unfold len in Hk; simpl in Hk; lia|].
  inversion Hocc as [|? ? [H0 [H1 H2]] _]; subst.
  destruct (slice_substring cypher pos (pos + len ngram)) as [pre [post E]];
    [pose proof (len_nonneg ngram); lia | lia |].
  rewrite H2 in E; exists pre, post; exact E.
Qed.


(** *** The scan finds every occurrence *)

Lemma fold_left_range_invariant {St} (P : Z -> St -> Prop) (f : St -> Z -> St)
      (lo hi : Z) (s : St) :
  lo <= hi -> P lo s ->
  (forall k s, lo <= k < hi -> P k s -> P (k + 1) (f s k)) ->
  P hi (fold_left f (range lo hi) s).
Proof.
  intros Hle H0 Hstep.
  assert (forall m : nat, lo + Z.of_nat m <= hi ->
            P (lo + Z.of_nat m) (fold_left f (range lo (lo + Z.of_nat m)) s)) as H.
  { induction m as [|m IH]; intros Hm.
    - rewrite Z.add_0_r, range_empty by lia; exact H0.
    - replace (lo + Z.of_nat (S m)) with (lo + Z.of_nat m + 1) by lia.
      rewrite range_snoc, fold_left_app by lia; cbn [fold_left].
      apply Hstep; [lia | apply IH; lia]. }
  specialize (H (Z.to_nat (hi - lo))).
  replace (lo + Z.of_nat (Z.to_nat (hi - lo))) with hi in H by lia.
  apply H; lia.
Qed.

Section DictEq.

Context {K V : Type} (eqb : K -> K -> bool).
Hypothesis eqb_eq : forall a b, eqb a b = true <-> a = b.

Lemma eqb_same a : eqb a a = true.
Proof. apply eqb_eq; reflexivity. Qed.

Lemma eqb_other a b : a <> b -> eqb a b = false.
Proof.
  intros H; destruct (eqb a b) eqn:E; [|reflexivity].
  apply eqb_eq in E; contradiction.
Qed.

Lemma get_set_same k (v : V) (d : dict K V) :
  dict_get eqb k (dict_set eqb k v d) = Some v.
Proof.
  induction d as [|[k' v'] d IH]; cbn [dict_set dict_get].
  - rewrite eqb_same; reflexivity.
  - destruct (eqb k' k) eqn:E; cbn [dict_get]; rewrite E; [reflexivity | exact IH].
Qed.

Lemma get_set_other k k' (v : V) (d : dict K V) :
  k' <> k -> dict_get eqb k' (dict_set eqb k v d) = dict_get eqb k' d.
Proof.
  intros Hne; induction d as [|[k0 v0] d IH]; cbn [dict_set dict_get].
  - rewrite eqb_other by congruence; reflexivity.
  - destruct (eqb k0 k) eqn:E; cbn [dict_get]; [|rewrite IH; reflexivity].
    apply eqb_eq in E; subst k0.
    rewrite eqb_other by congruence; reflexivity.
Qed.

Lemma get_update_same k (f : V -> V) (d : dict K V) :
  dict_get eqb k (dict_update eqb k f d) = option_map f (dict_get eqb k d).
Proof.
  induction d as [|[k' v'] d IH]; cbn [dict_update dict_get]; [reflexivity|].
  destruct (eqb k' k) eqn:E; cbn [dict_get]; rewrite E; [reflexivity | exact IH].
Qed.

Lemma get_update_other k k' (f : V -> V) (d : dict K V) :
  k' <> k -> dict_get eqb k' (dict_update eqb k f d) = dict_get eqb k' d.
Proof.
  intros Hne; induction d as [|[k0 v0] d IH]; cbn [dict_update dict_get];
    [reflexivity|].
  destruct (eqb k0 k) eqn:E; cbn [dict_get]; [|rewrite IH; reflexivity].
  apply eqb_eq in E; subst k0.
  rewrite eqb_other by congruence; reflexivity.
Qed.

Lemma get_In k (v : V) (d : dict K V) : dict_get eqb k d = Some v -> In (k, v) d.
Proof.
  induction d as [|[k' v'] d IH]; cbn [dict_get]; [discriminate|].
  destruct (eqb k' k) eqn:E.
  - apply eqb_eq in E; subst k'; intros [= ->]; left; reflexivity.
  - intros H; right; apply IH, H.
Qed.

Lemma get_None k (d : dict K V) :
  dict_get eqb k d = None -> ~ In k (dict_keys d).
Proof.
  unfold dict_keys; induction d as [|[k' v'] d IH]; cbn [dict_get map fst In];
    [intros _ []|].
  destruct (eqb k' k) eqn:E; [discriminate|].
  intros H [->|Hin]; [rewrite eqb_same in E; discriminate | exact (IH H Hin)].
Qed.

Lemma In_get k (v : V) (d : dict K V) :
  NoDup (dict_keys d) -> In (k, v) d -> dict_get eqb k d = Some v.
Proof.
  unfold dict_keys; induction d as [|[k' v'] d IH]; cbn [map fst dict_get];
    intros Hnd Hin; [destruct Hin|].
  inversion Hnd as [|? ? Hk Hd]; subst.
  destruct Hin as [[= -> ->]|Hin]; [rewrite eqb_same; reflexivity|].
  destruct (eqb k' k) eqn:E; [|apply IH; assumption].
  apply eqb_eq in E; subst k'.
  exfalso; apply Hk; apply in_map_iff; exists (k, v); split; [reflexivity | exact Hin].
Qed.

Lemma keys_update k (f : V -> V) (d : dict K V) :
  dict_keys (dict_update eqb k f d) = dict_keys d.
Proof.
  unfold dict_keys; induction d as [|[k0 v0] d IH]; cbn [dict_update map fst];
    [reflexivity|].
  destruct (eqb k0 k); cbn [map fst]; congruence.
Qed.

Lemma keys_set_fresh k (v : V) (d : dict K V) :
  dict_get eqb k d = None -> dict_keys (dict_set eqb k v d) = dict_keys d ++ [k].
Proof.
  unfold dict_keys; induction d as [|[k0 v0] d IH]; cbn [dict_get dict_set map fst app];
    [reflexivity|].
  destruct (eqb k0 k); [discriminate|].
  intros H; cbn [map fst]; rewrite IH by exact H; reflexivity.
Qed.

End DictEq.

Lemma positions_of_record cypher i multiples n ngram :
  positions_of (record_ngram cypher i multiples n) ngram
  = positions_of multiples ngram
    ++ (if (n <=? i + 1) && list_eqb (slice cypher (i - n + 1) (i + 1)) ngram
        then [i - n + 1] else []).
Proof.
  unfold record_ngram.
  destruct (Z.ltb_spec (i + 1) n) as [Hlt|Hge].
  - destruct (Z.leb_spec n (i + 1)); [lia|]; cbn [andb]; rewrite app_nil_r.
    reflexivity.
  - destruct (Z.leb_spec n (i + 1)); [|lia]; cbn [andb].
    set (g0 := slice cypher (i - n + 1) (i + 1)).
    unfold positions_of, dict_mem.
    destruct (list_eqb g0 ngram) eqn:E.
    + apply list_eqb_eq in E; subst ngram.
      rewrite (get_update_same list_eqb).
      destruct (dict_get list_eqb g0 multiples) as [ps|] eqn:Eg; cbn [negb].
      * rewrite Eg; reflexivity.
      * rewrite (get_set_same list_eqb list_eqb_eq); reflexivity.
    + assert (ngram <> g0) as Hne
        by (intros ->; rewrite (proj2 (list_eqb_eq g0 g0) eq_refl) in E;
            discriminate).
      rewrite (get_update_other list_eqb list_eqb_eq) by exact Hne.
      destruct (dict_get list_eqb g0 multiples); cbn [negb];
        [|rewrite (get_set_other list_eqb list_eqb_eq) by exact Hne];
        rewrite app_nil_r; reflexivity.
Qed.

Lemma record_ngram_NoDup cypher i multiples n :
  NoDup (dict_keys multiples) ->
  NoDup (dict_keys (record_ngram cypher i multiples n)).
Proof.
  intros Hnd; unfold record_ngram.
  destruct (i + 1 <? n); [exact Hnd|].
  rewrite (keys_update list_eqb); unfold dict_mem.
  destruct (dict_get list_eqb _ multiples) eqn:E; cbn [negb]; [exact Hnd|].
  rewrite (keys_set_fresh list_eqb) by exact E.
  apply NoDup_app; [exact Hnd | repeat constructor; intros [] |].
  intros k Hk [<-|[]].
  exact (get_None list_eqb list_eqb_eq _ _ E Hk).
Qed.

(** The starts of [ngram] below [bound]. *)
Lemma starts_snoc cypher ngram (bound : Z) :
  0 <= bound ->
  filter (fun pos => list_eqb (slice cypher pos (pos + len ngram)) ngram)
         (range 0 (bound + 1))
  = filter (fun pos => list_eqb (slice cypher pos (pos + len ngram)) ngram)
           (range 0 bound)
    ++ (if list_eqb (slice cypher bound (bound + len ngram)) ngram
        then [bound] else []).
Proof.
  intros H; rewrite range_snoc, filter_app by exact H; cbn [filter].
  destruct (list_eqb _ ngram); reflexivity.
Qed.

Lemma scan_state_record cypher i k multiples :
  0 <= i < len cypher -> MIN_NGRAM <= k <= MAX_NGRAM ->
  scan_state cypher i k multiples ->
  scan_state cypher i (k + 1) (record_ngram cypher i multiples k).
Proof.
  intros Hi Hk [Hnd Hpos]; split; [apply record_ngram_NoDup, Hnd|].
  intros g; rewrite positions_of_record, Hpos.
  unfold MIN_NGRAM, MAX_NGRAM in *.
  assert (k <= i + 1 -> len (slice cypher (i - k + 1) (i + 1)) = k) as Hlen
    by (intros; rewrite len_slice; lia).
  assert (k <= i + 1 -> len g <> k ->
          list_eqb (slice cypher (i - k + 1) (i + 1)) g = false) as Hneq.
  { intros H1 H2; destruct (list_eqb _ g) eqn:E; [|reflexivity].
    apply list_eqb_eq in E; rewrite <- E, Hlen in H2 by exact H1; lia. }
  destruct ((3 <=? len g) && (len g <=? 16)) eqn:Eadm.
  - destruct (Z.eq_dec (len g) k) as [Eg|Eg].
    + destruct (Z.ltb_spec (len g) k); [lia|].
      destruct (Z.ltb_spec (len g) (k + 1)); [|lia].
      subst k; rewrite !Z.add_0_r.
      destruct (Z.leb_spec (len g) (i + 1)) as [Hle|Hgt]; cbn [andb].
      * rewrite (starts_snoc cypher g (i - len g + 1)) by lia.
        replace (i - len g + 1 + len g) with (i + 1) by lia; reflexivity.
      * rewrite !range_empty by lia; reflexivity.
    + replace (len g <? k + 1) with (len g <? k)
        by (destruct (Z.ltb_spec (len g) k), (Z.ltb_spec (len g) (k + 1));
            reflexivity || lia).
      destruct (Z.leb_spec k (i + 1)) as [Hle|Hgt]; cbn [andb];
        [rewrite Hneq by assumption|]; rewrite app_nil_r; reflexivity.
  - destruct (Z.leb_spec k (i + 1)) as [Hle|Hgt]; cbn [andb]; [|reflexivity].
    rewrite Hneq; [reflexivity | exact Hle |].
    intros Eg; rewrite Eg in Eadm.
    destruct (Z.leb_spec 3 k), (Z.leb_spec k 16); cbn in Eadm; lia || discriminate.
Qed.

Lemma scan_state_final cypher :
  scan_state cypher (len cypher) MIN_NGRAM
    (fold_left
       (fun multiples i =>
          fold_left (record_ngram cypher i) (range MIN_NGRAM (MAX_NGRAM + 1))
                    multiples)
       (range 0 (len cypher)) []).
Proof.
  apply (fold_left_range_invariant (fun i m => scan_state cypher i MIN_NGRAM m)).
  - apply len_nonneg.
  - split; [constructor|].
    intros g; unfold positions_of; cbn [dict_get].
    destruct ((MIN_NGRAM <=? len g) && (len g <=? MAX_NGRAM)) eqn:E; [|reflexivity].
    unfold MIN_NGRAM in *; apply andb_true_iff in E; destruct E as [E _].
    apply Z.leb_le in E.
    destruct (Z.ltb_spec (len g) 3); [lia|].
    rewrite range_empty by lia; reflexivity.
  - intros i m Hi Hm.
    assert (scan_state cypher i (MAX_NGRAM + 1)
              (fold_left (record_ngram cypher i)
                         (range MIN_NGRAM (MAX_NGRAM + 1)) m)) as [Hnd Hpos].
    { apply (fold_left_range_invariant (fun k m => scan_state cypher i k m));
        [unfold MIN_NGRAM, MAX_NGRAM; lia | exact Hm |].
      intros k m' Hk Hm'; apply scan_state_record; [exact Hi | lia | exact Hm']. }
    split; [exact Hnd|].
    intros g; rewrite Hpos.
    destruct ((MIN_NGRAM <=? len g) && (len g <=? MAX_NGRAM)) eqn:E; [|reflexivity].
    unfold MIN_NGRAM, MAX_NGRAM in *.
    apply andb_true_iff in E; destruct E as [E1 E2].
    apply Z.leb_le in E1; apply Z.leb_le in E2.
    destruct (Z.ltb_spec (len g) (16 + 1)); [|lia].
    destruct (Z.ltb_spec (len g) 3); [lia|].
    f_equal; f_equal; lia.
Qed.

Lemma filter_keys_NoDup {K V} (f : K * V -> bool) (d : dict K V) :
  NoDup (dict_keys d) -> NoDup (dict_keys (filter f d)).
Proof.
  unfold dict_keys; induction d as [|e d IH]; cbn [filter map]; intros H;
    [constructor|].
  inversion H as [|? ? Hk Hd]; subst.
  destruct (f e); cbn [map]; [|apply IH, Hd].
  constructor; [|apply IH, Hd].
  intros Hin; apply Hk.
  apply in_map_iff in Hin; destruct Hin as [e' [Ee Hin]].
  apply filter_In in Hin; destruct Hin as [Hin _].
  apply in_map_iff; exists e'; split; assumption.
Qed.

Lemma find_multiples_positions cypher ngram :
  positions_of
    (fold_left
       (fun multiples i =>
          fold_left (record_ngram cypher i) (range MIN_NGRAM (MAX_NGRAM + 1))
                    multiples)
       (range 0 (len cypher)) [])
    ngram
  = if (MIN_NGRAM <=? len ngram) && (len ngram <=? MAX_NGRAM)
    then occurrences cypher ngram else [].
Proof.
  destruct (scan_state_final cypher) as [_ Hpos]; rewrite Hpos.
  destruct ((MIN_NGRAM <=? len ngram) && (len ngram <=? MAX_NGRAM)) eqn:E;
    [|reflexivity].
  apply andb_true_iff in E; destruct E as [E _]; apply Z.leb_le in E.
  destruct (Z.ltb_spec (len ngram) MIN_NGRAM); [lia|].
  unfold occurrences; rewrite Z.add_0_r; reflexivity.
Qed.

Lemma find_multiples_NoDup cypher verbosity :
  NoDup (dict_keys (find_multiples cypher verbosity)).
Proof.
  destruct (scan_state_final cypher) as [Hnd _].
  unfold find_multiples; cbv zeta; apply filter_keys_NoDup, Hnd.
Qed.

Lemma find_multiples_In cypher verbosity ngram positions :
  In (ngram, positions) (find_multiples cypher verbosity) <->
  3 <= len ngram <= 16 /\ positions = occurrences cypher ngram /\
  2 <= len positions.
Proof.
  pose proof (find_multiples_positions cypher ngram) as Hpos.
  destruct (scan_state_final cypher) as [Hnd _].
  unfold find_multiples; cbv zeta.
  match goal with |- context [filter _ ?m] => set (multiples := m) in * end.
  rewrite filter_In; unfold positions_of in Hpos.
  unfold MIN_NGRAM, MAX_NGRAM in Hpos.
  split.
  - intros [Hin Hlen]; apply Z.ltb_lt in Hlen.
    rewrite (In_get list_eqb list_eqb_eq _ _ _ Hnd Hin) in Hpos.
    destruct (Z.leb_spec 3 (len ngram)), (Z.leb_spec (len ngram) 16);
      cbn [andb] in Hpos; subst positions;
      try (unfold len in Hlen; cbn [List.length] in Hlen; lia).
    repeat split; lia.
  - intros [[H3 H16] [Hocc Hlen]].
    destruct (Z.leb_spec 3 (len ngram)); [|lia].
    destruct (Z.leb_spec (len ngram) 16); [|lia].
    cbn [andb] in Hpos; rewrite <- Hocc in Hpos.
    destruct (dict_get list_eqb ngram multiples) as [ps|] eqn:Eget.
    + subst ps; split; [apply (get_In list_eqb list_eqb_eq), Eget|].
      apply Z.ltb_lt; lia.
    + subst positions; unfold len in Hlen; cbn [List.length] in Hlen; lia.
Qed.

Lemma range_sorted lo hi : StronglySorted Z.lt (range lo hi).
Proof.
  unfold range; generalize (Z.to_nat (hi - lo)) as n; generalize 0%nat as s.
  intros s n; revert s; induction n as [|n IH]; intros s; cbn [seq map];
    constructor; [apply IH|].
  apply Forall_forall; intros x Hx.
  apply in_map_iff in Hx; destruct Hx as [k [<- Hk]].
  apply in_seq in Hk; lia.
Qed.

Lemma filter_sorted (f : Z -> bool) l :
  StronglySorted Z.lt l -> StronglySorted Z.lt (filter f l).
Proof.
  induction 1 as [|x l Hs IH Hall]; cbn [filter]; [constructor|].
  destruct (f x); [|exact IH].
  constructor; [exact IH|].
  rewrite Forall_forall in *; intros y Hy.
  apply filter_In in Hy; apply Hall, Hy.
Qed.

Lemma sorted_firstn_nth l (i : nat) j :
  StronglySorted Z.lt l -> (i < List.length l)%nat -> In j (firstn i l) ->
  j < nth i l 0.
Proof.
  intros Hs; revert i; induction Hs as [|x l Hs IH Hall]; intros i Hi Hj;
    [cbn in Hi; lia|].
  destruct i as [|i]; [destruct Hj|].
  cbn [List.length] in Hi; cbn [firstn In] in Hj; cbn [nth].
  destruct Hj as [<-|Hj]; [|apply IH; [lia | exact Hj]].
  rewrite Forall_forall in Hall; apply Hall, nth_In; lia.
Qed.

Lemma occurrences_occurs_at cypher ngram pos :
  In pos (occurrences cypher ngram) <-> occurs_at cypher ngram pos.
Proof.
  unfold occurrences, occurs_at; rewrite filter_In, in_range, list_eqb_eq.
  split; intros H; repeat split; try tauto; lia.
Qed.

Lemma occurrences_sorted cypher ngram :
  StronglySorted Z.lt (occurrences cypher ngram).
Proof. apply filter_sorted, range_sorted. Qed.

(** X8: [find_multiples] returns exactly the substrings of 3 to 16
    characters that start at two positions or more, each under one key, with
    all its starts in ascending order. *)
Theorem find_multiples_complete (cypher : str) (verbosity : Z)
        (ngram : str) (positions : list Z) :
  NoDup (dict_keys (find_multiples cypher verbosity)) /\
  (In (ngram, positions) (find_multiples cypher verbosity) <->
   3 <= len ngram <= 16 /\ positions = occurrences cypher ngram /\
   2 <= len positions) /\
  StronglySorted Z.lt (occurrences cypher ngram) /\
  (forall pos, In pos (occurrences cypher ngram) <-> occurs_at cypher ngram pos).
Proof.
  split; [apply find_multiples_NoDup|].
  split; [apply find_multiples_In|].
  split; [apply occurrences_sorted|].
  intros pos; apply occurrences_occurs_at.
Qed.

(** ** [calc_distances] *)

Lemma fold_left_extend {A B} (f : A -> list B) (xs : list A) (acc : list B) :
  fold_left (fun acc x => acc ++ f x) xs acc = acc ++ flat_map f xs.
Proof.
  revert acc; induction xs as [|x xs IH]; intros acc; cbn [fold_left flat_map].
  - rewrite app_nil_r; reflexivity.
  - rewrite IH, app_assoc; reflexivity.
Qed.

Lemma calc_distances_entries multiples verbosity :
  calc_distances multiples verbosity
  = flat_map (fun entry => entry_distances (snd entry)) multiples.
Proof.
  unfold calc_distances.
  rewrite <- (app_nil_l (flat_map _ multiples)).
  rewrite <- fold_left_extend.
  generalize (@nil Z) as acc.
  induction multiples as [|[ngram positions] multiples IH]; intros acc;
    [reflexivity|].
  cbn [fold_left snd]; rewrite IH; f_equal.
  apply fold_left_extend.
Qed.

Lemma range_sum_length {B} (f : Z -> list B) (k : Z) :
  2 <= k -> (forall i, 2 <= i < k -> len (f i) = i) ->
  2 * len (flat_map f (range 2 k)) + 2 = k * (k - 1).
Proof.
  intros Hk.
  replace k with (2 + Z.of_nat (Z.to_nat (k - 2))) by lia.
  generalize (Z.to_nat (k - 2)) as m; clear Hk k.
  induction m as [|m IH]; intros Hf.
  - rewrite range_empty by lia; reflexivity.
  - replace (2 + Z.of_nat (S m)) with (2 + Z.of_nat m + 1) by lia.
    rewrite range_snoc by lia.
    rewrite flat_map_app, len_app; cbn [flat_map]; rewrite app_nil_r.
    rewrite Hf by lia.
    assert (2 * len (flat_map f (range 2 (2 + Z.of_nat m))) + 2
            = (2 + Z.of_nat m) * (2 + Z.of_nat m - 1)) as E
      by (apply IH; intros i Hi; apply Hf; lia).
    lia.
Qed.

(** An entry of [k >= 2] positions adds [k*(k-1)/2 - 1] distances: the pair
    of the first two positions is left out. *)
Lemma entry_distances_count positions :
  2 <= len positions ->
  2 * len (entry_distances positions) + 2 = len positions * (len positions - 1).
Proof.
  intros Hk; unfold entry_distances.
  apply range_sum_length; [exact Hk|].
  intros i Hi; unfold len at 1; rewrite length_map; fold (len (slice positions 0 i)).
  rewrite len_slice; lia.
Qed.

Lemma entry_distances_In positions d :
  In d (entry_distances positions) ->
  exists i j, 2 <= i < len positions /\
              In j (firstn (Z.to_nat i) positions) /\
              d = nth (Z.to_nat i) positions 0 - j.
Proof.
  unfold entry_distances; rewrite in_flat_map.
  intros [i [Hi Hd]]; apply in_range in Hi.
  apply in_map_iff in Hd; destruct Hd as [j [<- Hj]].
  rewrite slice_prefix in Hj by lia.
  exists i, j; repeat split; lia || assumption.
Qed.

Lemma calc_distances_repeats cypher verbosity d :
  In d (calc_distances (find_multiples cypher verbosity) verbosity) ->
  exists ngram p q,
    3 <= len ngram <= 16 /\
    occurs_at cypher ngram p /\ occurs_at cypher ngram q /\
    p < q /\ d = q - p.
Proof.
  intros Hd.
  rewrite calc_distances_entries, in_flat_map in Hd.
  destruct Hd as [[ngram positions] [Hin Hd]]; cbn [snd] in Hd.
  apply find_multiples_In in Hin; destruct Hin as [Hlen [-> Hk]].
  apply entry_distances_In in Hd; destruct Hd as [i [j [Hi [Hj ->]]]].
  assert (Z.to_nat i < List.length (occurrences cypher ngram))%nat as Hi'
    by (unfold len in Hi; lia).
  exists ngram, j, (nth (Z.to_nat i) (occurrences cypher ngram) 0).
  split; [exact Hlen|]; split; [|split; [|split; [|reflexivity]]].
  - apply occurrences_occurs_at.
    rewrite <- (firstn_skipn (Z.to_nat i) (occurrences cypher ngram)).
    apply in_or_app; left; exact Hj.
  - apply occurrences_occurs_at, nth_In, Hi'.
  - apply sorted_firstn_nth;
      [apply occurrences_sorted | exact Hi' | exact Hj].
Qed.

Lemma calc_distances_bounds cypher verbosity d :
  In d (calc_distances (find_multiples cypher verbosity) verbosity) ->
  1 <= d <= len cypher - 3.
Proof.
  intros Hd; destruct (calc_distances_repeats _ _ _ Hd)
    as [ngram [p [q [Hlen [[Hp0 [Hp1 _]] [[Hq0 [Hq1 _]] [Hpq ->]]]]]]].
  lia.
Qed.

(** X9: every distance that [calc_distances] computes from the mapping of
    [find_multiples] is the distance between two starts of one repeated
    substring of 3 to 16 characters, the later start minus the earlier one;
    so it is at least 1 and at most the length of the text less 3. *)
Theorem calc_distances_between_repeats (cypher : str) (verbosity : Z) (d : Z) :
  In d (calc_distances (find_multiples cypher verbosity) verbosity) ->
  (exists ngram p q,
      3 <= len ngram <= 16 /\
      occurs_at cypher ngram p /\ occurs_at cypher ngram q /\
      p < q /\ d = q - p) /\
  1 <= d <= len cypher - 3.
Proof.
  intros Hd; split; [apply (calc_distances_repeats _ _ _ Hd)|].
  apply (calc_distances_bounds _ _ _ Hd).
Qed.

Lemma firstn_In_nth (l : list Z) (i : nat) (x : Z) :
  (i <= List.length l)%nat ->
  In x (firstn i l) <-> exists j, (j < i)%nat /\ x = nth j l 0.
Proof.
  intros Hi; split.
  - intros H; destruct (In_nth _ _ 0 H) as [j [Hj E]].
    rewrite length_firstn in Hj.
    exists j; split; [lia|].
    rewrite nth_firstn in E.
    destruct (Nat.ltb_spec j i); [symmetry; exact E | lia].
  - intros [j [Hj ->]].
    assert (nth j l 0 = nth j (firstn i l) 0) as ->.
    { rewrite nth_firstn; destruct (Nat.ltb_spec j i); [reflexivity | lia]. }
    apply nth_In; rewrite length_firstn; lia.
Qed.

(** X16: on every mapping [calc_distances] concatenates what it computes
    for each entry; for an entry it emits [positions[i] - positions[j]] for
    the indices [2 <= i] and [j < i], so [k*(k-1)/2 - 1] distances for
    [k >= 2] positions and none for two positions or fewer: the pair of the
    first two positions is never taken. *)
Theorem calc_distances_pairs (multiples : dict str (list Z)) (verbosity : Z)
        (ngram : str) (positions : list Z) (d : Z) :
  calc_distances multiples verbosity
  = flat_map (fun entry => calc_distances [entry] verbosity) multiples /\
  (In d (calc_distances [(ngram, positions)] verbosity) <->
   exists i j, 2 <= i < len positions /\ 0 <= j < i /\
               d = nth (Z.to_nat i) positions 0 - nth (Z.to_nat j) positions 0) /\
  (2 <= len positions ->
   2 * len (calc_distances [(ngram, positions)] verbosity) + 2
   = len positions * (len positions - 1)) /\
  (len positions <= 2 -> calc_distances [(ngram, positions)] verbosity = []).
Proof.
  assert (forall entry : str * list Z,
             calc_distances [entry] verbosity = entry_distances (snd entry)) as E1.
  { intros entry; rewrite calc_distances_entries; cbn [flat_map].
    apply app_nil_r. }
  split; [|split; [|split]].
  - rewrite calc_distances_entries; apply flat_map_ext; intros entry.
    symmetry; apply E1.
  - rewrite E1; cbn [snd]; unfold entry_distances; rewrite in_flat_map.
    split.
    + intros [i [Hi Hd]]; apply in_range in Hi.
      apply in_map_iff in Hd; destruct Hd as [x [<- Hx]].
      rewrite slice_prefix in Hx by lia.
      apply firstn_In_nth in Hx; [|unfold len in Hi; lia].
      destruct Hx as [j [Hj ->]].
      exists i, (Z.of_nat j); split; [exact Hi|]; split; [lia|].
      rewrite Nat2Z.id; reflexivity.
    + intros [i [j [Hi [Hj ->]]]].
      exists i; split; [apply in_range; exact Hi|].
      apply in_map_iff; exists (nth (Z.to_nat j) positions 0).
      split; [reflexivity|].
      rewrite slice_prefix by lia.
      apply firstn_In_nth; [unfold len in Hi; lia|].
      exists (Z.to_nat j); split; [lia | reflexivity].
  - intros Hk; rewrite E1; apply entry_distances_count, Hk.
  - intros Hk; rewrite E1; cbn [snd]; unfold entry_distances.
    rewrite range_empty by exact Hk; reflexivity.
Qed.

(** C2, at the entry of an ngram found at the positions 0 and 3 (the one
    [find_multiples] returns for ["ABCABC"]): the outer loop starts at index
    2, past the end, and no distance is emitted, where [k*(k-1)/2] is 1 and
    the pairwise difference is 3. *)
Theorem calc_distances_two_positions :
  find_multiples (lit "ABCABC") 0 = [(lit "ABC", [0; 3])] /\
  calc_distances [(lit "ABC", [0; 3])] 0 = [] /\
  len [0; 3] * (len [0; 3] - 1) / 2 = 1.
Proof. vm_compute; repeat split. Qed.


(** ** [prime_factors] *)

Lemma product_app l1 l2 : product (l1 ++ l2) = product l1 * product l2.
Proof.
  unfold product; induction l1 as [|x l1 IH]; cbn [app fold_right]; [lia|].
  rewrite IH; lia.
Qed.

Lemma product_ge_1 l : Forall (fun x => 2 <= x) l -> 1 <= product l.
Proof.
  unfold product; induction 1 as [|x l Hx _ IH]; cbn [fold_right]; [lia | nia].
Qed.

Lemma product_ge_2 l : Forall (fun x => 2 <= x) l -> l <> [] -> 2 <= product l.
Proof.
  intros H Hne; destruct H as [|x l Hx Hl]; [congruence|].
  pose proof (product_ge_1 l Hl); unfold product in *; cbn [fold_right]; nia.
Qed.

Lemma product_Permutation l1 l2 : Permutation l1 l2 -> product l1 = product l2.
Proof.
  unfold product; induction 1; cbn [fold_right]; lia.
Qed.

Lemma divide_out_spec fuel n d factors n' factors' :
  1 <= n -> 2 <= d ->
  divide_out fuel n d factors = Some (n', factors') ->
  exists ds, factors' = factors ++ ds /\ Forall (fun x => 2 <= x) ds /\
             product ds * n' = n /\ 1 <= n' <= n.
Proof.
  revert n factors; induction fuel as [|fuel IH]; intros n factors Hn Hd H;
    cbn [divide_out] in H; [discriminate|].
  destruct (Z.eqb_spec (n mod d) 0) as [E|E].
  - assert (n = d * (n / d)) as Hq by (rewrite (Z.div_mod n d) at 1; lia).
    assert (1 <= n / d <= n) as Hq' by nia.
    destruct (IH _ _ (proj1 Hq') Hd H) as [ds [-> [Hds [Hp Hb]]]].
    exists (d :: ds); rewrite <- app_assoc; split; [reflexivity|].
    split; [constructor; assumption|].
    unfold product in *; cbn [fold_right]; split; nia.
  - injection H as <- <-.
    exists []; rewrite app_nil_r.
    split; [reflexivity|].
    split; [apply Forall_nil|].
    unfold product; cbn [fold_right]; lia.
Qed.

Lemma divide_out_terminates fuel n d factors :
  1 <= n -> 2 <= d -> n < Z.of_nat fuel ->
  exists state, divide_out fuel n d factors = Some state.
Proof.
  revert n factors; induction fuel as [|fuel IH]; intros n factors Hn Hd Hf;
    [lia|].
  cbn [divide_out].
  destruct (Z.eqb_spec (n mod d) 0) as [E|E]; [|eauto].
  assert (n = d * (n / d)) as Hq by (rewrite (Z.div_mod n d) at 1; lia).
  apply IH; nia.
Qed.

Lemma prime_factors_loop_spec fuel n d factors fs :
  1 <= n -> 2 <= d ->
  prime_factors_loop fuel n d factors = Some fs ->
  exists ds, fs = factors ++ ds /\ Forall (fun x => 2 <= x) ds /\ product ds = n.
Proof.
  revert n d factors; induction fuel as [|fuel IH]; intros n d factors Hn Hd H;
    cbn [prime_factors_loop] in H; [discriminate|].
  destruct (Z.ltb_spec 1 n) as [H1|H1].
  2:{ injection H as <-; exists []; rewrite app_nil_r.
      split; [reflexivity|]; split; [apply Forall_nil|].
      unfold product; cbn [fold_right]; lia. }
  destruct (divide_out (S (Z.to_nat n)) n d factors) as [[n' factors']|] eqn:E;
    [|discriminate].
  destruct (divide_out_spec _ _ _ _ _ _ Hn Hd E) as [ds [-> [Hds [Hp Hb]]]].
  destruct (Z.ltb_spec n' ((d + 1) * (d + 1))) as [Hlt|Hge].
  - injection H as <-.
    destruct (Z.ltb_spec 1 n') as [Hn'|Hn'].
    + exists (ds ++ [n']); rewrite app_assoc; split; [reflexivity|].
      split; [apply Forall_app; split; [exact Hds | repeat constructor; lia]|].
      rewrite product_app; unfold product at 2; cbn [fold_right]; lia.
    + exists ds; split; [reflexivity|]; split; [exact Hds | nia].
  - destruct (IH n' (d + 1) (factors ++ ds)) as [ds' [-> [Hds' Hp']]];
      [lia | lia | exact H |].
    exists (ds ++ ds'); rewrite app_assoc; split; [reflexivity|].
    split; [apply Forall_app; split; assumption|].
    rewrite product_app; nia.
Qed.

Lemma prime_factors_loop_terminates fuel n d factors :
  2 <= d -> (1 <= fuel)%nat -> n - d < Z.of_nat fuel ->
  exists fs, prime_factors_loop fuel n d factors = Some fs.
Proof.
  revert n d factors; induction fuel as [|fuel IH]; intros n d factors Hd H1 Hf;
    [lia|].
  cbn [prime_factors_loop].
  destruct (Z.ltb_spec 1 n) as [Hn|Hn]; [|eauto].
  destruct (divide_out_terminates (S (Z.to_nat n)) n d factors)
    as [[n' factors'] E]; [lia | lia | lia |].
  rewrite E.
  assert (1 <= n) as Hn1 by lia.
  destruct (divide_out_spec _ _ _ _ _ _ Hn1 Hd E) as [ds [_ [_ [_ Hb]]]].
  destruct (Z.ltb_spec n' ((d + 1) * (d + 1))) as [Hlt|Hge]; [eauto|].
  apply IH; nia.
Qed.

(** The fuel of [prime_factors] is enough: the loop returns. *)
Lemma prime_factors_returns n :
  exists fs, prime_factors_loop (S (Z.to_nat n)) n 2 [] = Some fs /\
             prime_factors n = fs.
Proof.
  destruct (prime_factors_loop_terminates (S (Z.to_nat n)) n 2 [])
    as [fs E]; [lia | lia | lia |].
  exists fs; split; [exact E|].
  unfold prime_factors; rewrite E; reflexivity.
Qed.

Lemma prime_factors_spec n :
  1 <= n ->
  product (prime_factors n) = n /\ Forall (fun x => 2 <= x) (prime_factors n).
Proof.
  intros Hn; destruct (prime_factors_returns n) as [fs [E ->]].
  assert (2 <= 2) as H2 by lia.
  destruct (prime_factors_loop_spec _ _ _ _ _ Hn H2 E) as [ds [-> [Hds Hp]]].
  split; assumption.
Qed.


Lemma prime_factors_below_2 n : n <= 1 -> prime_factors n = [].
Proof.
  intros H; unfold prime_factors; cbn [prime_factors_loop].
  destruct (Z.ltb_spec 1 n); [lia | reflexivity].
Qed.

(** *** The factors are prime and ascending *)

Lemma divide_out_full fuel n d factors n' factors' :
  1 <= n -> 2 <= d ->
  divide_out fuel n d factors = Some (n', factors') ->
  exists ds, factors' = factors ++ ds /\ Forall (fun x => x = d) ds /\
             product ds * n' = n /\ 1 <= n' /\ n' mod d <> 0 /\
             (ds <> [] -> (d | n)).
Proof.
  revert n factors; induction fuel as [|fuel IH]; intros n factors Hn Hd H;
    cbn [divide_out] in H; [discriminate|].
  destruct (Z.eqb_spec (n mod d) 0) as [E|E].
  - assert (n = d * (n / d)) as Hq by (rewrite (Z.div_mod n d) at 1; lia).
    assert (1 <= n / d) as Hq' by nia.
    destruct (IH _ _ Hq' Hd H) as [ds [-> [Hds [Hp [Hb [Hm _]]]]]].
    exists (d :: ds); rewrite <- app_assoc; split; [reflexivity|].
    split; [constructor; [reflexivity | exact Hds]|].
    unfold product in *; cbn [fold_right].
    split; [nia|]; split; [exact Hb|]; split; [exact Hm|].
    intros _; exists (n / d); lia.
  - apply (f_equal (fun r => match r with Some x => x | None => (n, factors) end))
      in H.
    inversion H; subst n' factors'.
    exists []; rewrite app_nil_r.
    split; [reflexivity|]; split; [constructor|].
    unfold product; cbn [fold_right].
    split; [lia|]; split; [exact Hn|]; split; [exact E|].
    intros Hne; congruence.
Qed.

Lemma sorted_app_repeat d ds ds' :
  Forall (fun x => x = d) ds -> Forall (fun x => d <= x) ds' ->
  StronglySorted Z.le ds' -> StronglySorted Z.le (ds ++ ds').
Proof.
  intros Hds Hge Hs; induction ds as [|x ds IH]; [exact Hs|].
  inversion Hds as [|? ? Hx Hds']; subst.
  cbn [app]; constructor; [apply IH, Hds'|].
  apply Forall_app; split; [|exact Hge].
  revert Hds'; apply Forall_impl; intros y Hy; lia.
Qed.

Lemma prime_factors_loop_primes fuel n d factors fs :
  1 <= n -> 2 <= d ->
  (forall q, 2 <= q < d -> ~ (q | n)) ->
  prime_factors_loop fuel n d factors = Some fs ->
  exists ds, fs = factors ++ ds /\ Forall prime ds /\
             StronglySorted Z.le ds /\ Forall (fun x => d <= x) ds.
Proof.
  revert n d factors fs; induction fuel as [|fuel IH];
    intros n d factors fs Hn Hd Hno H;
    cbn [prime_factors_loop] in H; [discriminate|].
  destruct (Z.ltb_spec 1 n) as [H1|H1].
  2:{ apply (f_equal (fun r => match r with Some x => x | None => fs end)) in H.
      subst fs; exists []; rewrite app_nil_r.
      split; [reflexivity|]; repeat split; constructor. }
  destruct (divide_out (S (Z.to_nat n)) n d factors) as [[n' factors']|] eqn:E;
    [|discriminate].
  destruct (divide_out_full _ _ _ _ _ _ Hn Hd E)
    as [ds [-> [Hds [Hp [Hn' [Hmod Hdiv]]]]]].
  assert (Forall prime ds) as Hprime.
  { destruct ds as [|x ds0]; [constructor|].
    assert (prime d) as Hpd.
    { apply prime_alt; split; [lia|].
      intros q Hq Hqd; apply (Hno q); [lia|].
      apply Z.divide_trans with d; [exact Hqd | apply Hdiv; discriminate]. }
    revert Hds; apply Forall_impl; intros y ->; exact Hpd. }
  assert (forall q, 2 <= q < d + 1 -> ~ (q | n')) as Hno'.
  { intros q Hq Hqn.
    destruct (Z.eq_dec q d) as [->|Hne].
    - apply Hmod, Z.mod_divide; [lia | exact Hqn].
    - apply (Hno q); [lia|].
      rewrite <- Hp; apply Z.divide_mul_r; exact Hqn. }
  assert (Forall (fun x => d <= x) ds) as Hge
    by (revert Hds; apply Forall_impl; intros y ->; lia).
  destruct (Z.ltb_spec n' ((d + 1) * (d + 1))) as [Hlt|Hsq].
  - apply (f_equal (fun r => match r with Some x => x | None => fs end)) in H.
    subst fs.
    destruct (Z.ltb_spec 1 n') as [Hgt|Hle].
    + assert (d + 1 <= n') as Hdn.
      { destruct (Z.lt_ge_cases n' (d + 1)) as [Hc|Hc]; [|lia].
        exfalso; apply (Hno' n'); [lia | apply Z.divide_refl]. }
      assert (prime n') as Hpn.
      { apply prime_alt; split; [lia|].
        intros q Hq [r Hr].
        assert (2 <= r) as Hr2 by nia.
        assert (d + 1 <= q) as Hq1.
        { destruct (Z.lt_ge_cases q (d + 1)) as [Hc|Hc]; [|lia].
          exfalso; apply (Hno' q); [lia | exists r; exact Hr]. }
        assert (d + 1 <= r) as Hr1.
        { destruct (Z.lt_ge_cases r (d + 1)) as [Hc|Hc]; [|lia].
          exfalso; apply (Hno' r); [lia | exists q; lia]. }
        nia. }
      exists (ds ++ [n']); rewrite app_assoc; split; [reflexivity|].
      split; [apply Forall_app; split;
              [exact Hprime | constructor; [exact Hpn | constructor]]|].
      split.
      * apply (sorted_app_repeat d);
          [exact Hds | constructor; [lia | constructor] |].
        constructor; constructor.
      * apply Forall_app; split; [exact Hge | constructor; [lia | constructor]].
    + exists ds; split; [reflexivity|]; split; [exact Hprime|].
      split; [|exact Hge].
      rewrite <- (app_nil_r ds); apply (sorted_app_repeat d);
        [exact Hds | constructor | constructor].
  - destruct (IH n' (d + 1) (factors ++ ds) fs) as [ds' [-> [Hpr' [Hs' Hge']]]];
      [lia | lia | exact Hno' | exact H |].
    exists (ds ++ ds'); rewrite app_assoc; split; [reflexivity|].
    split; [apply Forall_app; split; assumption|].
    split.
    + apply (sorted_app_repeat d); [exact Hds | | exact Hs'].
      revert Hge'; apply Forall_impl; intros y Hy; lia.
    + apply Forall_app; split; [exact Hge|].
      revert Hge'; apply Forall_impl; intros y Hy; lia.
Qed.

Lemma sorted_of_sorted l : StronglySorted Z.le l -> sorted l = l.
Proof.
  unfold sorted; induction 1 as [|x l Hs IH Hx]; [reflexivity|].
  cbn [fold_right]; rewrite IH.
  destruct Hx as [|y l' Hy _]; [reflexivity|].
  cbn [insert]; destruct (Z.leb_spec x y); [reflexivity | lia].
Qed.

(** X6: for [1 <= n] below 2^53 the loop of [prime_factors] ends, and the
    list it returns consists of primes in ascending order whose product is
    [n]; sorting it changes nothing. *)
Theorem prime_factors_correct (n : Z) :
  1 <= n < 2 ^ 53 ->
  prime_factors_loop (S (Z.to_nat n)) n 2 [] = Some (prime_factors n) /\
  product (prime_factors n) = n /\
  Forall prime (prime_factors n) /\
  StronglySorted Z.le (prime_factors n) /\
  sorted (prime_factors n) = prime_factors n.
Proof.
  intros [Hn _].
  destruct (prime_factors_returns n) as [fs [E Efs]].
  assert (2 <= 2) as H2 by lia.
  destruct (prime_factors_loop_primes _ _ _ _ _ Hn H2 ltac:(intros; lia) E)
    as [ds [Eds [Hprime [Hsorted _]]]].
  cbn [app] in Eds; subst ds.
  rewrite Efs; split; [exact E|].
  split; [rewrite <- Efs; apply prime_factors_spec; exact Hn|].
  split; [exact Hprime|]; split; [exact Hsorted|].
  apply sorted_of_sorted, Hsorted.
Qed.

(** X7: [prime_factors] returns the empty list for [n <= 1] and for no
    other [n]. *)
Theorem prime_factors_nil_iff (n : Z) : prime_factors n = [] <-> n <= 1.
Proof.
  split.
  - intros E; destruct (Z.le_gt_cases n 1) as [H|H]; [exact H|].
    assert (1 <= n) as Hn by lia.
    destruct (prime_factors_spec n Hn) as [Hp _].
    rewrite E in Hp; unfold product in Hp; cbn [fold_right] in Hp; lia.
  - intros H; unfold prime_factors; cbn [prime_factors_loop].
    destruct (Z.ltb_spec 1 n); [lia | reflexivity].
Qed.

(** ** Sorting and arrangements *)

Lemma insert_Permutation x l : Permutation (insert x l) (x :: l).
Proof.
  induction l as [|y l IH]; cbn [insert]; [reflexivity|].
  destruct (x <=? y); [reflexivity|].
  rewrite IH; apply perm_swap.
Qed.

Lemma sorted_Permutation l : Permutation (sorted l) l.
Proof.
  unfold sorted; induction l as [|x l IH]; cbn [fold_right]; [reflexivity|].
  rewrite insert_Permutation, IH; reflexivity.
Qed.

Lemma picks_Permutation {A} (l : list A) x rest :
  In (x, rest) (picks l) -> Permutation (x :: rest) l.
Proof.
  revert x rest; induction l as [|y l IH]; intros x rest H; cbn [picks] in H;
    [destruct H|].
  destruct H as [[= <- <-]|H]; [reflexivity|].
  apply in_map_iff in H; destruct H as [[z rest'] [[= <- <-] H]].
  rewrite perm_swap; apply perm_skip, IH, H.
Qed.

Lemma permutations_spec {A} (l : list A) (r : nat) (c : list A) :
  In c (permutations l r) ->
  exists rest, Permutation (c ++ rest) l /\ List.length c = r.
Proof.
  revert l c; induction r as [|r IH]; intros l c H; cbn [permutations] in H.
  - destruct H as [<-|[]]; exists l; split; reflexivity.
  - apply in_flat_map in H; destruct H as [[x rest] [Hp H]].
    apply in_map_iff in H; destruct H as [c' [<- H]].
    destruct (IH _ _ H) as [rest' [Hperm Hlen]].
    exists rest'; split; [|cbn [List.length]; congruence].
    cbn [app]; rewrite Hperm; apply picks_Permutation, Hp.
Qed.

Lemma fold_left_mul l x : fold_left Z.mul l x = x * product l.
Proof.
  unfold product; revert x; induction l as [|y l IH]; intros x;
    cbn [fold_left fold_right]; [lia|].
  rewrite IH; lia.
Qed.

Lemma reduce_mul_product c : reduce_mul c = product c.
Proof.
  destruct c as [|x c]; [reflexivity|].
  unfold reduce_mul; rewrite fold_left_mul; reflexivity.
Qed.

(** A part of the factors of [n] that leaves a rest has a product strictly
    between 1 and [n]. *)
Lemma subproduct_bounds (n : Z) (c rest : list Z) :
  1 <= n -> c <> [] -> rest <> [] ->
  Permutation (c ++ rest) (prime_factors n) ->
  1 < product c < n /\ (product c | n).
Proof.
  intros Hn Hc Hr Hperm.
  destruct (prime_factors_spec n Hn) as [Hp Hall].
  rewrite <- (product_Permutation _ _ Hperm), product_app in Hp.
  assert (Forall (fun x => 2 <= x) (c ++ rest)) as Hall'
    by (revert Hall; apply Permutation_Forall; symmetry; exact Hperm).
  apply Forall_app in Hall'; destruct Hall' as [Hca Hra].
  pose proof (product_ge_2 c Hca Hc).
  pose proof (product_ge_2 rest Hra Hr).
  split; [nia|].
  exists (product rest); lia.
Qed.

(** ** Dictionaries keyed by ints *)

Lemma dict_get_In {V} k (d : dict Z V) v :
  dict_get Z.eqb k d = Some v -> In (k, v) d.
Proof.
  induction d as [|[k' v'] d IH]; cbn [dict_get]; [discriminate|].
  destruct (Z.eqb_spec k' k) as [->|_].
  - intros [= ->]; left; reflexivity.
  - intros H; right; apply IH, H.
Qed.

Lemma dict_get_set {V} k (v : V) (d : dict Z V) :
  dict_get Z.eqb k (dict_set Z.eqb k v d) = Some v.
Proof.
  induction d as [|[k' v'] d IH]; cbn [dict_set dict_get].
  - rewrite Z.eqb_refl; reflexivity.
  - destruct (Z.eqb_spec k' k) as [->|Hne]; cbn [dict_get].
    + rewrite Z.eqb_refl; reflexivity.
    + destruct (Z.eqb_spec k' k); [contradiction | exact IH].
Qed.

Lemma dict_keys_set {V} k (v : V) (d : dict Z V) k' :
  In k' (dict_keys (dict_set Z.eqb k v d)) -> In k' (dict_keys d) \/ k' = k.
Proof.
  unfold dict_keys; induction d as [|[k0 v0] d IH]; cbn [dict_set map fst In].
  - intros [<-|[]]; right; reflexivity.
  - destruct (Z.eqb_spec k0 k); cbn [map fst In]; [tauto|].
    intros [H|H]; [tauto | destruct (IH H); tauto].
Qed.

Lemma dict_keys_update {V} k (f : V -> V) (d : dict Z V) :
  dict_keys (dict_update Z.eqb k f d) = dict_keys d.
Proof.
  unfold dict_keys; induction d as [|[k0 v0] d IH]; cbn [dict_update map fst];
    [reflexivity|].
  destruct (Z.eqb_spec k0 k); cbn [map fst]; congruence.
Qed.

(** ** [find_common_divisors] *)

(** The cache does not change what is appended. *)
Lemma factor_distances_eq distances :
  factor_distances distances
  = map (fun distance => sorted (prime_factors distance)) distances.
Proof.
  unfold factor_distances.
  set (step := fun '(factor_cache, divisors) distance => _).
  assert (forall ds cache divisors,
             Forall (fun e => snd e = sorted (prime_factors (fst e))) cache ->
             snd (fold_left step ds (cache, divisors))
             = divisors ++ map (fun d => sorted (prime_factors d)) ds) as H.
  { induction ds as [|d ds IH]; intros cache divisors Hc; cbn [fold_left map].
    - rewrite app_nil_r; reflexivity.
    - unfold step at 2; unfold dict_mem.
      destruct (dict_get Z.eqb d cache) as [fs|] eqn:E; cbn [negb].
      + rewrite E, IH by exact Hc.
        apply dict_get_In in E; rewrite Forall_forall in Hc.
        pose proof (Hc _ E) as Hfs; cbn [fst snd] in Hfs.
        rewrite Hfs, <- app_assoc; reflexivity.
      + rewrite dict_get_set, IH, <- app_assoc; [reflexivity|].
        apply dict_set_Forall; [reflexivity | | exact Hc].
        intros k' v' _ Ek; apply Z.eqb_eq in Ek; subst k'; reflexivity. }
  apply (H distances [] []); constructor.
Qed.

Lemma count_divisor_keys old div_freqs c p :
  In p (dict_keys (snd (count_divisor (old, div_freqs) c))) ->
  In p (dict_keys div_freqs) \/ p = reduce_mul c.
Proof.
  unfold count_divisor.
  destruct (existsb _ old); cbn [snd]; [tauto|].
  rewrite dict_keys_update.
  destruct (negb _); [|tauto].
  apply dict_keys_set.
Qed.

(** A pass over the factors [divs] of one distance adds to the table only
    products of arrangements of [1 <= r < len(divs)] factors. *)
Lemma count_divisors_of_keys div_freqs divs p :
  In p (dict_keys (count_divisors_of div_freqs divs)) ->
  In p (dict_keys div_freqs) \/
  exists r c, 1 <= r < len divs /\ In c (permutations divs (Z.to_nat r)) /\
              p = reduce_mul c.
Proof.
  unfold count_divisors_of.
  set (added := fun q => exists r c, 1 <= r < len divs /\
                          In c (permutations divs (Z.to_nat r)) /\ q = reduce_mul c).
  revert p.
  apply (fold_left_invariant
           (fun state => forall p, In p (dict_keys (snd state)) ->
                                   In p (dict_keys div_freqs) \/ added p)
           (fun r => 1 <= r < len divs)).
  - intros state r Hr Hs.
    apply (fold_left_invariant
             (fun state => forall p, In p (dict_keys (snd state)) ->
                                     In p (dict_keys div_freqs) \/ added p)
             (fun c => In c (permutations divs (Z.to_nat r)))).
    + intros [old df] c Hc Hdf p Hp.
      destruct (count_divisor_keys _ _ _ _ Hp) as [H|H]; [apply Hdf, H|].
      right; exists r, c; auto.
    + apply Forall_forall; auto.
    + exact Hs.
  - apply Forall_forall; intros r Hr; apply in_range in Hr; exact Hr.
  - cbn [snd]; auto.
Qed.

Lemma count_divisors_of_proper div_freqs distance p :
  1 < distance ->
  In p (dict_keys (count_divisors_of div_freqs (sorted (prime_factors distance)))) ->
  In p (dict_keys div_freqs) \/ proper_subproduct p distance.
Proof.
  intros Hd Hp.
  destruct (count_divisors_of_keys _ _ _ Hp) as [H|[r [c [Hr [Hc ->]]]]];
    [left; exact H | right].
  destruct (permutations_spec _ _ _ Hc) as [rest [Hperm Hlen]].
  rewrite sorted_Permutation in Hperm.
  assert (List.length (c ++ rest) = List.length (sorted (prime_factors distance)))
    as Hl by (rewrite (Permutation_length Hperm),
                      (Permutation_length (sorted_Permutation _)); reflexivity).
  rewrite length_app in Hl; unfold len in Hr.
  assert (c <> []) as Hcne by (intros ->; cbn in Hlen; lia).
  assert (rest <> []) as Hrne by (intros ->; cbn in Hl; lia).
  exists c, rest; repeat split; try assumption;
    rewrite reduce_mul_product;
    apply (subproduct_bounds distance c rest); assumption || lia.
Qed.


(** *** The counts of the table *)

Lemma prime_factors_primes n : Forall prime (prime_factors n).
Proof.
  destruct (Z.le_gt_cases n 1) as [Hn|Hn];
    [rewrite prime_factors_below_2 by exact Hn; constructor|].
  destruct (prime_factors_returns n) as [fs [E Efs]].
  assert (1 <= n) as H1 by lia.
  assert (2 <= 2) as H2 by lia.
  assert (forall q, 2 <= q < 2 -> ~ (q | n)) as Hq by (intros; lia).
  destruct (prime_factors_loop_primes _ _ _ _ _ H1 H2 Hq E) as [ds [Eds [Hprime _]]].
  cbn [app] in Eds; subst ds; rewrite Efs; exact Hprime.
Qed.

Lemma primes_ge_2 l : Forall prime l -> Forall (fun x => 2 <= x) l.
Proof.
  intros H; apply Forall_forall; intros x Hx.
  rewrite Forall_forall in H; apply Z.prime_ge_2, prime_alt, H, Hx.
Qed.

Lemma product_cons x l : product (x :: l) = x * product l.
Proof. reflexivity. Qed.

Lemma prime_divides_product p l :
  prime p -> (p | product l) -> exists q, In q l /\ (p | q).
Proof.
  intros Hp; induction l as [|x l IH]; intros Hd.
  - change (product []) with 1 in Hd.
    apply Z.divide_1_r in Hd.
    pose proof (Z.prime_ge_2 _ (proj2 (prime_alt p) Hp)); lia.
  - rewrite product_cons in Hd.
    apply (Z.divide_prime_mul _ _ _ (proj2 (prime_alt p) Hp)) in Hd.
    destruct Hd as [Hd|Hd].
    + exists x; split; [left; reflexivity | exact Hd].
    + destruct (IH Hd) as [q [Hq Hdiv]].
      exists q; split; [right; exact Hq | exact Hdiv].
Qed.

(** Two lists of primes with the same product hold the same primes. *)
Lemma prime_product_Permutation l1 l2 :
  Forall prime l1 -> Forall prime l2 -> product l1 = product l2 ->
  Permutation l1 l2.
Proof.
  intros H1; revert l2; induction H1 as [|p l1 Hp H1 IH]; intros l2 H2 E.
  - destruct l2 as [|q l2]; [constructor|].
    assert (q :: l2 <> []) as Hne by discriminate.
    pose proof (product_ge_2 _ (primes_ge_2 _ H2) Hne) as Hge.
    change (product []) with 1 in E; lia.
  - rewrite product_cons in E.
    assert (p | product l2) as Hd by (exists (product l1); lia).
    destruct (prime_divides_product _ _ Hp Hd) as [q [Hq Hdiv]].
    assert (prime q) as Hpq by (rewrite Forall_forall in H2; apply H2, Hq).
    apply (Z.divide_prime_prime _ _ (proj2 (prime_alt p) Hp)
                                (proj2 (prime_alt q) Hpq)) in Hdiv; subst q.
    destruct (in_split _ _ Hq) as [la [lb ->]].
    rewrite <- Permutation_middle; apply perm_skip, IH.
    + apply Forall_app in H2; destruct H2 as [Ha Hb].
      inversion Hb; subst; apply Forall_app; split; assumption.
    + rewrite product_app, product_cons in E; rewrite product_app.
      pose proof (Z.prime_ge_2 _ (proj2 (prime_alt p) Hp)).
      apply (Z.mul_reg_l _ _ p); lia.
Qed.

Lemma insert_In x y l : In y (insert x l) <-> y = x \/ In y l.
Proof.
  split; intros H.
  - apply (Permutation_in _ (insert_Permutation x l)) in H.
    destruct H as [<-|H]; [left; reflexivity | right; exact H].
  - apply (Permutation_in _ (Permutation_sym (insert_Permutation x l))).
    destruct H as [->|H]; [left; reflexivity | right; exact H].
Qed.

Lemma insert_sorted x l :
  StronglySorted Z.le l -> StronglySorted Z.le (insert x l).
Proof.
  induction 1 as [|y l Hs IH Hall]; cbn [insert];
    [constructor; constructor|].
  destruct (Z.leb_spec x y) as [Hle|Hgt].
  - constructor; [constructor; assumption|].
    constructor; [exact Hle|].
    rewrite Forall_forall in *; intros z Hz; specialize (Hall z Hz); lia.
  - constructor; [exact IH|].
    rewrite Forall_forall in *; intros z Hz.
    apply insert_In in Hz; destruct Hz as [->|Hz]; [lia | apply Hall, Hz].
Qed.

Lemma sorted_sorted l : StronglySorted Z.le (sorted l).
Proof.
  unfold sorted; induction l as [|x l IH]; cbn [fold_right];
    [constructor | apply insert_sorted, IH].
Qed.

Lemma sorted_unique l1 l2 :
  StronglySorted Z.le l1 -> StronglySorted Z.le l2 -> Permutation l1 l2 ->
  l1 = l2.
Proof.
  intros H1; revert l2; induction H1 as [|a l1 Hs1 IH Ha]; intros l2 H2 Hp.
  - apply Permutation_nil in Hp; symmetry; exact Hp.
  - destruct H2 as [|b l2 Hs2 Hb];
      [apply Permutation_sym, Permutation_nil in Hp; discriminate|].
    assert (a = b) as ->.
    { rewrite Forall_forall in Ha, Hb.
      assert (In a (b :: l2)) as Hin1
        by (apply (Permutation_in _ Hp); left; reflexivity).
      assert (In b (a :: l1)) as Hin2
        by (apply (Permutation_in _ (Permutation_sym Hp)); left; reflexivity).
      destruct Hin1 as [E|Hin1]; [symmetry; exact E|].
      destruct Hin2 as [E|Hin2]; [exact E|].
      specialize (Ha _ Hin2); specialize (Hb _ Hin1); lia. }
    f_equal; apply IH; [exact Hs2|].
    apply (Permutation_cons_inv Hp).
Qed.

Lemma sorted_Permutation_eq l1 l2 : Permutation l1 l2 -> sorted l1 = sorted l2.
Proof.
  intros Hp; apply sorted_unique; [apply sorted_sorted | apply sorted_sorted|].
  rewrite !sorted_Permutation; exact Hp.
Qed.

Lemma picks_complete {A} (l : list A) x :
  In x l -> exists rest, In (x, rest) (picks l).
Proof.
  induction l as [|y l IH]; intros H; [destruct H|]; cbn [picks].
  destruct H as [->|H]; [exists l; left; reflexivity|].
  destruct (IH H) as [rest Hr].
  exists (y :: rest); right.
  apply in_map_iff; exists (x, rest); split; [reflexivity | exact Hr].
Qed.

(** Every arrangement of a part of the list is enumerated. *)
Lemma permutations_complete {A} (c rest l : list A) :
  Permutation (c ++ rest) l -> In c (permutations l (List.length c)).
Proof.
  revert l; induction c as [|x c IH]; intros l Hp;
    cbn [List.length permutations]; [left; reflexivity|].
  assert (In x l) as Hx by (apply (Permutation_in _ Hp); left; reflexivity).
  destruct (picks_complete _ _ Hx) as [l' Hl'].
  apply in_flat_map; exists (x, l'); split; [exact Hl'|].
  apply in_map, IH.
  apply (Permutation_cons_inv (a := x)).
  rewrite (picks_Permutation _ _ _ Hl'); exact Hp.
Qed.

Lemma fold_left_flat_map {A B St} (g : St -> B -> St) (h : A -> list B)
      (xs : list A) (s : St) :
  fold_left (fun st x => fold_left g (h x) st) xs s
  = fold_left g (flat_map h xs) s.
Proof.
  revert s; induction xs as [|x xs IH]; intros s; cbn [fold_left flat_map];
    [reflexivity|].
  rewrite fold_left_app; apply IH.
Qed.

(** The innermost loop over a list of arrangements of primes: [old] holds
    the sorted arrangements met, and the count of a product goes up by one
    when the product is met, however often. *)
Lemma count_divisor_fold (div_freqs : dict Z Z) (cs : list (list Z)) :
  Forall (Forall prime) cs -> NoDup (dict_keys div_freqs) ->
  (forall t, In t (fst (fold_left count_divisor cs ([], div_freqs)))
             <-> exists c, In c cs /\ sorted c = t) /\
  NoDup (dict_keys (snd (fold_left count_divisor cs ([], div_freqs)))) /\
  (forall p,
      dict_get Z.eqb p (snd (fold_left count_divisor cs ([], div_freqs)))
      = if existsb (fun c => reduce_mul c =? p) cs
        then Some (match dict_get Z.eqb p div_freqs with
                   | Some n => n | None => 0 end + 1)
        else dict_get Z.eqb p div_freqs).
Proof.
  intros Hcs Hnd0; induction cs as [|c cs IH] using rev_ind.
  - cbn [fold_left fst snd existsb]; split; [|split; [exact Hnd0 | reflexivity]].
    intros t; split; [intros [] | intros [c [[] _]]].
  - apply Forall_app in Hcs; destruct Hcs as [Hcs Hc].
    inversion Hc as [|? ? Hcp _]; subst; clear Hc.
    destruct (IH Hcs) as [Hold [Hnd Hget]]; clear IH.
    rewrite fold_left_app; cbn [fold_left].
    destruct (fold_left count_divisor cs ([], div_freqs)) as [old df].
    cbn [fst snd] in Hold, Hnd, Hget.
    unfold count_divisor.
    destruct (existsb (list_eqb (sorted c)) old) eqn:Eold.
    + apply existsb_exists in Eold; destruct Eold as [t [Ht Et]].
      apply list_eqb_eq in Et; subst t.
      pose proof (proj1 (Hold _) Ht) as [c' [Hc' Ec']].
      cbn [fst snd]; split; [|split; [exact Hnd|]].
      * intros t; split.
        -- intros H; apply Hold in H; destruct H as [c0 [H0 E0]].
           exists c0; split; [apply in_or_app; left; exact H0 | exact E0].
        -- intros [c0 [H0 E0]]; apply in_app_or in H0.
           destruct H0 as [H0|[<-|[]]];
             [apply Hold; exists c0; split; assumption | subst t; exact Ht].
      * intros p; rewrite Hget, existsb_app; cbn [existsb]; rewrite orb_false_r.
        destruct (Z.eqb_spec (reduce_mul c) p) as [Ep|_];
          [|rewrite orb_false_r; reflexivity].
        assert (existsb (fun c0 => reduce_mul c0 =? p) cs = true) as ->;
          [|reflexivity].
        apply existsb_exists; exists c'; split; [exact Hc'|].
        apply Z.eqb_eq; rewrite <- Ep, !reduce_mul_product.
        apply product_Permutation.
        rewrite <- (sorted_Permutation c'), Ec'; apply sorted_Permutation.
    + assert (existsb (fun c0 => reduce_mul c0 =? reduce_mul c) cs = false)
        as Hfresh.
      { destruct (existsb _ cs) eqn:E; [|reflexivity].
        apply existsb_exists in E; destruct E as [c' [Hc' E]].
        apply Z.eqb_eq in E; rewrite !reduce_mul_product in E.
        assert (Forall prime c') as Hcp'
          by (rewrite Forall_forall in Hcs; apply Hcs, Hc').
        pose proof (prime_product_Permutation _ _ Hcp' Hcp E) as Hp.
        apply sorted_Permutation_eq in Hp.
        assert (In (sorted c) old) as Hin
          by (apply Hold; exists c'; split; assumption).
        assert (existsb (list_eqb (sorted c)) old = true) as Ht
          by (apply existsb_exists; exists (sorted c); split;
              [exact Hin | apply list_eqb_eq; reflexivity]).
        rewrite Ht in Eold; discriminate Eold. }
      cbn [fst snd]; split; [|split].
      * intros t; split.
        -- intros [<-|H];
             [exists c; split; [apply in_or_app; right; left|]; reflexivity|].
           apply Hold in H; destruct H as [c0 [H0 E0]].
           exists c0; split; [apply in_or_app; left; exact H0 | exact E0].
        -- intros [c0 [H0 E0]]; apply in_app_or in H0.
           destruct H0 as [H0|[<-|[]]]; [|left; exact E0].
           right; apply Hold; exists c0; split; assumption.
      * rewrite (keys_update Z.eqb); unfold dict_mem.
        destruct (dict_get Z.eqb (reduce_mul c) df) eqn:E; cbn [negb];
          [exact Hnd|].
        rewrite (keys_set_fresh Z.eqb) by exact E.
        apply NoDup_app; [exact Hnd | constructor; [intros [] | constructor] |].
        intros k Hk [<-|[]].
        exact (get_None Z.eqb Z.eqb_eq _ _ E Hk).
      * intros p; rewrite existsb_app; cbn [existsb]; rewrite orb_false_r.
        pose proof (Hget (reduce_mul c)) as Hprod; rewrite Hfresh in Hprod.
        destruct (Z.eqb_spec (reduce_mul c) p) as [Ep|Ep].
        -- subst p; rewrite orb_true_r, (get_update_same Z.eqb).
           unfold dict_mem; rewrite Hprod.
           destruct (dict_get Z.eqb (reduce_mul c) div_freqs) as [n|] eqn:E0;
             cbn [negb].
           ++ rewrite Hprod; reflexivity.
           ++ rewrite (get_set_same Z.eqb Z.eqb_eq); reflexivity.
        -- rewrite orb_false_r, (get_update_other Z.eqb Z.eqb_eq) by congruence.
           rewrite <- Hget.
           destruct (negb _); [|reflexivity].
           apply (get_set_other Z.eqb Z.eqb_eq); congruence.
Qed.

(** The products of the arrangements that the pass over the factors of a
    distance enumerates are the proper divisors of the distance. *)
Lemma arrangement_products d p :
  existsb (fun c => reduce_mul c =? p)
          (flat_map (fun r => permutations (sorted (prime_factors d)) (Z.to_nat r))
                    (range 1 (len (sorted (prime_factors d)))))
  = proper_divisor p d.
Proof.
  set (fs := sorted (prime_factors d)).
  assert (Permutation fs (prime_factors d)) as Hfs by apply sorted_Permutation.
  apply eq_true_iff_eq; rewrite existsb_exists; unfold proper_divisor.
  rewrite !andb_true_iff, !Z.ltb_lt, Z.eqb_eq.
  split.
  - intros [c [Hc Ep]]; apply Z.eqb_eq in Ep; subst p.
    apply in_flat_map in Hc; destruct Hc as [r [Hr Hc]]; apply in_range in Hr.
    destruct (permutations_spec _ _ _ Hc) as [rest [Hperm Hlen]].
    assert (List.length (c ++ rest) = List.length fs) as Hl
      by (apply Permutation_length, Hperm).
    rewrite length_app in Hl; unfold len in Hr.
    assert (c <> []) as Hcne by (intros ->; cbn in Hlen; lia).
    assert (rest <> []) as Hrne by (intros ->; cbn in Hl; lia).
    assert (1 <= d) as Hd.
    { destruct (Z.le_gt_cases d 1) as [H1|H1]; [|lia].
      unfold fs in Hr; rewrite prime_factors_below_2 in Hr by exact H1.
      cbn in Hr; lia. }
    rewrite Hfs in Hperm.
    destruct (subproduct_bounds d c rest Hd Hcne Hrne Hperm) as [Hb Hdiv].
    rewrite reduce_mul_product.
    split; [split; lia|].
    apply Z.mod_divide; [lia | exact Hdiv].
  - intros [[H1 Hlt] Hmod].
    apply Z.mod_divide in Hmod; [|lia].
    destruct Hmod as [q Eq].
    assert (2 <= q) as Hq by nia.
    assert (1 <= p) as Hp1 by lia.
    assert (1 <= q) as Hq1 by lia.
    destruct (prime_factors_spec p Hp1) as [Epp _].
    destruct (prime_factors_spec q Hq1) as [Epq _].
    assert (1 <= d) as Hd by lia.
    destruct (prime_factors_spec d Hd) as [Epd _].
    assert (Permutation (prime_factors p ++ prime_factors q) fs) as Hperm.
    { rewrite Hfs; apply prime_product_Permutation.
      - apply Forall_app; split; apply prime_factors_primes.
      - apply prime_factors_primes.
      - rewrite product_app, Epp, Epq, Epd; lia. }
    assert (prime_factors p <> []) as Hcne
      by (intros E; rewrite E in Epp; change (product []) with 1 in Epp; lia).
    assert (prime_factors q <> []) as Hrne
      by (intros E; rewrite E in Epq; change (product []) with 1 in Epq; lia).
    assert (List.length (prime_factors p ++ prime_factors q) = List.length fs)
      as Hl by (apply Permutation_length, Hperm).
    rewrite length_app in Hl.
    exists (prime_factors p); split.
    + apply in_flat_map; exists (Z.of_nat (List.length (prime_factors p))); split.
      * apply in_range; unfold len.
        destruct (prime_factors p); [contradiction|].
        destruct (prime_factors q); [contradiction|].
        cbn [List.length] in *; lia.
      * rewrite Nat2Z.id; apply (permutations_complete _ _ _ Hperm).
    + apply Z.eqb_eq; rewrite reduce_mul_product; exact Epp.
Qed.

(** The pass over the factors of one distance adds one to the count of
    each proper divisor of the distance, and nothing else. *)
Lemma count_divisors_of_spec div_freqs d :
  NoDup (dict_keys div_freqs) ->
  NoDup (dict_keys (count_divisors_of div_freqs (sorted (prime_factors d)))) /\
  forall p,
    dict_get Z.eqb p (count_divisors_of div_freqs (sorted (prime_factors d)))
    = if proper_divisor p d
      then Some (match dict_get Z.eqb p div_freqs with
                 | Some n => n | None => 0 end + 1)
      else dict_get Z.eqb p div_freqs.
Proof.
  intros Hnd; unfold count_divisors_of.
  rewrite (fold_left_flat_map count_divisor
             (fun r => permutations (sorted (prime_factors d)) (Z.to_nat r))).
  destruct (count_divisor_fold div_freqs
              (flat_map (fun r => permutations (sorted (prime_factors d))
                                               (Z.to_nat r))
                        (range 1 (len (sorted (prime_factors d))))))
    as [_ [Hnd' Hget]]; [|exact Hnd|].
  - apply Forall_forall; intros c Hc.
    apply in_flat_map in Hc; destruct Hc as [r [_ Hc]].
    destruct (permutations_spec _ _ _ Hc) as [rest [Hperm _]].
    rewrite sorted_Permutation in Hperm.
    assert (Forall prime (c ++ rest)) as Hall
      by (apply (Permutation_Forall (Permutation_sym Hperm)),
                prime_factors_primes).
    apply Forall_app in Hall; exact (proj1 Hall).
  - split; [exact Hnd'|].
    intros p; rewrite Hget, arrangement_products; reflexivity.
Qed.

Lemma divisor_count_cons d distances p :
  divisor_count (d :: distances) p
  = (if proper_divisor p d then 1 else 0) + divisor_count distances p.
Proof.
  unfold divisor_count; cbn [filter].
  destruct (proper_divisor p d); [|lia].
  unfold len; cbn [List.length]; lia.
Qed.

Lemma find_common_divisors_get distances verbosity :
  NoDup (dict_keys (find_common_divisors distances verbosity)) /\
  forall p,
    dict_get Z.eqb p (find_common_divisors distances verbosity)
    = if divisor_count distances p =? 0 then None
      else Some (divisor_count distances p).
Proof.
  unfold find_common_divisors; rewrite factor_distances_eq.
  assert (forall ds df,
             NoDup (dict_keys df) ->
             NoDup (dict_keys
                      (fold_left count_divisors_of
                         (map (fun d => sorted (prime_factors d)) ds) df)) /\
             forall p,
               dict_get Z.eqb p
                 (fold_left count_divisors_of
                    (map (fun d => sorted (prime_factors d)) ds) df)
               = if divisor_count ds p =? 0 then dict_get Z.eqb p df
                 else Some (match dict_get Z.eqb p df with
                            | Some n => n | None => 0 end
                            + divisor_count ds p)) as H.
  { induction ds as [|d ds IH]; intros df Hnd; cbn [map fold_left].
    - split; [exact Hnd | intros p; reflexivity].
    - destruct (count_divisors_of_spec df d Hnd) as [Hnd' Hget].
      destruct (IH _ Hnd') as [Hnd'' Hget'].
      split; [exact Hnd''|].
      intros p; rewrite Hget', Hget, divisor_count_cons.
      assert (0 <= divisor_count ds p) as Hc by apply len_nonneg.
      destruct (proper_divisor p d);
        destruct (Z.eqb_spec (divisor_count ds p) 0) as [E|E].
      + rewrite E; cbn; reflexivity.
      + destruct (Z.eqb_spec (1 + divisor_count ds p) 0); [lia|].
        f_equal; lia.
      + rewrite E; reflexivity.
      + destruct (Z.eqb_spec (0 + divisor_count ds p) 0); [lia|].
        f_equal. }
  destruct (H distances [] (NoDup_nil _)) as [Hnd Hget].
  split; [exact Hnd|].
  intros p; rewrite Hget; cbn [dict_get].
  destruct (divisor_count distances p =? 0); reflexivity.
Qed.

(** X15: the table of [find_common_divisors] holds, once each, the numbers
    that are a proper divisor of a distance, each with the number of the
    distances (repeated ones counted as often as they occur) of which it is
    a proper divisor.  The distances are taken below 2^53, where the float
    quotients of [prime_factors] are exact. *)
Theorem find_common_divisors_counts (distances : list Z) (verbosity : Z)
        (p n : Z) :
  Forall (fun d => d < 2 ^ 53) distances ->
  NoDup (dict_keys (find_common_divisors distances verbosity)) /\
  (In (p, n) (find_common_divisors distances verbosity) <->
   n = divisor_count distances p /\ 1 <= n).
Proof.
  intros _.
  destruct (find_common_divisors_get distances verbosity) as [Hnd Hget].
  split; [exact Hnd|].
  specialize (Hget p).
  assert (0 <= divisor_count distances p) as Hc by apply len_nonneg.
  split.
  - intros Hin; rewrite (In_get Z.eqb Z.eqb_eq _ _ _ Hnd Hin) in Hget.
    destruct (Z.eqb_spec (divisor_count distances p) 0); [discriminate|].
    injection Hget as ->; split; [reflexivity | lia].
  - intros [-> Hge]; apply (get_In Z.eqb Z.eqb_eq); rewrite Hget.
    destruct (Z.eqb_spec (divisor_count distances p) 0); [lia | reflexivity].
Qed.

Lemma find_multiples_short cypher verbosity :
  len cypher < MIN_NGRAM -> find_multiples cypher verbosity = [].
Proof.
  intros Hshort; unfold find_multiples.
  replace (fold_left _ (range 0 (len cypher)) []) with (@nil (list Z * list Z));
    [reflexivity|].
  symmetry.
  apply (fold_left_invariant (fun multiples => multiples = [])
                             (fun i => 0 <= i < len cypher)).
  - intros multiples i Hi ->.
    apply (fold_left_invariant (fun multiples => multiples = [])
                               (fun n => MIN_NGRAM <= n)).
    + intros multiples n Hn ->; unfold record_ngram.
      destruct (Z.ltb_spec (i + 1) n); [reflexivity | lia].
    + apply Forall_forall; intros n Hn; apply in_range in Hn; lia.
    + reflexivity.
  - apply Forall_forall; intros i Hi; apply in_range in Hi; lia.
  - reflexivity.
Qed.

(** ** The selection of the key length *)

Lemma SFcompare_refl x : SFcompare x x = Some Eq \/ SFcompare x x = None.
Proof.
  destruct x as [[|]| [|] | | [|] m e]; cbn; auto;
    rewrite Z.compare_refl, Pos.compare_cont_refl; auto.
Qed.

Lemma float_gt_irrefl x : float_gt x x = false.
Proof.
  unfold float_gt, SFltb; destruct (SFcompare_refl x) as [-> | ->]; reflexivity.
Qed.

Lemma SFcompare_Lt_Gt x y : SFcompare x y = Some Lt -> SFcompare y x = Some Gt.
Proof.
  destruct x as [[|]| [|] | | [|] m e], y as [[|]| [|] | | [|] m' e'];
    cbn; try congruence;
    rewrite (Z.compare_antisym e e');
    pose proof (Pos.compare_cont_antisym m m' Eq) as A; cbn [CompOpp] in A;
    rewrite <- A;
    destruct (e ?= e'), (Pos.compare_cont Eq m m'); cbn; congruence.
Qed.

Lemma float_gt_asym x y : float_gt x y = true -> float_gt y x = false.
Proof.
  unfold float_gt, SFltb.
  destruct (SFcompare y x) as [[| |]|] eqn:E; try discriminate.
  intros _; rewrite (SFcompare_Lt_Gt _ _ E); reflexivity.
Qed.

Lemma dict_set_fresh {V} k (v : V) (d : dict Z V) :
  ~ In k (dict_keys d) -> dict_set Z.eqb k v d = d ++ [(k, v)].
Proof.
  unfold dict_keys; induction d as [|[k' v'] d IH]; cbn [dict_set map fst In app];
    intros H; [reflexivity|].
  destruct (Z.eqb_spec k' k) as [->|_]; [exfalso; apply H; left; reflexivity|].
  rewrite IH by (intros Hin; apply H; right; exact Hin); reflexivity.
Qed.

Lemma dict_get_NoDup {V} k (v : V) (d : dict Z V) :
  NoDup (dict_keys d) -> In (k, v) d -> dict_get Z.eqb k d = Some v.
Proof.
  unfold dict_keys; induction d as [|[k' v'] d IH]; cbn [map fst dict_get];
    intros Hnd Hin; [destruct Hin|].
  inversion Hnd as [|? ? Hk Hd]; subst.
  destruct Hin as [[= -> ->]|Hin]; [rewrite Z.eqb_refl; reflexivity|].
  destruct (Z.eqb_spec k' k) as [->|_]; [|apply IH; assumption].
  exfalso; apply Hk; apply in_map_iff; exists (k, v); split; [reflexivity | exact Hin].
Qed.

(** On the reals the score is [500 * ln (0.1 * f + 0.8)], which increases
    with the frequency.  [score_of] rounds after every operation and does
    not inherit this: see [score_of_tie]. *)
Lemma exact_score_reduces (f : R) :
  (0 < f)%R -> exact_score f = (500 * ln (0.1 * f + 0.8))%R.
Proof. intros H; unfold exact_score; field; lra. Qed.

Lemma exact_score_increasing (f1 f2 : Z) :
  1 <= f1 < f2 -> (exact_score (IZR f1) < exact_score (IZR f2))%R.
Proof.
  intros [H1 H2].
  assert (1 <= IZR f1)%R as R1 by (apply IZR_le in H1; exact H1).
  assert (IZR f1 < IZR f2)%R as R2 by (apply IZR_lt; exact H2).
  rewrite !exact_score_reduces by lra.
  apply Rmult_lt_compat_l; [lra|].
  apply ln_increasing; lra.
Qed.

Section KeyLength.

Variable flog : float -> float.

Local Abbreviation score_of := (score_of flog).
Local Abbreviation compute_scores := (compute_scores flog).
Local Abbreviation key_length_of := (key_length_of flog).
Local Abbreviation scores_ordered := (scores_ordered flog).

Local Abbreviation sc := (score_value flog).
Local Abbreviation scored := (scored flog).

Lemma compute_scores_ok div_freqs :
  NoDup (dict_keys div_freqs) ->
  (forall d f, In (d, f) div_freqs -> exists s, score_of f = Ok s) ->
  compute_scores div_freqs = Ok (map scored div_freqs).
Proof.
  intros Hnd Hok; unfold compute_scores.
  assert (forall entries scores,
             NoDup (dict_keys scores ++ dict_keys entries) ->
             (forall d f, In (d, f) entries -> exists s, score_of f = Ok s) ->
             for_each entries
               (fun scores '(div, freq) =>
                  score <- score_of freq ;; Ok (dict_set Z.eqb div score scores))
               scores
             = Ok (scores ++ map scored entries)) as H.
  { induction entries as [|[d f] entries IH]; intros scores Hn Ho;
      cbn [for_each map].
    - rewrite app_nil_r; reflexivity.
    - destruct (Ho d f (or_introl eq_refl)) as [s Es].
      rewrite Es; cbn [bind].
      unfold dict_keys in Hn; cbn [map fst] in Hn.
      rewrite dict_set_fresh
        by (apply NoDup_remove_2 in Hn; intros Hin; apply Hn, in_or_app; left;
            exact Hin).
      rewrite IH.
      + rewrite <- app_assoc; cbn [app]; unfold scored at 2, score_value; cbn [fst snd].
        rewrite Es; reflexivity.
      + unfold dict_keys; rewrite map_app, <- app_assoc; exact Hn.
      + intros d' f' Hin; apply (Ho d' f'); right; exact Hin. }
  apply (H div_freqs []); assumption.
Qed.

Lemma scores_getitem div_freqs d f :
  NoDup (dict_keys div_freqs) -> In (d, f) div_freqs ->
  dict_getitem d (map scored div_freqs) = Ok (sc f).
Proof.
  intros Hnd Hin; unfold dict_getitem.
  rewrite (dict_get_NoDup d (sc f)); [reflexivity | |].
  - unfold dict_keys in *; rewrite map_map; cbn [scored fst]; exact Hnd.
  - apply in_map_iff; exists (d, f); split; [reflexivity | exact Hin].
Qed.

(** The scan of [max] over the keys follows the scan for the greatest
    frequency step by step. *)
Lemma max_scan_follows (key : Z -> result float) (div_freqs : dict Z Z)
      (entries : list (Z * Z)) (best : Z * Z) :
  (forall e, In e (best :: entries) -> In e div_freqs) ->
  (forall e, In e div_freqs -> key (fst e) = Ok (sc (snd e))) ->
  (forall e1 e2, In e1 div_freqs -> In e2 div_freqs -> snd e1 < snd e2 ->
                 float_gt (sc (snd e2)) (sc (snd e1)) = true) ->
  for_each (dict_keys entries)
    (fun best y =>
       ky <- key y ;; Ok (if float_gt ky (snd best) then (y, ky) else best))
    (scored best)
  = Ok (scored
          (fold_left (fun best entry => if snd best <? snd entry then entry else best)
                     entries best)).
Proof.
  intros Hin Hkey Hmono; revert best Hin.
  induction entries as [|e entries IH]; intros best Hin; [reflexivity|].
  unfold dict_keys; cbn [map for_each fold_left].
  assert (In e div_freqs) as He by (apply Hin; right; left; reflexivity).
  assert (In best div_freqs) as Hb by (apply Hin; left; reflexivity).
  rewrite (Hkey e He); cbn [bind scored snd].
  assert ((if float_gt (sc (snd e)) (sc (snd best))
           then (fst e, sc (snd e)) else scored best)
          = scored (if snd best <? snd e then e else best)) as ->.
  { destruct (Z.ltb_spec (snd best) (snd e)) as [Hlt|Hge].
    - rewrite (Hmono best e Hb He Hlt); reflexivity.
    - destruct (Z.eq_dec (snd e) (snd best)) as [->|Hne].
      + rewrite float_gt_irrefl; reflexivity.
      + assert (snd e < snd best) as Hlt by lia.
        rewrite (float_gt_asym _ _ (Hmono e best He Hb Hlt)); reflexivity. }
  fold (dict_keys entries); apply IH.
  intros e' [<-|He']; [destruct (snd best <? snd e); assumption|].
  apply Hin; right; right; exact He'.
Qed.


(** Two frequencies that differ above 2^53 convert to the same float and
    get the same score, whatever the logarithm. *)
Lemma score_of_tie : score_of (2 ^ 60 + 1) = score_of (2 ^ 60).
Proof.
  unfold score_of.
  assert (float_of_int (2 ^ 60 + 1) = float_of_int (2 ^ 60)) as ->
    by (vm_compute; reflexivity).
  assert (int_truediv 10 (2 ^ 60 + 1) = int_truediv 10 (2 ^ 60)) as ->
    by (vm_compute; reflexivity).
  reflexivity.
Qed.

Lemma score_of_2_60 : exists s, score_of (2 ^ 60) = Ok s.
Proof.
  unfold score_of.
  assert (float_of_int (2 ^ 60) = Ok (S754_finite false 4503599627370496 8)) as ->
    by (vm_compute; reflexivity).
  cbn [bind].
  assert (float_add (float_mul literal_0_1 (S754_finite false 4503599627370496 8))
                    literal_0_8
          = S754_finite false 7205759403792794 4) as ->
    by (vm_compute; reflexivity).
  cbn [bind math_log].
  assert (float_of_int 50 = Ok (S754_finite false 7036874417766400 (-47))) as ->
    by (vm_compute; reflexivity).
  assert (int_truediv 10 (2 ^ 60) = Ok (S754_finite false 5629499534213120 (-109)))
    as -> by (vm_compute; reflexivity).
  cbn [bind]; eexists; reflexivity.
Qed.

Lemma key_length_of_tie : key_length_of [(2, 2 ^ 60); (3, 2 ^ 60 + 1)] = Ok 2.
Proof.
  destruct score_of_2_60 as [s Es].
  unfold key_length_of, compute_scores; cbn [for_each].
  rewrite score_of_tie, Es; cbn [bind].
  unfold select_top_div, py_max_by, dict_keys, dict_getitem.
  cbn [map fst dict_set dict_get for_each bind Z.eqb Pos.eqb snd].
  rewrite float_gt_irrefl; reflexivity.
Qed.

End KeyLength.

(** ** The shift loop in general *)

Lemma for_each_app {A S} (xs ys : list A) (body : S -> A -> result S) (acc : S) :
  for_each (xs ++ ys) body acc
  = (acc' <- for_each xs body acc ;; for_each ys body acc').
Proof.
  revert acc; induction xs as [|x xs IH]; intros acc; cbn [app for_each bind];
    [reflexivity|].
  destruct (body acc x); cbn [bind]; [apply IH | reflexivity].
Qed.

Lemma range_app lo mid hi :
  lo <= mid <= hi -> range lo hi = range lo mid ++ range mid hi.
Proof.
  intros H.
  replace hi with (mid + Z.of_nat (Z.to_nat (hi - mid))) by lia.
  generalize (Z.to_nat (hi - mid)) as m; induction m as [|m IH].
  - rewrite Z.add_0_r, (range_empty mid mid), app_nil_r by lia; reflexivity.
  - replace (mid + Z.of_nat (S m)) with (mid + Z.of_nat m + 1) by lia.
    rewrite !range_snoc by lia.
    rewrite IH, app_assoc; reflexivity.
Qed.

(** The loop over the first [n] indices of the text, when every index it
    takes into [key_offsets] is in range. *)
Lemma shift_loop_prefix (op : Z -> Z -> Z) (text : str) (key_offsets : list Z)
      (L n : Z) :
  letters text -> 0 < L -> 0 <= n <= len text ->
  (forall i, 0 <= i < n -> i mod L < len key_offsets) ->
  for_each (range 0 n)
    (fun acc i =>
       p <- getitem text i ;;
       a <- alphabet_index p ;;
       j <- py_mod i L ;;
       k <- getitem key_offsets j ;;
       m <- py_mod (op a k) (len ALPHABET) ;;
       c <- getitem ALPHABET m ;;
       Ok (acc ++ [c]))
    []
  = Ok (map (fun i => 65 + op (nth (Z.to_nat i) text 0 - 65)
                             (nth (Z.to_nat (i mod L)) key_offsets 0) mod 26)
            (range 0 n)).
Proof.
  intros Ht HL Hn Hk.
  set (g := fun i => 65 + op (nth (Z.to_nat i) text 0 - 65)
                          (nth (Z.to_nat (i mod L)) key_offsets 0) mod 26).
  rewrite for_each_ext with
    (b2 := fun acc i => c <- (fun i => Ok (g i)) i ;; Ok (acc ++ [c])).
  - rewrite (for_each_append_ok _ g) by reflexivity; reflexivity.
  - intros acc i Hi; apply in_range in Hi.
    rewrite (getitem_nth text i 0) by lia; cbn [bind].
    rewrite alphabet_index_ok; cbn [bind].
    2:{ unfold letters in Ht; rewrite Forall_forall in Ht; apply Ht.
        apply nth_In; unfold len in Hn; lia. }
    unfold py_mod at 1.
    destruct (Z.eqb_spec L 0); [lia|]; cbn [bind].
    assert (0 <= i mod L < L) as Hm by (apply Z.mod_pos_bound; lia).
    pose proof (Hk i Hi) as Hi'.
    rewrite (getitem_nth key_offsets (i mod L) 0) by lia; cbn [bind].
    rewrite len_ALPHABET; unfold py_mod.
    change (26 =? 0) with false; cbn [bind].
    rewrite alphabet_getitem by (apply Z.mod_pos_bound; lia).
    reflexivity.
Qed.

(** What the loop does for every text of letters, list of offsets and
    length [L] of the raw key. *)
Lemma shift_loop_outcome (op : Z -> Z -> Z) (text : str) (key_offsets : list Z)
      (L : Z) :
  letters text -> 0 <= L ->
  for_each (range 0 (len text))
    (fun acc i =>
       p <- getitem text i ;;
       a <- alphabet_index p ;;
       j <- py_mod i L ;;
       k <- getitem key_offsets j ;;
       m <- py_mod (op a k) (len ALPHABET) ;;
       c <- getitem ALPHABET m ;;
       Ok (acc ++ [c]))
    []
  = if len text =? 0 then Ok []
    else if L =? 0 then Raise ZeroDivisionError
    else if len key_offsets <? Z.min (len text) L then Raise IndexError
    else Ok (map (fun i => 65 + op (nth (Z.to_nat i) text 0 - 65)
                                  (nth (Z.to_nat (i mod L)) key_offsets 0) mod 26)
                 (range 0 (len text))).
Proof.
  intros Ht HL.
  pose proof (len_nonneg text) as HN; pose proof (len_nonneg key_offsets) as HM.
  destruct (Z.eqb_spec (len text) 0) as [E|HN0];
    [rewrite E; reflexivity|].
  assert (forall i, 0 <= i < len text ->
                    exists a, getitem text i = Ok (a + 65) /\
                              alphabet_index (a + 65) = Ok a) as Hget.
  { intros i Hi; exists (nth (Z.to_nat i) text 0 - 65).
    replace (nth (Z.to_nat i) text 0 - 65 + 65) with (nth (Z.to_nat i) text 0)
      by lia.
    split; [apply getitem_nth; exact Hi|].
    apply alphabet_index_ok.
    unfold letters in Ht; rewrite Forall_forall in Ht; apply Ht.
    apply nth_In; unfold len in Hi; lia. }
  destruct (Z.eqb_spec L 0) as [->|HL0].
  - rewrite range_cons by lia; cbn [for_each].
    destruct (Hget 0) as [a [E1 E2]]; [lia|].
    rewrite E1; cbn [bind]; rewrite E2; reflexivity.
  - destruct (Z.ltb_spec (len key_offsets) (Z.min (len text) L)) as [Hlt|Hge].
    + rewrite (range_app 0 (len key_offsets) (len text)) by lia.
      rewrite for_each_app, shift_loop_prefix; [| exact Ht | lia | lia |].
      2:{ intros i Hi; rewrite Z.mod_small; lia. }
      cbn [bind]; rewrite range_cons by lia; cbn [for_each].
      destruct (Hget (len key_offsets)) as [a [E1 E2]]; [lia|].
      rewrite E1; cbn [bind]; rewrite E2; cbn [bind].
      unfold py_mod; destruct (Z.eqb_spec L 0); [lia|]; cbn [bind].
      rewrite Z.mod_small by lia.
      rewrite getitem_out_of_range by lia; reflexivity.
    + apply shift_loop_prefix; [exact Ht | lia | lia |].
      intros i Hi.
      assert (0 <= i mod L < L) as Hm by (apply Z.mod_pos_bound; lia).
      assert (i mod L <= i) by (apply Z.mod_le; lia).
      lia.
Qed.

Lemma shift_outcome_letters (op : Z -> Z -> Z) (text key : str) (L : Z) (c : str) :
  shift_outcome op text key L = Ok c -> len c = len text /\ letters c.
Proof.
  unfold shift_outcome; pose proof (len_nonneg text) as HN.
  destruct (Z.eqb_spec (len text) 0) as [E|_].
  - intros [= <-]; split; [symmetry; exact E | constructor].
  - destruct (L =? 0); [discriminate|].
    destruct (len key <? Z.min (len text) L); [discriminate|].
    intros H.
    apply (f_equal (fun r => match r with Ok x => x | Raise _ => c end)) in H.
    subst c; split; [apply len_map_range; exact HN|].
    apply shifted_letters with (g := fun i => _).
Qed.

(** Shifting back with the same key undoes a shift: [op'] is the
    subtraction when [op] is the addition, and the other way round. *)
Lemma shift_outcome_inverse (op op' : Z -> Z -> Z) (text key : str) (L : Z)
      (c : str) :
  (forall a o, op' (op a o mod 26) o mod 26 = a mod 26) ->
  letters text ->
  shift_outcome op text key L = Ok c -> shift_outcome op' c key L = Ok text.
Proof.
  intros Hinv Ht H.
  destruct (shift_outcome_letters _ _ _ _ _ H) as [Hlen _].
  unfold shift_outcome in *; rewrite Hlen.
  pose proof (len_nonneg text) as HN.
  destruct (Z.eqb_spec (len text) 0) as [E|HN0].
  - apply len_nil_iff in E; subst text; reflexivity.
  - destruct (L =? 0); [discriminate|].
    destruct (len key <? Z.min (len text) L); [discriminate|].
    apply (f_equal (fun r => match r with Ok x => x | Raise _ => c end)) in H.
    subst c; apply f_equal.
    apply nth_ext with (d := 0) (d' := 0).
    { rewrite length_map, range_length; unfold len; lia. }
    intros j Hj; rewrite length_map, range_length in Hj.
    assert (Z.of_nat j < len text) as Hi by (unfold len in *; lia).
    rewrite nth_map_range by lia.
    rewrite Nat2Z.id, nth_map_range by lia.
    rewrite Nat2Z.id.
    assert (65 <= nth j text 0 <= 90) as Hx.
    { apply in_alphabet_iff.
      unfold letters in Ht; rewrite Forall_forall in Ht.
      apply Ht, nth_In; unfold len in Hi; lia. }
    set (o := nth _ key 0 - 65).
    replace (65 + op (nth j text 0 - 65) o mod 26 - 65)
      with (op (nth j text 0 - 65) o mod 26) by lia.
    rewrite Hinv, Z.mod_small by lia; lia.
Qed.

(** ** The parts of [crack] *)

Lemma for_each_range_invariant {St} (P : Z -> St -> Prop)
      (body : St -> Z -> result St) (lo hi : Z) (s r : St) :
  lo <= hi -> P lo s ->
  (forall k s s', lo <= k < hi -> P k s -> body s k = Ok s' -> P (k + 1) s') ->
  for_each (range lo hi) body s = Ok r -> P hi r.
Proof.
  intros Hle H0 Hstep.
  assert (forall (m : nat) r', lo + Z.of_nat m <= hi ->
            for_each (range lo (lo + Z.of_nat m)) body s = Ok r' ->
            P (lo + Z.of_nat m) r') as H.
  { induction m as [|m IH]; intros r' Hm Hr.
    - rewrite Z.add_0_r in *; rewrite range_empty in Hr by lia.
      cbn [for_each] in Hr; injection Hr as <-; exact H0.
    - replace (lo + Z.of_nat (S m)) with (lo + Z.of_nat m + 1) in * by lia.
      rewrite range_snoc, for_each_app in Hr by lia.
      apply bind_ok in Hr; destruct Hr as [s' [Hs' Hr]].
      cbn [for_each] in Hr; apply bind_ok in Hr; destruct Hr as [s'' [Hb Hr]].
      injection Hr as <-.
      apply (Hstep _ s'); [lia | apply IH; [lia | exact Hs'] | exact Hb]. }
  specialize (H (Z.to_nat (hi - lo)) r).
  replace (lo + Z.of_nat (Z.to_nat (hi - lo))) with hi in H by lia.
  apply H; lia.
Qed.

Lemma py_max_by_In {A} (key : A -> result float) (items : list A) (x : A) :
  py_max_by key items = Ok x -> In x items.
Proof.
  destruct items as [|x0 items]; [discriminate|]; cbn [py_max_by].
  intros H; apply bind_ok in H; destruct H as [k0 [_ H]].
  apply bind_ok in H; destruct H as [best [Hb H]].
  injection H as <-.
  assert (forall ys b,
             In (fst b) (x0 :: items) ->
             (forall y, In y ys -> In y (x0 :: items)) ->
             for_each ys
               (fun best y =>
                  ky <- key y ;;
                  Ok (if float_gt ky (snd best) then (y, ky) else best)) b
             = Ok best ->
             In (fst best) (x0 :: items)) as Hgen.
  { induction ys as [|y ys IH]; intros b Hb0 Hys Hf; cbn [for_each] in Hf.
    - injection Hf as <-; exact Hb0.
    - apply bind_ok in Hf; destruct Hf as [b' [Hb' Hf]].
      apply bind_ok in Hb'; destruct Hb' as [ky [_ Hb']]; injection Hb' as <-.
      apply (IH _) in Hf; [exact Hf | |].
      + destruct (float_gt ky (snd b)); cbn [fst];
          [apply Hys; left; reflexivity | exact Hb0].
      + intros y' Hy'; apply Hys; right; exact Hy'. }
  apply (Hgen items (x0, k0));
    [left; reflexivity | intros y Hy; right; exact Hy | exact Hb].
Qed.

Lemma proper_subproduct_half p d :
  proper_subproduct p d -> 2 <= p /\ 2 * p <= d /\ (p | d).
Proof.
  intros [c [rest [Hc [Hr [Hperm [-> Hb]]]]]].
  rewrite reduce_mul_product in *.
  assert (1 <= d) as Hd by lia.
  destruct (prime_factors_spec d Hd) as [Hp Hall].
  rewrite <- (product_Permutation _ _ Hperm), product_app in Hp.
  assert (Forall (fun x => 2 <= x) (c ++ rest)) as Hall'
    by (revert Hall; apply Permutation_Forall; symmetry; exact Hperm).
  apply Forall_app in Hall'; destruct Hall' as [_ Hra].
  pose proof (product_ge_2 rest Hra Hr).
  split; [lia|]; split; [nia|].
  exists (product rest); lia.
Qed.

Lemma find_common_divisors_keys distances verbosity p :
  In p (dict_keys (find_common_divisors distances verbosity)) ->
  exists d, In d distances /\ proper_subproduct p d.
Proof.
  unfold find_common_divisors; rewrite factor_distances_eq.
  assert (forall ds df,
             In p (dict_keys
                     (fold_left count_divisors_of
                        (map (fun d => sorted (prime_factors d)) ds) df)) ->
             In p (dict_keys df) \/
             exists d, In d ds /\ proper_subproduct p d) as H.
  { induction ds as [|d ds IH]; intros df Hp; cbn [map fold_left] in Hp;
      [left; exact Hp|].
    destruct (IH _ Hp) as [H|[d' [Hin Hprop]]].
    - destruct (Z.le_gt_cases d 1) as [Hd|Hd].
      + rewrite (prime_factors_below_2 d Hd) in H; left; exact H.
      + assert (1 < d) as Hd' by lia.
        destruct (count_divisors_of_proper _ _ _ Hd' H) as [H'|H'];
          [left; exact H' | right; exists d; split; [left; reflexivity | exact H']].
    - right; exists d'; split; [right; exact Hin | exact Hprop]. }
  intros Hp; destruct (H distances [] Hp) as [[]|H']; exact H'.
Qed.

(** *** [collections.Counter] and [most_common] *)

Lemma keys_set_present {V} k (v v' : V) (d : dict Z V) :
  dict_get Z.eqb k d = Some v' ->
  dict_keys (dict_set Z.eqb k v d) = dict_keys d.
Proof.
  unfold dict_keys; induction d as [|[k0 v0] d IH];
    cbn [dict_get dict_set map fst]; [discriminate|].
  destruct (Z.eqb_spec k0 k) as [->|_]; cbn [map fst]; [reflexivity|].
  intros H; rewrite (IH H); reflexivity.
Qed.

Lemma count_snoc s x c :
  count (s ++ [x]) c = count s c + (if Z.eq_dec x c then 1 else 0).
Proof.
  unfold count; rewrite count_occ_app; cbn [count_occ].
  destruct (Z.eq_dec x c); lia.
Qed.

Lemma count_nonneg s c : 0 <= count s c.
Proof. unfold count; lia. Qed.

Lemma count_pos_In s c : 0 < count s c <-> In c s.
Proof.
  unfold count; rewrite (count_occ_In Z.eq_dec); lia.
Qed.

Lemma counter_snoc s x :
  counter (s ++ [x])
  = dict_set Z.eqb x
             (match dict_get Z.eqb x (counter s) with Some n => n | None => 0 end + 1)
             (counter s).
Proof. unfold counter; rewrite fold_left_app; reflexivity. Qed.

(** The counter holds each character of the string once, with the number
    of its occurrences. *)
Lemma counter_spec s :
  NoDup (dict_keys (counter s)) /\
  forall c, dict_get Z.eqb c (counter s)
            = if count s c =? 0 then None else Some (count s c).
Proof.
  induction s as [|x s [IHnd IHget]] using rev_ind.
  - split; [constructor | intros c; reflexivity].
  - rewrite counter_snoc; split.
    + destruct (dict_get Z.eqb x (counter s)) as [n|] eqn:E.
      * rewrite (keys_set_present _ _ _ _ E); exact IHnd.
      * rewrite (keys_set_fresh Z.eqb) by exact E.
        apply NoDup_app; [exact IHnd | constructor; [intros [] | constructor] |].
        intros k Hk [<-|[]].
        exact (get_None Z.eqb Z.eqb_eq _ _ E Hk).
    + intros c; rewrite count_snoc.
      pose proof (count_nonneg s c) as Hc.
      destruct (Z.eq_dec x c) as [->|Hne].
      * rewrite (get_set_same Z.eqb Z.eqb_eq), IHget.
        destruct (Z.eqb_spec (count s c) 0) as [E0|E0];
          destruct (Z.eqb_spec (count s c + 1) 0); try lia;
          [rewrite E0|]; reflexivity.
      * rewrite (get_set_other Z.eqb Z.eqb_eq) by congruence.
        rewrite Z.add_0_r; apply IHget.
Qed.

Lemma counter_In s c n : In (c, n) (counter s) -> n = count s c /\ In c s.
Proof.
  destruct (counter_spec s) as [Hnd Hget]; intros Hin.
  pose proof (In_get Z.eqb Z.eqb_eq _ _ _ Hnd Hin) as E.
  rewrite Hget in E.
  destruct (Z.eqb_spec (count s c) 0) as [_|Hne]; [discriminate|].
  injection E as <-; split; [reflexivity|].
  apply count_pos_In; pose proof (count_nonneg s c); lia.
Qed.

Lemma In_counter s c : In c s -> In (c, count s c) (counter s).
Proof.
  destruct (counter_spec s) as [_ Hget]; intros Hin.
  apply (get_In Z.eqb Z.eqb_eq); rewrite Hget.
  apply count_pos_In in Hin.
  destruct (Z.eqb_spec (count s c) 0); [lia | reflexivity].
Qed.

Lemma insert_by_count_Permutation x l :
  Permutation (insert_by_count x l) (x :: l).
Proof.
  induction l as [|y l IH]; cbn [insert_by_count]; [reflexivity|].
  destruct (snd x <? snd y); [|reflexivity].
  rewrite IH; apply perm_swap.
Qed.

Lemma by_count_Permutation l :
  Permutation (fold_right insert_by_count [] l) l.
Proof.
  induction l as [|x l IH]; cbn [fold_right]; [reflexivity|].
  rewrite insert_by_count_Permutation, IH; reflexivity.
Qed.

Lemma insert_by_count_sorted x l :
  StronglySorted (fun a b : Z * Z => snd b <= snd a) l ->
  StronglySorted (fun a b : Z * Z => snd b <= snd a) (insert_by_count x l).
Proof.
  induction 1 as [|y l Hs IH Hall]; cbn [insert_by_count];
    [constructor; constructor|].
  destruct (Z.ltb_spec (snd x) (snd y)) as [Hlt|Hge].
  - constructor; [exact IH|].
    rewrite Forall_forall in *; intros z Hz.
    apply (Permutation_in _ (insert_by_count_Permutation x l)) in Hz.
    destruct Hz as [<-|Hz]; [lia | apply Hall, Hz].
  - constructor; [constructor; assumption|].
    constructor; [exact Hge|].
    rewrite Forall_forall in *; intros z Hz.
    specialize (Hall z Hz); cbv beta in Hall; lia.
Qed.

Lemma by_count_sorted l :
  StronglySorted (fun a b : Z * Z => snd b <= snd a)
                 (fold_right insert_by_count [] l).
Proof.
  induction l as [|x l IH]; cbn [fold_right];
    [constructor | apply insert_by_count_sorted, IH].
Qed.

(** The first entry of [most_common] is an entry of the counter with a
    count that no other entry exceeds. *)
Lemma most_common_first counts n m rest :
  most_common counts n = m :: rest ->
  In m counts /\ forall e, In e counts -> snd e <= snd m.
Proof.
  unfold most_common; intros H.
  pose proof (by_count_sorted counts) as Hs.
  pose proof (by_count_Permutation counts) as Hp.
  destruct (fold_right insert_by_count [] counts) as [|m' l];
    [rewrite firstn_nil in H; discriminate|].
  destruct (Z.to_nat n); cbn [firstn] in H; [discriminate|].
  injection H as -> _.
  split; [apply (Permutation_in _ Hp); left; reflexivity|].
  intros e He; apply (Permutation_in _ (Permutation_sym Hp)) in He.
  inversion Hs as [|? ? _ Hall]; subst.
  destruct He as [<-|He]; [lia|].
  rewrite Forall_forall in Hall; apply (Hall e He).
Qed.

Lemma slice_step_In {A} (l : list A) (start step : Z) (x : A) :
  In x (slice_step l start step) -> In x l.
Proof.
  unfold slice_step; intros H.
  apply in_map_iff in H; destruct H as [[j y] [E H]]; cbn [snd] in E; subst y.
  apply filter_In in H; destruct H as [H _].
  apply (in_combine_r _ _ _ _ H).
Qed.

Lemma getitem_0 {A} (l : list A) (x : A) :
  getitem l 0 = Ok x -> exists rest, l = x :: rest.
Proof.
  unfold getitem; cbn.
  destruct l as [|y l]; cbn; [discriminate|].
  intros [= ->]; exists l; reflexivity.
Qed.

Lemma most_common_letter_ok cypher key_length verbosity raw_key i raw_key' :
  most_common_letter cypher key_length verbosity raw_key i = Ok raw_key' ->
  exists m rest,
    most_common (counter (slice_step cypher i key_length)) 2 = m :: rest /\
    raw_key' = raw_key ++ [fst m].
Proof.
  unfold most_common_letter; cbv zeta; intros H.
  apply bind_ok in H; destruct H as [_ [_ H]].
  apply bind_ok in H; destruct H as [first [Hfirst H]].
  apply bind_ok in H; destruct H as [_ [_ H]].
  injection H as <-.
  destruct (getitem_0 _ _ Hfirst) as [rest E].
  exists first, rest; split; [exact E | reflexivity].
Qed.

(** A lower verbosity reads no more of [most_common]. *)
Lemma most_common_letter_verbosity cypher key_length v v' raw_key i r :
  v' <= v ->
  most_common_letter cypher key_length v raw_key i = Ok r ->
  most_common_letter cypher key_length v' raw_key i = Ok r.
Proof.
  unfold most_common_letter; cbv zeta; intros Hv.
  generalize (most_common (counter (slice_step cypher i key_length)) 2) as mc.
  intros mc.
  destruct (Z.leb_spec 2 v), (Z.leb_spec 2 v'), (Z.leb_spec 3 v), (Z.leb_spec 3 v');
    try lia;
    destruct (getitem mc 0) as [first|]; cbn [bind];
    destruct (getitem mc 1) as [second|]; cbn [bind];
    intros Hr; try discriminate Hr; exact Hr.
Qed.

Lemma for_each_verbosity cypher key_length v v' xs raw_key r :
  v' <= v ->
  for_each xs (most_common_letter cypher key_length v) raw_key = Ok r ->
  for_each xs (most_common_letter cypher key_length v') raw_key = Ok r.
Proof.
  intros Hv; revert raw_key; induction xs as [|x xs IH]; intros raw_key H;
    cbn [for_each] in *; [exact H|].
  apply bind_ok in H; destruct H as [rk [Hrk H]].
  rewrite (most_common_letter_verbosity _ _ _ _ _ _ _ Hv Hrk); cbn [bind].
  apply IH, H.
Qed.

(** *** What the parts can raise *)

Lemma bind_raise {A B} (m : result A) (k : A -> result B) (e : exn) :
  bind m k = Raise e -> m = Raise e \/ exists a, m = Ok a /\ k a = Raise e.
Proof.
  destruct m as [a|e']; cbn [bind]; intros H;
    [right; exists a; split; [reflexivity | exact H]|].
  left; injection H as ->; reflexivity.
Qed.

Lemma for_each_raise {A St} (xs : list A) (body : St -> A -> result St)
      (acc : St) (e : exn) :
  for_each xs body acc = Raise e ->
  exists x acc', In x xs /\ body acc' x = Raise e.
Proof.
  revert acc; induction xs as [|x xs IH]; intros acc H; cbn [for_each] in H;
    [discriminate|].
  destruct (bind_raise _ _ _ H) as [H'|[acc' [_ H']]].
  - exists x, acc; split; [left; reflexivity | exact H'].
  - destruct (IH _ H') as [y [acc'' [Hy Hb]]].
    exists y, acc''; split; [right; exact Hy | exact Hb].
Qed.

Lemma for_each_prefix_invariant {A St} (P : list A -> St -> Prop)
      (body : St -> A -> result St) (xs : list A) (acc r : St) :
  P [] acc ->
  (forall pre x acc acc', P pre acc -> body acc x = Ok acc' -> P (pre ++ [x]) acc') ->
  for_each xs body acc = Ok r -> P xs r.
Proof.
  intros H0 Hstep.
  assert (forall ys pre acc', P pre acc' -> for_each ys body acc' = Ok r ->
                              P (pre ++ ys) r) as H.
  { induction ys as [|y ys IH]; intros pre acc' Hp Hr; cbn [for_each] in Hr.
    - injection Hr as <-; rewrite app_nil_r; exact Hp.
    - apply bind_ok in Hr; destruct Hr as [acc'' [Hb Hr]].
      replace (pre ++ y :: ys) with ((pre ++ [y]) ++ ys)
        by (rewrite <- app_assoc; reflexivity).
      apply (IH _ acc''); [apply (Hstep _ _ acc'); assumption | exact Hr]. }
  apply (H xs [] acc H0).
Qed.

Lemma getitem_raise {A} (l : list A) (i : Z) (e : exn) :
  getitem l i = Raise e -> e = IndexError.
Proof.
  unfold getitem; cbv zeta.
  destruct (_ <? 0); [intros [= <-]; reflexivity|].
  destruct (nth_error l _); [discriminate | intros [= <-]; reflexivity].
Qed.

Lemma float_of_int_raise z e : float_of_int z = Raise e -> e = OverflowError.
Proof.
  unfold float_of_int; destruct (binary_normalize prec emax z 0 false);
    intros H; try discriminate H.
  injection H as <-; reflexivity.
Qed.

Lemma int_truediv_raise a b e :
  int_truediv a b = Raise e -> b <> 0 -> e = OverflowError.
Proof.
  unfold int_truediv; intros H Hb.
  destruct (Z.eqb_spec b 0); [contradiction|].
  destruct (a =? 0); [discriminate|].
  destruct (SFdiv_core_binary prec emax (Z.abs a) 0 (Z.abs b) 0) as [[q ex] l].
  destruct (binary_round_aux prec emax _ q ex l); try discriminate H.
  injection H as <-; reflexivity.
Qed.

Lemma math_log_raise flog x e : math_log flog x = Raise e -> e = ValueError.
Proof.
  unfold math_log; destruct x as [[|]|[|]| |[|] m ex]; intros H;
    try discriminate H; injection H as <-; reflexivity.
Qed.

Lemma score_of_raise flog freq e :
  score_of flog freq = Raise e -> freq <> 0 ->
  e = ValueError \/ e = OverflowError.
Proof.
  unfold score_of; intros H Hf.
  destruct (bind_raise _ _ _ H) as [H1|[x [_ H1]]];
    [right; exact (float_of_int_raise _ _ H1)|].
  destruct (bind_raise _ _ _ H1) as [H2|[l [_ H2]]];
    [left; exact (math_log_raise _ _ _ H2)|].
  destruct (bind_raise _ _ _ H2) as [H3|[c [_ H3]]];
    [right; exact (float_of_int_raise _ _ H3)|].
  destruct (bind_raise _ _ _ H3) as [H4|[q [_ H4]]];
    [right; exact (int_truediv_raise _ _ _ H4 Hf)|].
  cbv zeta in H4.
  destruct (bind_raise _ _ _ H4) as [H5|[f [_ H5]]];
    [right; exact (float_of_int_raise _ _ H5) | discriminate H5].
Qed.

Lemma compute_scores_raise flog div_freqs e :
  compute_scores flog div_freqs = Raise e ->
  Forall (fun entry : Z * Z => 1 <= snd entry) div_freqs ->
  e = ValueError \/ e = OverflowError.
Proof.
  unfold compute_scores; intros H Hpos.
  apply for_each_raise in H; destruct H as [[div freq] [scores [Hin H]]].
  rewrite Forall_forall in Hpos; specialize (Hpos _ Hin); cbn [snd] in Hpos.
  destruct (bind_raise _ _ _ H) as [H1|[score [_ H1]]]; [|discriminate H1].
  apply (score_of_raise _ _ _ H1); lia.
Qed.

Lemma compute_scores_keys flog div_freqs scores k :
  compute_scores flog div_freqs = Ok scores ->
  In k (dict_keys div_freqs) ->
  exists s, dict_getitem k scores = Ok s.
Proof.
  unfold compute_scores; intros H; revert k.
  revert H.
  apply (for_each_prefix_invariant
           (fun pre scores =>
              forall k, In k (dict_keys pre) ->
                        exists s, dict_getitem k scores = Ok s));
    [intros k [] |].
  intros pre [div freq] acc acc' Hpre Hb k Hk.
  apply bind_ok in Hb; destruct Hb as [score [_ Hb]]; injection Hb as <-.
  unfold dict_keys in Hk; rewrite map_app in Hk; cbn [map fst] in Hk.
  unfold dict_getitem.
  destruct (Z.eq_dec k div) as [->|Hne].
  - rewrite (get_set_same Z.eqb Z.eqb_eq); exists score; reflexivity.
  - rewrite (get_set_other Z.eqb Z.eqb_eq) by exact Hne.
    apply in_app_or in Hk; destruct Hk as [Hk|[Hk|[]]]; [|congruence].
    exact (Hpre k Hk).
Qed.

Lemma py_max_by_raise {A} (key : A -> result float) (items : list A) (e : exn) :
  py_max_by key items = Raise e ->
  (items = [] /\ e = ValueError) \/ exists x, In x items /\ key x = Raise e.
Proof.
  destruct items as [|x0 items]; cbn [py_max_by]; intros H.
  - left; split; [reflexivity | injection H as <-; reflexivity].
  - right; destruct (bind_raise _ _ _ H) as [H1|[k0 [_ H1]]];
      [exists x0; split; [left; reflexivity | exact H1]|].
    destruct (bind_raise _ _ _ H1) as [H2|[best [_ H2]]]; [|discriminate H2].
    apply for_each_raise in H2; destruct H2 as [y [b [Hy H2]]].
    destruct (bind_raise _ _ _ H2) as [H3|[ky [_ H3]]]; [|discriminate H3].
    exists y; split; [right; exact Hy | exact H3].
Qed.

Lemma dict_getitem_present {V} k (d : dict Z V) :
  In k (dict_keys d) -> exists v, dict_getitem k d = Ok v.
Proof.
  unfold dict_getitem, dict_keys; induction d as [|[k' v'] d IH];
    cbn [map fst In dict_get]; [intros []|].
  destruct (Z.eqb_spec k' k) as [_|Hne]; [exists v'; reflexivity|].
  intros [E|Hin]; [contradiction | exact (IH Hin)].
Qed.

(** The counts of the divisor table are positive. *)
Lemma dict_update_fresh k (f : Z -> Z) (d : dict Z Z) v :
  ~ In k (dict_keys d) ->
  dict_update Z.eqb k f (d ++ [(k, v)]) = d ++ [(k, f v)].
Proof.
  unfold dict_keys; induction d as [|[k' v'] d IH];
    cbn [map fst In app dict_update]; intros H.
  - rewrite Z.eqb_refl; reflexivity.
  - destruct (Z.eqb_spec k' k) as [->|_]; [exfalso; apply H; left; reflexivity|].
    rewrite IH; [reflexivity | intros Hin; apply H; right; exact Hin].
Qed.

Lemma count_divisor_positive old div_freqs c :
  Forall (fun entry : Z * Z => 1 <= snd entry) div_freqs ->
  Forall (fun entry : Z * Z => 1 <= snd entry)
         (snd (count_divisor (old, div_freqs) c)).
Proof.
  intros Hpos; unfold count_divisor.
  destruct (existsb _ old); cbn [snd]; [exact Hpos|].
  unfold dict_mem.
  destruct (dict_get Z.eqb (reduce_mul c) div_freqs) eqn:E; cbn [negb].
  - apply dict_update_Forall; [|exact Hpos].
    intros k' v' Hv _; cbn [snd] in *; lia.
  - pose proof (get_None Z.eqb Z.eqb_eq _ _ E) as Hfresh.
    rewrite (dict_set_fresh _ _ _ Hfresh), (dict_update_fresh _ _ _ _ Hfresh).
    apply Forall_app; split; [exact Hpos|].
    constructor; [cbn [snd]; lia | constructor].
Qed.

Lemma count_divisors_of_positive div_freqs divs :
  Forall (fun entry : Z * Z => 1 <= snd entry) div_freqs ->
  Forall (fun entry : Z * Z => 1 <= snd entry) (count_divisors_of div_freqs divs).
Proof.
  intros Hpos; unfold count_divisors_of.
  apply (fold_left_invariant
           (fun state : list (list Z) * dict Z Z =>
              Forall (fun entry : Z * Z => 1 <= snd entry) (snd state))
           (fun _ : Z => True)).
  - intros state r _ Hs.
    apply (fold_left_invariant
             (fun state : list (list Z) * dict Z Z =>
                Forall (fun entry : Z * Z => 1 <= snd entry) (snd state))
             (fun _ : list Z => True)).
    + intros [old df] c _ Hdf; apply count_divisor_positive, Hdf.
    + apply Forall_forall; intros; exact I.
    + exact Hs.
  - apply Forall_forall; intros; exact I.
  - exact Hpos.
Qed.

Lemma find_common_divisors_positive distances verbosity :
  Forall (fun entry : Z * Z => 1 <= snd entry)
         (find_common_divisors distances verbosity).
Proof.
  unfold find_common_divisors.
  apply (fold_left_invariant
           (fun df : dict Z Z => Forall (fun entry : Z * Z => 1 <= snd entry) df)
           (fun _ : list Z => True)).
  - intros df divs _ Hdf; apply count_divisors_of_positive, Hdf.
  - apply Forall_forall; intros; exact I.
  - constructor.
Qed.

Lemma sum_positive (l : list Z) (a : Z) :
  Forall (fun x => 1 <= x) l -> a + len l <= fold_left Z.add l a.
Proof.
  intros H; revert a; induction H as [|x l Hx Hl IH]; intros a;
    cbn [fold_left]; [unfold len; cbn; lia|].
  specialize (IH (a + x)); unfold len in *; cbn [List.length]; lia.
Qed.

(** The columns of the frequency analysis are not empty. *)
Lemma slice_step_first {A} (l : list A) (i step : Z) (d : A) :
  0 <= i < len l -> In (nth (Z.to_nat i) l d) (slice_step l i step).
Proof.
  intros Hi; unfold slice_step.
  apply in_map_iff; exists (i, nth (Z.to_nat i) l d); split; [reflexivity|].
  apply filter_In; split.
  - assert ((i, nth (Z.to_nat i) l d)
            = nth (Z.to_nat i) (combine (range 0 (len l)) l) (0, d)) as ->.
    { rewrite combine_nth by (rewrite range_length; unfold len; lia).
      rewrite nth_range by lia; f_equal; lia. }
    apply nth_In; rewrite length_combine, range_length; unfold len in *; lia.
  - rewrite Z.leb_refl, Z.sub_diag, Zmod_0_l; reflexivity.
Qed.

Lemma most_common_nonempty counts n :
  counts <> [] -> 1 <= n -> exists m rest, most_common counts n = m :: rest.
Proof.
  intros Hne Hn; unfold most_common.
  pose proof (by_count_Permutation counts) as Hp.
  destruct (fold_right insert_by_count [] counts) as [|m l].
  - apply Permutation_nil in Hp; contradiction.
  - destruct (Z.to_nat n) as [|k] eqn:E; [lia|].
    exists m, (firstn k l); reflexivity.
Qed.

Lemma most_common_letter_raise cypher key_length verbosity raw_key i e :
  0 <= i < len cypher ->
  most_common_letter cypher key_length verbosity raw_key i = Raise e ->
  e = IndexError /\ 2 <= verbosity.
Proof.
  intros Hi; unfold most_common_letter; cbv zeta.
  assert (counter (slice_step cypher i key_length) <> []) as Hne.
  { pose proof (In_counter _ _ (slice_step_first cypher i key_length 0 Hi)) as Hin.
    intros E; rewrite E in Hin; exact Hin. }
  destruct (most_common_nonempty _ 2 Hne ltac:(lia)) as [m [rest ->]].
  assert (getitem (m :: rest) 0 = Ok m) as -> by reflexivity.
  destruct (Z.leb_spec 2 verbosity) as [H2|H2];
    destruct (Z.leb_spec 3 verbosity) as [H3|H3]; try lia; cbn [bind];
    destruct (getitem (m :: rest) 1) as [second|e'] eqn:E1; cbn [bind];
    intros H; try discriminate H;
    injection H as <-; (split; [exact (getitem_raise _ _ _ E1) | exact H2]).
Qed.

(** ** The cipher *)

Section Cipher.

Variable unicode_upper : char -> str.
Variable flog : float -> float.

Local Abbreviation upper_char := (upper_char unicode_upper).
Local Abbreviation upper := (upper unicode_upper).
Local Abbreviation normalize_text := (normalize_text unicode_upper).
Local Abbreviation encrypt := (encrypt unicode_upper).
Local Abbreviation decrypt := (decrypt unicode_upper).
Local Abbreviation crack := (crack unicode_upper flog).

(** *** Normalisation *)

Lemma normalize_text_letters t : letters (normalize_text t).
Proof.
  unfold letters, normalize_text; apply Forall_forall; intros c Hc.
  apply filter_In in Hc; tauto.
Qed.

Lemma upper_char_letter c : in_alphabet c = true -> upper_char c = [c].
Proof.
  intros H; apply in_alphabet_iff in H; unfold upper_char.
  destruct (Z.leb_spec 97 c); [lia|]; simpl.
  destruct (Z.ltb_spec c 128); [reflexivity | lia].
Qed.

Lemma normalize_text_id s : letters s -> normalize_text s = s.
Proof.
  unfold letters, normalize_text, upper; induction 1 as [|c s Hc Hs IH]; [reflexivity|].
  simpl; rewrite (upper_char_letter c Hc); simpl; rewrite Hc, IH; reflexivity.
Qed.

Lemma normalize_text_idempotent t :
  normalize_text (normalize_text t) = normalize_text t.
Proof. apply normalize_text_id, normalize_text_letters. Qed.

Lemma normalize_text_ascii_letters k :
  Forall (fun c => is_ascii_letter c = true) k ->
  normalize_text k = map (fun c => 65 + key_offset c) k.
Proof.
  unfold normalize_text, upper; induction 1 as [|c k Hc Hk IH]; [reflexivity|].
  cbn [flat_map map]; rewrite filter_app, IH; clear IH.
  apply is_ascii_letter_iff in Hc; unfold upper_char, key_offset.
  destruct (Z.leb_spec 97 c); cbn [andb].
  - destruct (Z.leb_spec c 122); [|lia]; cbn [filter].
    replace (in_alphabet (c - 32)) with true
      by (symmetry; apply in_alphabet_iff; lia).
    cbn [app]; f_equal; lia.
  - destruct (Z.ltb_spec c 128); [|lia]; cbn [filter].
    replace (in_alphabet c) with true
      by (symmetry; apply in_alphabet_iff; lia).
    cbn [app]; f_equal; lia.
Qed.

Lemma key_offsets_letters k :
  letters k -> map_result alphabet_index k = Ok (map (fun c => c - 65) k).
Proof.
  intros H; apply map_result_ok; intros c Hc.
  apply alphabet_index_ok; revert c Hc; apply Forall_forall; exact H.
Qed.

(** *** The shift loop of [encrypt] and [decrypt] *)

(** The body shared by the two loops, with [op] the addition or the
    subtraction and [L] the length of the raw key. *)
Lemma shift_loop_ok (op : Z -> Z -> Z) (text : str) (key_offsets : list Z) (L : Z) :
  letters text -> 0 < L -> L <= len key_offsets ->
  for_each (range 0 (len text))
    (fun acc i =>
       p <- getitem text i ;;
       a <- alphabet_index p ;;
       j <- py_mod i L ;;
       k <- getitem key_offsets j ;;
       m <- py_mod (op a k) (len ALPHABET) ;;
       c <- getitem ALPHABET m ;;
       Ok (acc ++ [c]))
    []
  = Ok (map (fun i => 65 + op (nth (Z.to_nat i) text 0 - 65)
                             (nth (Z.to_nat (i mod L)) key_offsets 0) mod 26)
            (range 0 (len text))).
Proof.
  intros Ht HL Hk.
  set (g := fun i => 65 + op (nth (Z.to_nat i) text 0 - 65)
                          (nth (Z.to_nat (i mod L)) key_offsets 0) mod 26).
  rewrite for_each_ext with
    (b2 := fun acc i => c <- (fun i => Ok (g i)) i ;; Ok (acc ++ [c])).
  - rewrite (for_each_append_ok _ g) by reflexivity; reflexivity.
  - intros acc i Hi; apply in_range in Hi.
    rewrite (getitem_nth text i 0) by lia; simpl.
    rewrite alphabet_index_ok; simpl.
    2:{ unfold letters in Ht; rewrite Forall_forall in Ht; apply Ht.
        apply nth_In; unfold len in Hi; lia. }
    unfold py_mod at 1.
    destruct (Z.eqb_spec L 0); [lia|]; simpl.
    assert (0 <= i mod L < L) as Hm by (apply Z.mod_pos_bound; lia).
    rewrite (getitem_nth key_offsets (i mod L) 0) by lia; simpl.
    rewrite len_ALPHABET; unfold py_mod; simpl.
    rewrite alphabet_getitem by (apply Z.mod_pos_bound; lia).
    reflexivity.
Qed.

Lemma shift_loop_no_offsets (op : Z -> Z -> Z) (text : str) (L : Z) :
  letters text -> text <> [] ->
  for_each (range 0 (len text))
    (fun acc i =>
       p <- getitem text i ;;
       a <- alphabet_index p ;;
       j <- py_mod i L ;;
       k <- getitem (@nil Z) j ;;
       m <- py_mod (op a k) (len ALPHABET) ;;
       c <- getitem ALPHABET m ;;
       Ok (acc ++ [c]))
    []
  = if L =? 0 then Raise ZeroDivisionError else Raise IndexError.
Proof.
  intros Ht Hne; destruct text as [|p text]; [congruence|].
  rewrite range_cons by (unfold len; simpl; lia).
  inversion Ht as [|? ? Hp _]; subst.
  simpl; unfold getitem at 1; simpl.
  rewrite (alphabet_index_ok p Hp); simpl.
  unfold py_mod at 1; destruct (Z.eqb_spec L 0) as [->|HL]; [reflexivity|]; simpl.
  destruct L; [congruence | reflexivity | reflexivity].
Qed.


Lemma key_offsets_ascii_letters k :
  Forall (fun c => is_ascii_letter c = true) k ->
  map_result alphabet_index (normalize_text k) = Ok (map key_offset k).
Proof.
  intros H; rewrite key_offsets_letters by apply normalize_text_letters.
  rewrite (normalize_text_ascii_letters k H), map_map.
  f_equal; apply map_ext; intros c; lia.
Qed.

(** What the two functions compute under a key of ASCII letters. *)
Lemma shift_letter_key (op : Z -> Z -> Z) (text k : str) :
  letters text -> k <> [] -> Forall (fun c => is_ascii_letter c = true) k ->
  (key_offsets <- map_result alphabet_index (normalize_text k) ;;
   for_each (range 0 (len text))
     (fun acc i =>
        p <- getitem text i ;;
        a <- alphabet_index p ;;
        j <- py_mod i (len k) ;;
        o <- getitem key_offsets j ;;
        m <- py_mod (op a o) (len ALPHABET) ;;
        c <- getitem ALPHABET m ;;
        Ok (acc ++ [c]))
     [])
  = Ok (map (fun i => 65 + op (nth (Z.to_nat i) text 0 - 65)
                             (key_offset (nth (Z.to_nat (i mod len k)) k 0)) mod 26)
            (range 0 (len text))).
Proof.
  intros Ht Hne Hk.
  assert (0 < len k) as HL.
  { pose proof (len_nonneg k); pose proof (len_nil_iff k).
    destruct (Z.eq_dec (len k) 0); [tauto | lia]. }
  rewrite (key_offsets_ascii_letters k Hk); cbn [bind].
  rewrite shift_loop_ok; [|exact Ht|exact HL|unfold len; rewrite length_map; lia].
  f_equal; apply map_ext_in; intros i Hi.
  assert (0 <= i mod len k < len k) as Hm by (apply Z.mod_pos_bound; lia).
  rewrite (nth_indep (map key_offset k) 0 (key_offset 0))
    by (rewrite length_map; unfold len in *; lia).
  rewrite (map_nth key_offset k 0); reflexivity.
Qed.

Lemma encrypt_letter_key t k :
  k <> [] -> Forall (fun c => is_ascii_letter c = true) k ->
  encrypt t k
  = Ok (map (fun i => 65 + (nth (Z.to_nat i) (normalize_text t) 0 - 65
                            + key_offset (nth (Z.to_nat (i mod len k)) k 0)) mod 26)
            (range 0 (len (normalize_text t)))).
Proof.
  intros Hne Hk; unfold encrypt.
  apply (shift_letter_key Z.add); auto using normalize_text_letters.
Qed.

Lemma decrypt_letter_key t k :
  k <> [] -> Forall (fun c => is_ascii_letter c = true) k ->
  decrypt t k
  = Ok (map (fun i => 65 + (nth (Z.to_nat i) (normalize_text t) 0 - 65
                            - key_offset (nth (Z.to_nat (i mod len k)) k 0)) mod 26)
            (range 0 (len (normalize_text t)))).
Proof.
  intros Hne Hk; unfold decrypt.
  apply (shift_letter_key Z.sub); auto using normalize_text_letters.
Qed.

(** C10: under a non-empty key of ASCII letters, [encrypt] and [decrypt]
    return without an exception a string as long as the normalised text,
    made of letters of the alphabet; the letter at index [i] is the text's
    letter shifted (forward, respectively backward) by the offset of the key
    character at index [i mod len(key)], [key] being the raw key. *)
Theorem encrypt_decrypt_letter_key (t k : str) :
  k <> [] -> Forall (fun c => is_ascii_letter c = true) k ->
  exists c p,
    encrypt t k = Ok c /\ decrypt t k = Ok p /\
    len c = len (normalize_text t) /\ len p = len (normalize_text t) /\
    letters c /\ letters p /\
    forall i, 0 <= i < len (normalize_text t) ->
      exists x kc,
        getitem (normalize_text t) i = Ok x /\
        getitem k (i mod len k) = Ok kc /\
        getitem c i = Ok (65 + (x - 65 + key_offset kc) mod 26) /\
        getitem p i = Ok (65 + (x - 65 - key_offset kc) mod 26).
Proof.
  intros Hne Hk.
  rewrite (encrypt_letter_key t k Hne Hk), (decrypt_letter_key t k Hne Hk).
  do 2 eexists; split; [reflexivity|]; split; [reflexivity|].
  pose proof (len_nonneg (normalize_text t)) as Hn.
  rewrite !len_map_range by exact Hn.
  split; [reflexivity|]; split; [reflexivity|].
  split; [apply shifted_letters with (g := fun i => _)|].
  split; [apply shifted_letters with (g := fun i => _)|].
  intros i Hi.
  assert (0 < len k) as HL.
  { pose proof (len_nonneg k); pose proof (len_nil_iff k).
    destruct (Z.eq_dec (len k) 0); [tauto | lia]. }
  assert (0 <= i mod len k < len k) as Hm by (apply Z.mod_pos_bound; lia).
  exists (nth (Z.to_nat i) (normalize_text t) 0),
         (nth (Z.to_nat (i mod len k)) k 0).
  rewrite (getitem_nth _ i 0) by exact Hi.
  rewrite (getitem_nth k _ 0) by exact Hm.
  rewrite !getitem_map_range by exact Hi.
  repeat split.
Qed.

(** Round trip under a key of ASCII letters. *)
Lemma decrypt_encrypt_letter_key (t k c : str) :
  k <> [] -> Forall (fun c => is_ascii_letter c = true) k ->
  encrypt t k = Ok c -> decrypt c k = Ok (normalize_text t).
Proof.
  intros Hne Hk He.
  rewrite (encrypt_letter_key t k Hne Hk) in He.
  apply (f_equal (fun r => match r with Ok x => x | Raise _ => c end)) in He.
  subst c.
  rewrite (decrypt_letter_key _ k Hne Hk).
  set (nt := normalize_text t).
  pose proof (len_nonneg nt) as Hn.
  rewrite normalize_text_id by (apply shifted_letters with (g := fun i => _)).
  rewrite len_map_range by exact Hn.
  assert (0 < len k) as HL.
  { pose proof (len_nonneg k); pose proof (len_nil_iff k).
    destruct (Z.eq_dec (len k) 0); [tauto | lia]. }
  apply f_equal.
  apply nth_ext with (d := 0) (d' := 0).
  { rewrite length_map, range_length; unfold len; lia. }
  intros j Hj; rewrite length_map, range_length in Hj.
  assert (0 <= Z.of_nat j < len nt) as Hi by (unfold len in *; lia).
  rewrite nth_map_range by lia.
  rewrite Nat2Z.id, nth_map_range by lia.
  rewrite Nat2Z.id.
  set (o := key_offset _).
  assert (65 <= nth j nt 0 <= 90) as Hx.
  { apply in_alphabet_iff.
    pose proof (normalize_text_letters t) as Hl; fold nt in Hl; unfold letters in Hl.
    rewrite Forall_forall in Hl; apply Hl, nth_In; unfold len in Hi; lia. }
  replace (65 + (nth j nt 0 - 65 + o) mod 26 - 65 - o)
    with ((nth j nt 0 - 65 + o) mod 26 - o) by lia.
  rewrite Zminus_mod_idemp_l.
  replace (nth j nt 0 - 65 + o - o) with (nth j nt 0 - 65) by lia.
  rewrite Z.mod_small by lia; lia.
Qed.

(** C1, at the key ["A-"]: its normal form ["A"] is not empty, the offsets
    are those of ["A"], the index into them is taken modulo the length 2 of
    the raw key, and the second letter of the text is out of range. *)
Theorem encrypt_raw_key_index_error :
  normalize_text (lit "A-") = lit "A" /\
  normalize_text (lit "AB") = lit "AB" /\
  encrypt (lit "AB") (lit "A-") = Raise IndexError.
Proof. repeat split. Qed.

(** C4 as amended: under a key whose normal form is empty, [encrypt] and
    [decrypt] return the empty string when the normalised text is empty;
    otherwise they raise [ZeroDivisionError] when the raw key is empty and
    [IndexError] when it is not. *)
Theorem encrypt_decrypt_empty_key (t k : str) :
  normalize_text k = [] ->
  let outcome :=
    match normalize_text t, k with
    | [], _ => Ok []
    | _ :: _, [] => Raise ZeroDivisionError
    | _ :: _, _ :: _ => Raise IndexError
    end in
  encrypt t k = outcome /\ decrypt t k = outcome.
Proof.
  intros Hk; unfold encrypt, decrypt; rewrite Hk; cbn [map_result bind].
  destruct (normalize_text t) as [|x nt] eqn:E; [split; reflexivity|].
  assert (letters (x :: nt)) as Hl by (rewrite <- E; apply normalize_text_letters).
  cbv zeta.
  rewrite !shift_loop_no_offsets by (auto; discriminate).
  destruct k; [split; reflexivity|].
  unfold len; cbn [List.length]; rewrite Nat2Z.inj_succ.
  destruct (Z.eqb_spec (Z.succ (Z.of_nat (List.length k))) 0); [lia|].
  split; reflexivity.
Qed.


(** *** Every text and every key *)

(** X1: [normalize_text] returns letters of the alphabet only and leaves a
    normalised text as it is. *)
Theorem normalize_text_normal (t : str) :
  letters (normalize_text t) /\
  normalize_text (normalize_text t) = normalize_text t.
Proof.
  split; [apply normalize_text_letters | apply normalize_text_idempotent].
Qed.

Lemma shift_functions_outcome (t k : str) :
  encrypt t k = shift_outcome Z.add (normalize_text t) (normalize_text k) (len k) /\
  decrypt t k = shift_outcome Z.sub (normalize_text t) (normalize_text k) (len k).
Proof.
  assert (forall op,
    (key_offsets <- map_result alphabet_index (normalize_text k) ;;
     for_each (range 0 (len (normalize_text t)))
       (fun acc i =>
          p <- getitem (normalize_text t) i ;;
          a <- alphabet_index p ;;
          j <- py_mod i (len k) ;;
          o <- getitem key_offsets j ;;
          m <- py_mod (op a o) (len ALPHABET) ;;
          c <- getitem ALPHABET m ;;
          Ok (acc ++ [c]))
       [])
    = shift_outcome op (normalize_text t) (normalize_text k) (len k)) as H.
  { intros op.
    rewrite key_offsets_letters by apply normalize_text_letters; cbn [bind].
    rewrite shift_loop_outcome
      by (apply normalize_text_letters || apply len_nonneg).
    unfold shift_outcome.
    replace (len (map (fun c => c - 65) (normalize_text k)))
      with (len (normalize_text k)) by (unfold len; rewrite length_map; reflexivity).
    pose proof (len_nonneg (normalize_text t)) as HN.
    pose proof (len_nonneg k) as HL.
    destruct (len (normalize_text t) =? 0); [reflexivity|].
    destruct (Z.eqb_spec (len k) 0); [reflexivity|].
    destruct (Z.ltb_spec (len (normalize_text k))
                         (Z.min (len (normalize_text t)) (len k))); [reflexivity|].
    f_equal; apply map_ext_in; intros i Hi; apply in_range in Hi.
    assert (0 <= i mod len k < len k) as Hm by (apply Z.mod_pos_bound; lia).
    assert (i mod len k <= i) by (apply Z.mod_le; lia).
    rewrite (nth_indep (map (fun c => c - 65) (normalize_text k)) 0
                       ((fun c => c - 65) 0))
      by (rewrite length_map; unfold len in *; lia).
    rewrite (map_nth (fun c => c - 65)); reflexivity. }
  split; [apply (H Z.add) | apply (H Z.sub)].
Qed.

(** X2: what [encrypt] and [decrypt] do on every text and key, with [N]
    the length of the normalised text, [M] that of the normalised key and
    [L] that of the raw key: the empty string when [N = 0]; otherwise
    [ZeroDivisionError] when [L = 0], [IndexError] when [M < min(N, L)], and
    else the text shifted letter by letter by the first [min(N, L)] offsets
    of the normalised key, at the index [i mod L]. *)
Theorem encrypt_decrypt_outcome (t k : str) :
  encrypt t k = shift_outcome Z.add (normalize_text t) (normalize_text k) (len k) /\
  decrypt t k = shift_outcome Z.sub (normalize_text t) (normalize_text k) (len k).
Proof. apply shift_functions_outcome. Qed.

(** X3: whenever [encrypt] or [decrypt] returns, the result is made of
    letters of the alphabet and is as long as the normalised text. *)
Theorem encrypt_decrypt_returns_letters (t k c : str) :
  encrypt t k = Ok c \/ decrypt t k = Ok c ->
  len c = len (normalize_text t) /\ letters c.
Proof.
  destruct (shift_functions_outcome t k) as [He Hd].
  intros [H|H]; [rewrite He in H | rewrite Hd in H];
    exact (shift_outcome_letters _ _ _ _ _ H).
Qed.

(** X4: with every key, what [encrypt] returns [decrypt] turns back into
    the normalised text. *)
Theorem decrypt_inverts_encrypt (t k c : str) :
  encrypt t k = Ok c -> decrypt c k = Ok (normalize_text t).
Proof.
  intros H.
  destruct (shift_functions_outcome t k) as [He _]; rewrite He in H.
  destruct (shift_functions_outcome c k) as [_ Hd]; rewrite Hd.
  destruct (shift_outcome_letters _ _ _ _ _ H) as [_ Hc].
  rewrite (normalize_text_id c Hc).
  refine (shift_outcome_inverse Z.add Z.sub _ _ _ _ _
                                (normalize_text_letters t) H).
  intros a o; rewrite Zminus_mod_idemp_l; f_equal; lia.
Qed.

(** X5: with every key, what [decrypt] returns [encrypt] turns back into
    the normalised text. *)
Theorem encrypt_inverts_decrypt (t k p : str) :
  decrypt t k = Ok p -> encrypt p k = Ok (normalize_text t).
Proof.
  intros H.
  destruct (shift_functions_outcome t k) as [_ Hd]; rewrite Hd in H.
  destruct (shift_functions_outcome p k) as [He _]; rewrite He.
  destruct (shift_outcome_letters _ _ _ _ _ H) as [_ Hp].
  rewrite (normalize_text_id p Hp).
  refine (shift_outcome_inverse Z.sub Z.add _ _ _ _ _
                                (normalize_text_letters t) H).
  intros a o; rewrite Zplus_mod_idemp_l; f_equal; lia.
Qed.

(** *** [crack] *)

(** C3 as amended: when the table of divisors is empty, and so whenever the
    normalised ciphertext has fewer than 3 letters, [crack] raises the
    [ValueError] of [max] on an empty dictionary. *)
Theorem crack_empty_table (cypher : str) (verbosity : Z) :
  let div_freqs :=
    find_common_divisors
      (calc_distances (find_multiples (normalize_text cypher) verbosity) verbosity)
      verbosity in
  len (normalize_text cypher) < 3 \/ div_freqs = [] ->
  div_freqs = [] /\ crack cypher verbosity = Raise ValueError.
Proof.
  intros div_freqs H.
  assert (div_freqs = []) as E.
  { destruct H as [H|H]; [|exact H].
    unfold div_freqs; rewrite find_multiples_short by exact H; reflexivity. }
  split; [exact E|].
  unfold crack; cbv zeta; fold div_freqs; rewrite E; reflexivity.
Qed.

(** C5, at the ciphertext ["AAAAAAA"]: the inferred key length is 2 and
    each of the two columns holds the letter A only, so [most_common(2)] has
    one entry; reading the second one, under [verbosity >= 2], raises
    [IndexError], and without it [crack] returns. *)
Theorem crack_verbosity_index_error :
  crack (lit "AAAAAAA") 0 = Ok (lit "EEEEEEE", lit "WW") /\
  crack (lit "AAAAAAA") 1 = Ok (lit "EEEEEEE", lit "WW") /\
  crack (lit "AAAAAAA") 2 = Raise IndexError.
Proof. repeat split; vm_compute; reflexivity. Qed.

(** C9: when [crack] returns, the plaintext it returns is the decryption
    of the normalised ciphertext under the key it returns. *)
Theorem crack_plain_key_consistent (cypher : str) (verbosity : Z)
        (plain key : str) :
  crack cypher verbosity = Ok (plain, key) ->
  decrypt (normalize_text cypher) key = Ok plain.
Proof.
  intros H; unfold crack in H; cbv zeta in H.
  repeat (apply bind_ok in H; destruct H as [? [? H]]).
  apply (f_equal (fun r => match r with Ok x => x | Raise _ => (plain, key) end)) in H.
  inversion H; subst; assumption.
Qed.

(** What a run of [crack] that returns has gone through. *)
Lemma crack_ok cypher verbosity plain key :
  crack cypher verbosity = Ok (plain, key) ->
  exists key_length raw_key,
    In key_length
       (dict_keys
          (find_common_divisors
             (calc_distances (find_multiples (normalize_text cypher) verbosity)
                             verbosity)
             verbosity)) /\
    for_each (range 0 key_length)
             (most_common_letter (normalize_text cypher) key_length verbosity) []
    = Ok raw_key /\
    decrypt raw_key (str_mul MOST_COMMON_LETTER key_length) = Ok key /\
    decrypt (normalize_text cypher) key = Ok plain.
Proof.
  intros H; unfold crack in H; cbv zeta in H.
  apply bind_ok in H; destruct H as [scores [_ H]].
  apply bind_ok in H; destruct H as [top_div [Htop H]].
  apply bind_ok in H; destruct H as [top_freq [_ H]].
  apply bind_ok in H; destruct H as [confidence [_ H]].
  apply bind_ok in H; destruct H as [u1 [_ H]].
  apply bind_ok in H; destruct H as [u2 [_ H]].
  apply bind_ok in H; destruct H as [raw_key [Hraw H]].
  apply bind_ok in H; destruct H as [key' [Hkey H]].
  apply bind_ok in H; destruct H as [plain' [Hplain H]].
  apply (f_equal (fun r => match r with Ok x => x | Raise _ => (plain, key) end)) in H.
  inversion H; subst plain' key'.
  exists top_div, raw_key; repeat split; try assumption.
  unfold select_top_div in Htop; apply py_max_by_In in Htop; exact Htop.
Qed.

(** The key length of a run that returns: a proper divisor of a distance
    between two starts of a repeated substring. *)
Lemma key_length_divides_distance cypher verbosity key_length :
  In key_length
     (dict_keys
        (find_common_divisors
           (calc_distances (find_multiples cypher verbosity) verbosity)
           verbosity)) ->
  exists ngram p q,
    3 <= len ngram <= 16 /\
    occurs_at cypher ngram p /\ occurs_at cypher ngram q /\ p < q /\
    (key_length | q - p) /\ 2 <= key_length /\ 2 * key_length <= q - p.
Proof.
  intros H; apply find_common_divisors_keys in H; destruct H as [d [Hd Hp]].
  apply proper_subproduct_half in Hp; destruct Hp as [H2 [Hhalf Hdiv]].
  destruct (calc_distances_repeats _ _ _ Hd) as [ngram [p [q [Hl [Hp [Hq [Hpq ->]]]]]]].
  exists ngram, p, q.
  split; [exact Hl|]; split; [exact Hp|]; split; [exact Hq|].
  split; [exact Hpq|]; split; [exact Hdiv|]; split; [exact H2 | exact Hhalf].
Qed.

(** The loop over the columns: one letter per column, the first of
    [most_common]. *)
Lemma raw_key_spec cypher key_length verbosity raw_key :
  0 <= key_length ->
  for_each (range 0 key_length)
           (most_common_letter cypher key_length verbosity) [] = Ok raw_key ->
  len raw_key = key_length /\
  forall i, 0 <= i < key_length ->
    exists m rest,
      most_common (counter (slice_step cypher i key_length)) 2 = m :: rest /\
      nth (Z.to_nat i) raw_key 0 = fst m.
Proof.
  intros HL.
  apply (for_each_range_invariant
           (fun k rk =>
              len rk = k /\
              forall i, 0 <= i < k ->
                exists m rest,
                  most_common (counter (slice_step cypher i key_length)) 2
                  = m :: rest /\
                  nth (Z.to_nat i) rk 0 = fst m)); [exact HL | |].
  - split; [reflexivity | intros i Hi; lia].
  - intros k rk rk' Hk [Hlen Hnth] Hstep.
    apply most_common_letter_ok in Hstep; destruct Hstep as [m [rest [Hm ->]]].
    split; [rewrite len_app, Hlen; reflexivity|].
    intros i Hi; destruct (Z.eq_dec i k) as [->|Hne].
    + exists m, rest; split; [exact Hm|].
      rewrite app_nth2 by (unfold len in Hlen; lia).
      replace (Z.to_nat k - List.length rk)%nat with 0%nat
        by (unfold len in Hlen; lia).
      reflexivity.
    + destruct (Hnth i) as [m' [rest' [Hm' E]]]; [lia|].
      exists m', rest'; split; [exact Hm'|].
      rewrite app_nth1 by (unfold len in Hlen; lia); exact E.
Qed.

Lemma str_mul_letter c n : str_mul [c] n = repeat c (Z.to_nat n).
Proof.
  unfold str_mul; induction (Z.to_nat n) as [|m IH]; cbn [repeat List.concat app];
    [reflexivity | rewrite IH; reflexivity].
Qed.

(** [decrypt(raw_key, "E"*key_length)] shifts each letter back by 4. *)
Lemma decrypt_raw_key raw_key key_length :
  letters raw_key -> len raw_key = key_length ->
  decrypt raw_key (str_mul MOST_COMMON_LETTER key_length)
  = Ok (map (fun c => 65 + (c - 69) mod 26) raw_key).
Proof.
  intros Hl Hlen.
  destruct (shift_functions_outcome raw_key (str_mul MOST_COMMON_LETTER key_length))
    as [_ ->].
  change MOST_COMMON_LETTER with [69]; rewrite str_mul_letter.
  assert (letters (repeat 69 (Z.to_nat key_length))) as Hrep.
  { apply Forall_forall; intros x Hx; apply repeat_spec in Hx; subst x; reflexivity. }
  rewrite (normalize_text_id _ Hl), (normalize_text_id _ Hrep).
  assert (len (repeat 69 (Z.to_nat key_length)) = key_length) as Hk
    by (unfold len in *; rewrite repeat_length; lia).
  unfold shift_outcome; rewrite Hk, Hlen.
  destruct (Z.eqb_spec key_length 0) as [E0|Hne].
  - rewrite E0 in Hlen; apply len_nil_iff in Hlen; subst raw_key.
    reflexivity.
  - destruct (Z.ltb_spec key_length (Z.min key_length key_length)); [lia|].
    f_equal; subst key_length.
    apply (nth_ext _ _ 0 0).
    + rewrite !length_map, range_length; unfold len; lia.
    + intros j Hj; rewrite length_map, range_length in Hj.
      assert (j < List.length raw_key)%nat as Hj' by (unfold len in Hj; lia).
      rewrite nth_map_range by (unfold len; lia).
      rewrite (nth_indep (map _ raw_key) 0 ((fun c => 65 + (c - 69) mod 26) 0))
        by (rewrite length_map; exact Hj').
      rewrite (map_nth (fun c => 65 + (c - 69) mod 26)).
      rewrite Nat2Z.id.
      assert (0 <= Z.of_nat j mod len raw_key < len raw_key) as Hm
        by (apply Z.mod_pos_bound; unfold len in *; lia).
      rewrite (nth_indep (repeat 69 _) 0 69)
        by (rewrite repeat_length; lia).
      rewrite nth_repeat; f_equal; f_equal; lia.
Qed.

Lemma raw_key_letters cypher key_length verbosity raw_key :
  letters cypher -> 0 <= key_length ->
  for_each (range 0 key_length)
           (most_common_letter cypher key_length verbosity) [] = Ok raw_key ->
  letters raw_key.
Proof.
  intros Hc HL H.
  destruct (raw_key_spec _ _ _ _ HL H) as [Hlen Hnth].
  apply Forall_forall; intros x Hx.
  destruct (In_nth _ _ 0 Hx) as [j [Hj <-]].
  destruct (Hnth (Z.of_nat j)) as [m [rest [Hm E]]];
    [unfold len in Hlen; lia|].
  rewrite Nat2Z.id in E; rewrite E.
  destruct (most_common_first _ _ _ _ Hm) as [Hin _].
  destruct m as [ch n]; apply counter_In in Hin; destruct Hin as [_ Hin].
  apply slice_step_In in Hin.
  unfold letters in Hc; rewrite Forall_forall in Hc; apply Hc, Hin.
Qed.

(** X10: the verbosity never changes what [crack] returns: a run that
    returns under one verbosity returns the same pair under every lower
    one. *)
Theorem crack_verbosity_only_adds_failures (cypher : str) (v v' : Z)
        (r : str * str) :
  v' <= v -> crack cypher v = Ok r -> crack cypher v' = Ok r.
Proof.
  intros Hv H; unfold crack in *; cbv zeta in *.
  change (find_multiples (normalize_text cypher) v')
    with (find_multiples (normalize_text cypher) v).
  change (calc_distances (find_multiples (normalize_text cypher) v) v')
    with (calc_distances (find_multiples (normalize_text cypher) v) v).
  change (find_common_divisors
            (calc_distances (find_multiples (normalize_text cypher) v) v) v')
    with (find_common_divisors
            (calc_distances (find_multiples (normalize_text cypher) v) v) v).
  apply bind_ok in H; destruct H as [scores [-> H]]; cbn [bind].
  apply bind_ok in H; destruct H as [top_div [-> H]]; cbn [bind].
  apply bind_ok in H; destruct H as [top_freq [-> H]]; cbn [bind].
  apply bind_ok in H; destruct H as [confidence [-> H]]; cbn [bind].
  apply bind_ok in H; destruct H as [[] [H1 H]].
  apply bind_ok in H; destruct H as [[] [H2 H]].
  apply bind_ok in H; destruct H as [raw_key [Hraw H]].
  assert ((if 1 <=? v'
           then share <- int_truediv top_freq
                           (fold_left Z.add
                              (dict_values
                                 (find_common_divisors
                                    (calc_distances
                                       (find_multiples (normalize_text cypher) v) v)
                                    v)) 0) ;;
                Ok tt
           else Ok tt) = Ok tt) as ->.
  { destruct (Z.leb_spec 1 v'); [|reflexivity].
    destruct (Z.leb_spec 1 v); [exact H1 | lia]. }
  cbn [bind].
  assert ((if 2 <=? v'
           then for_each
                  (dict_values
                     (find_common_divisors
                        (calc_distances
                           (find_multiples (normalize_text cypher) v) v) v))
                  (fun _ value =>
                     share <- int_truediv value
                                (fold_left Z.add
                                   (dict_values
                                      (find_common_divisors
                                         (calc_distances
                                            (find_multiples (normalize_text cypher) v)
                                            v) v)) 0) ;;
                     Ok tt) tt
           else Ok tt) = Ok tt) as ->.
  { destruct (Z.leb_spec 2 v'); [|reflexivity].
    destruct (Z.leb_spec 2 v); [exact H2 | lia]. }
  cbn [bind].
  rewrite (for_each_verbosity _ _ _ _ _ _ _ Hv Hraw); cbn [bind].
  exact H.
Qed.

(** X11: when [crack] returns, the key and the plaintext are made of
    letters of the alphabet, the plaintext is as long as the normalised
    ciphertext, and [encrypt] turns the plaintext back into the normalised
    ciphertext under the key. *)
Theorem crack_result_encrypts_back (cypher : str) (verbosity : Z)
        (plain key : str) :
  crack cypher verbosity = Ok (plain, key) ->
  letters key /\ letters plain /\
  len plain = len (normalize_text cypher) /\
  encrypt plain key = Ok (normalize_text cypher).
Proof.
  intros H; apply crack_ok in H.
  destruct H as [key_length [raw_key [_ [_ [Hkey Hplain]]]]].
  destruct (shift_functions_outcome raw_key (str_mul MOST_COMMON_LETTER key_length))
    as [_ Ek]; rewrite Ek in Hkey.
  destruct (shift_outcome_letters _ _ _ _ _ Hkey) as [_ Hkl].
  destruct (shift_functions_outcome (normalize_text cypher) key) as [_ Ep].
  rewrite Ep, normalize_text_idempotent in Hplain.
  destruct (shift_outcome_letters _ _ _ _ _ Hplain) as [Hlen Hpl].
  split; [exact Hkl|]; split; [exact Hpl|]; split; [exact Hlen|].
  destruct (shift_functions_outcome plain key) as [-> _].
  rewrite (normalize_text_id plain Hpl).
  refine (shift_outcome_inverse Z.sub Z.add _ _ _ _ _
                                (normalize_text_letters cypher) Hplain).
  intros a o; rewrite Zplus_mod_idemp_l; f_equal; lia.
Qed.

(** X12: when [crack] returns, the length of the key is a proper divisor
    of the distance between two starts of a substring of 3 to 16 letters
    that is repeated in the normalised ciphertext; it is at least 2 and at
    most half that distance, so the ciphertext has 7 letters at least. *)
Theorem crack_key_length (cypher : str) (verbosity : Z) (plain key : str) :
  crack cypher verbosity = Ok (plain, key) ->
  (exists ngram p q,
      3 <= len ngram <= 16 /\
      occurs_at (normalize_text cypher) ngram p /\
      occurs_at (normalize_text cypher) ngram q /\ p < q /\
      (len key | q - p) /\ 2 * len key <= q - p) /\
  2 <= len key /\
  2 * len key + 3 <= len (normalize_text cypher).
Proof.
  intros H; apply crack_ok in H.
  destruct H as [key_length [raw_key [HL [Hraw [Hkey _]]]]].
  apply key_length_divides_distance in HL.
  destruct HL as [ngram [p [q [Hl [Hp [Hq [Hpq [Hdiv [H2 Hhalf]]]]]]]]].
  assert (0 <= key_length) as H0 by lia.
  pose proof (raw_key_letters _ _ _ _ (normalize_text_letters cypher) H0 Hraw)
    as Hletters.
  destruct (raw_key_spec _ _ _ _ H0 Hraw) as [Hlen _].
  rewrite (decrypt_raw_key _ _ Hletters Hlen) in Hkey.
  apply (f_equal (fun r => match r with Ok x => len x | Raise _ => len key end))
    in Hkey.
  cbv beta iota in Hkey.
  assert (len key = key_length) as Ek
    by (rewrite <- Hkey, <- Hlen; unfold len; rewrite length_map; reflexivity).
  rewrite Ek.
  split.
  { exists ngram, p, q.
    split; [exact Hl|]; split; [exact Hp|]; split; [exact Hq|].
    split; [exact Hpq|]; split; [exact Hdiv | exact Hhalf]. }
  split; [exact H2|].
  destruct Hp as [Hp0 [Hp1 _]]; destruct Hq as [Hq0 [Hq1 _]]; lia.
Qed.

(** X13: when [crack] returns, each letter of the key is the shift that
    turns a most frequent letter of its column of the normalised ciphertext,
    the letters at the indices [i], [i + len(key)], ..., into E. *)
Theorem crack_key_most_common (cypher : str) (verbosity : Z)
        (plain key : str) (i : Z) :
  crack cypher verbosity = Ok (plain, key) -> 0 <= i < len key ->
  exists m,
    In m (slice_step (normalize_text cypher) i (len key)) /\
    (forall c, count (slice_step (normalize_text cypher) i (len key)) c
               <= count (slice_step (normalize_text cypher) i (len key)) m) /\
    nth (Z.to_nat i) key 0 = 65 + (m - 69) mod 26.
Proof.
  intros H Hi; apply crack_ok in H.
  destruct H as [key_length [raw_key [HL [Hraw [Hkey _]]]]].
  apply key_length_divides_distance in HL.
  destruct HL as [_ [_ [_ [_ [_ [_ [_ [_ [H2 _]]]]]]]]].
  assert (0 <= key_length) as H0 by lia.
  pose proof (raw_key_letters _ _ _ _ (normalize_text_letters cypher) H0 Hraw)
    as Hletters.
  destruct (raw_key_spec _ _ _ _ H0 Hraw) as [Hlen Hnth].
  rewrite (decrypt_raw_key _ _ Hletters Hlen) in Hkey.
  apply (f_equal (fun r => match r with Ok x => x | Raise _ => key end)) in Hkey.
  cbv beta iota in Hkey; subst key.
  assert (len (map (fun c => 65 + (c - 69) mod 26) raw_key) = key_length) as Ek
    by (rewrite <- Hlen; unfold len; rewrite length_map; reflexivity).
  rewrite Ek in *.
  destruct (Hnth i Hi) as [[m n] [rest [Hm E]]]; cbn [fst] in E.
  destruct (most_common_first _ _ _ _ Hm) as [Hin Hmax].
  apply counter_In in Hin; destruct Hin as [-> Hin].
  exists m; split; [exact Hin|]; split.
  - intros c.
    set (column := slice_step (normalize_text cypher) i key_length) in *.
    destruct (in_dec Z.eq_dec c column) as [Hc|Hc].
    + apply In_counter in Hc; apply (Hmax _ Hc).
    + assert (count column c = 0) as ->.
      { pose proof (count_nonneg column c).
        destruct (Z.eq_dec (count column c) 0) as [E0|E0]; [exact E0|].
        exfalso; apply Hc, count_pos_In; lia. }
      apply count_nonneg.
  - rewrite (nth_indep _ 0 ((fun c => 65 + (c - 69) mod 26) 0))
      by (rewrite length_map; unfold len in Hlen; lia).
    rewrite (map_nth (fun c => 65 + (c - 69) mod 26)), E; reflexivity.
Qed.

(** X14: [crack] raises nothing but the [ValueError] of an empty table of
    divisors or of the logarithm, the [OverflowError] of a conversion to
    float and, under [verbosity >= 2] only, the [IndexError] of the verbose
    listing: no division by zero, no missing key, and under a lower
    verbosity no index out of range. *)
Theorem crack_raises (cypher : str) (verbosity : Z) (e : exn) :
  crack cypher verbosity = Raise e ->
  e = ValueError \/ e = OverflowError \/ (e = IndexError /\ 2 <= verbosity).
Proof.
  intros H; unfold crack in H; cbv zeta in H.
  set (c := normalize_text cypher) in *.
  set (distances := calc_distances (find_multiples c verbosity) verbosity) in *.
  set (div_freqs := find_common_divisors distances verbosity) in *.
  pose proof (find_common_divisors_positive distances verbosity) as Hpos.
  destruct (bind_raise _ _ _ H) as [H1|[scores [Hs H1]]].
  { destruct (compute_scores_raise _ _ _ H1 Hpos) as [->| ->];
      [left | right; left]; reflexivity. }
  clear H; destruct (bind_raise _ _ _ H1) as [H2|[top_div [Htop H2]]].
  { unfold select_top_div in H2.
    destruct (py_max_by_raise _ _ _ H2) as [[_ ->]|[x [Hx Hk]]];
      [left; reflexivity|].
    destruct (compute_scores_keys _ _ _ _ Hs Hx) as [s Es].
    rewrite Es in Hk; discriminate Hk. }
  clear H1; unfold select_top_div in Htop; apply py_max_by_In in Htop.
  destruct (dict_getitem_present _ _ Htop) as [top_freq Etf].
  rewrite Etf in H2; cbn [bind] in H2.
  assert (1 <= len distances) as Hdl.
  { destruct (find_common_divisors_keys distances verbosity top_div Htop)
      as [d [Hd _]].
    pose proof (len_nonneg distances) as Hn.
    destruct (Z.eq_dec (len distances) 0) as [E|E]; [|lia].
    apply len_nil_iff in E; rewrite E in Hd; destruct Hd. }
  assert (1 <= fold_left Z.add (dict_values div_freqs) 0) as Hdt.
  { assert (Forall (fun x => 1 <= x) (dict_values div_freqs)) as Hv.
    { unfold dict_values; apply Forall_forall; intros x Hx.
      apply in_map_iff in Hx; destruct Hx as [entry [<- Hin]].
      rewrite Forall_forall in Hpos; exact (Hpos _ Hin). }
    pose proof (sum_positive _ 0 Hv) as Hsum.
    assert (1 <= len (dict_values div_freqs)); [|lia].
    unfold dict_values, dict_keys, len in *; rewrite length_map.
    destruct div_freqs; [destruct Htop | cbn [List.length]; lia]. }
  destruct (bind_raise _ _ _ H2) as [H3|[confidence [_ H3]]].
  { right; left; apply (int_truediv_raise _ _ _ H3); lia. }
  clear H2; destruct (bind_raise _ _ _ H3) as [H4|[u1 [_ H4]]].
  { destruct (1 <=? verbosity); [|discriminate H4].
    destruct (bind_raise _ _ _ H4) as [H5|[sh [_ H5]]]; [|discriminate H5].
    right; left; apply (int_truediv_raise _ _ _ H5); lia. }
  clear H3; destruct (bind_raise _ _ _ H4) as [H5|[u2 [_ H5]]].
  { destruct (2 <=? verbosity); [|discriminate H5].
    apply for_each_raise in H5; destruct H5 as [value [u [_ H5]]].
    destruct (bind_raise _ _ _ H5) as [H6|[sh [_ H6]]]; [|discriminate H6].
    right; left; apply (int_truediv_raise _ _ _ H6); lia. }
  clear H4.
  destruct (key_length_divides_distance c verbosity top_div Htop)
    as [ngram [p [q [_ [Hp [Hq [Hpq [_ [HL2 Hhalf]]]]]]]]].
  assert (top_div <= len c) as HLc.
  { destruct Hp as [Hp0 [Hp1 _]]; destruct Hq as [Hq0 [Hq1 _]].
    pose proof (len_nonneg ngram); lia. }
  destruct (bind_raise _ _ _ H5) as [H6|[raw_key [Hraw H6]]].
  { apply for_each_raise in H6; destruct H6 as [i [rk [Hi H6]]].
    apply in_range in Hi.
    assert (0 <= i < len c) as Hi' by lia.
    right; right; exact (most_common_letter_raise _ _ _ _ _ _ Hi' H6). }
  clear H5.
  assert (0 <= top_div) as H0 by lia.
  pose proof (raw_key_letters _ _ _ _ (normalize_text_letters cypher) H0 Hraw)
    as Hletters.
  destruct (raw_key_spec _ _ _ _ H0 Hraw) as [Hlen _].
  rewrite (decrypt_raw_key _ _ Hletters Hlen) in H6; cbn [bind] in H6.
  rewrite (decrypt_letter_key c) in H6; [discriminate H6 | |].
  - intros E; apply (f_equal (@List.length Z)) in E.
    rewrite length_map in E; unfold len in Hlen; cbn [List.length] in E; lia.
  - apply Forall_forall; intros x Hx.
    apply in_map_iff in Hx; destruct Hx as [y [<- _]].
    apply is_ascii_letter_iff.
    pose proof (Z.mod_pos_bound (y - 69) 26); lia.
Qed.

Lemma crack_selection cypher verbosity plain key :
  crack cypher verbosity = Ok (plain, key) ->
  exists key_length raw_key,
    key_length_of flog
      (find_common_divisors
         (calc_distances (find_multiples (normalize_text cypher) verbosity)
                         verbosity)
         verbosity)
    = Ok key_length /\
    for_each (range 0 key_length)
             (most_common_letter (normalize_text cypher) key_length verbosity) []
    = Ok raw_key /\
    decrypt raw_key (str_mul MOST_COMMON_LETTER key_length) = Ok key.
Proof.
  intros H; unfold crack in H; cbv zeta in H.
  apply bind_ok in H; destruct H as [scores [Hscores H]].
  apply bind_ok in H; destruct H as [top_div [Htop H]].
  apply bind_ok in H; destruct H as [top_freq [_ H]].
  apply bind_ok in H; destruct H as [confidence [_ H]].
  apply bind_ok in H; destruct H as [u1 [_ H]].
  apply bind_ok in H; destruct H as [u2 [_ H]].
  apply bind_ok in H; destruct H as [raw_key [Hraw H]].
  apply bind_ok in H; destruct H as [key' [Hkey H]].
  apply bind_ok in H; destruct H as [plain' [_ H]].
  apply (f_equal (fun r => match r with Ok x => x | Raise _ => (plain, key) end)) in H.
  inversion H; subst plain' key'.
  exists top_div, raw_key; split; [|split; assumption].
  unfold key_length_of; rewrite Hscores; cbn [bind]; exact Htop.
Qed.

(** X17: when [crack] returns, the key has as many letters as the divisor
    that [max] selects by score from the table of [find_common_divisors]
    for the distances of the repeated substrings of the normalised
    ciphertext. *)
Theorem crack_selects_key_length (cypher : str) (verbosity : Z)
        (plain key : str) :
  crack cypher verbosity = Ok (plain, key) ->
  key_length_of flog
    (find_common_divisors
       (calc_distances (find_multiples (normalize_text cypher) verbosity)
                       verbosity)
       verbosity)
  = Ok (len key).
Proof.
  intros H; apply crack_selection in H.
  destruct H as [key_length [raw_key [Hsel [Hraw Hkey]]]].
  rewrite Hsel; f_equal.
  assert (0 <= key_length) as H0.
  { unfold key_length_of in Hsel.
    apply bind_ok in Hsel; destruct Hsel as [scores [_ Hsel]].
    unfold select_top_div in Hsel; apply py_max_by_In in Hsel.
    apply key_length_divides_distance in Hsel.
    destruct Hsel as [_ [_ [_ [_ [_ [_ [_ [_ [H2 _]]]]]]]]]; lia. }
  pose proof (raw_key_letters _ _ _ _ (normalize_text_letters cypher) H0 Hraw)
    as Hletters.
  destruct (raw_key_spec _ _ _ _ H0 Hraw) as [Hlen _].
  rewrite (decrypt_raw_key _ _ Hletters Hlen) in Hkey.
  apply (f_equal (fun r => match r with Ok x => len x | Raise _ => len key end))
    in Hkey.
  cbv beta iota in Hkey.
  rewrite <- Hkey, <- Hlen; unfold len; rewrite length_map; reflexivity.
Qed.

End Cipher.

(** * Examples and instances

    The closed statements below take [ascii_upper] for the case table and,
    where a logarithm is needed, [no_log]. *)

(** ** Runs of the functions *)

Example encrypt_helloworld :
  encrypt ascii_upper (lit "HELLOWORLD") (lit "KEY") = Ok (lit "RIJVSUYVJN").
Proof. reflexivity. Qed.

Example encrypt_lower :
  encrypt ascii_upper (lit "Hello, World!") (lit "key") = Ok (lit "RIJVSUYVJN").
Proof. reflexivity. Qed.

Example decrypt_helloworld :
  decrypt ascii_upper (lit "RIJVSUYVJN") (lit "KEY") = Ok (lit "HELLOWORLD").
Proof. reflexivity. Qed.

Example find_multiples_abcabc :
  find_multiples (lit "ABCABC") 0 = [(lit "ABC", [0; 3])].
Proof. reflexivity. Qed.

Example find_multiples_aaaaaaa :
  find_multiples (lit "AAAAAAA") 0
  = [(lit "AAA", [0; 1; 2; 3; 4]); (lit "AAAA", [0; 1; 2; 3]);
     (lit "AAAAA", [0; 1; 2]); (lit "AAAAAA", [0; 1])].
Proof. reflexivity. Qed.

Example calc_distances_aaaaaaa :
  calc_distances (find_multiples (lit "AAAAAAA") 0) 0
  = [2; 1; 3; 2; 1; 4; 3; 2; 1; 2; 1; 3; 2; 1; 2; 1].
Proof. reflexivity. Qed.

Example prime_factors_360 : prime_factors 360 = [2; 2; 2; 3; 3; 5].
Proof. reflexivity. Qed.

Example prime_factors_97 : prime_factors 97 = [97].
Proof. reflexivity. Qed.

Example prime_factors_small :
  map prime_factors [0; 1; 2; 3; 4; 9] = [[]; []; [2]; [3]; [2; 2]; [3; 3]].
Proof. reflexivity. Qed.

Example permutations_3_2 :
  permutations [1; 2; 3] 2 = [[1; 2]; [1; 3]; [2; 1]; [2; 3]; [3; 1]; [3; 2]].
Proof. reflexivity. Qed.

Example find_common_divisors_12_4 :
  find_common_divisors [12; 4; 12] 0 = [(2, 3); (3, 2); (4, 2); (6, 2)].
Proof. reflexivity. Qed.

Example find_common_divisors_aaaaaaa :
  find_common_divisors (calc_distances (find_multiples (lit "AAAAAAA") 0) 0) 0
  = [(2, 1)].
Proof. reflexivity. Qed.

Example literals_rounded :
  int_truediv 1 10 = Ok literal_0_1 /\ int_truediv 8 10 = Ok literal_0_8.
Proof. vm_compute; split; reflexivity. Qed.

Example most_common_babca :
  most_common (counter (lit "BABCA")) 2 = [(66, 2); (65, 2)].
Proof. reflexivity. Qed.

Example slice_step_abcdefg : slice_step (lit "abcdefg") 1 3 = lit "be".
Proof. reflexivity. Qed.

Example crack_aaaaaaa :
  crack ascii_upper no_log (lit "AAAAAAA") 0 = Ok (lit "EEEEEEE", lit "WW").
Proof. vm_compute; reflexivity. Qed.

(** ** The cipher *)

(** [encrypt_decrypt_letter_key] at the text ["Hello, World!"] and the key
    ["Key"]. *)
Lemma encrypt_decrypt_letter_key_witness :
  (lit "Key" <> [] /\ Forall (fun c => is_ascii_letter c = true) (lit "Key")) /\
  exists c p,
    encrypt ascii_upper (lit "Hello, World!") (lit "Key") = Ok c /\
    decrypt ascii_upper (lit "Hello, World!") (lit "Key") = Ok p /\
    len c = len (normalize_text ascii_upper (lit "Hello, World!")) /\
    len p = len (normalize_text ascii_upper (lit "Hello, World!")) /\
    letters c /\ letters p /\
    forall i, 0 <= i < len (normalize_text ascii_upper (lit "Hello, World!")) ->
      exists x kc,
        getitem (normalize_text ascii_upper (lit "Hello, World!")) i = Ok x /\
        getitem (lit "Key") (i mod len (lit "Key")) = Ok kc /\
        getitem c i = Ok (65 + (x - 65 + key_offset kc) mod 26) /\
        getitem p i = Ok (65 + (x - 65 - key_offset kc) mod 26).
Proof.
  assert (lit "Key" <> []) as Hne by discriminate.
  assert (Forall (fun c => is_ascii_letter c = true) (lit "Key")) as Hk
    by (repeat constructor).
  split; [split; assumption|].
  exact (encrypt_decrypt_letter_key ascii_upper (lit "Hello, World!") (lit "Key")
                                    Hne Hk).
Defined.

(** [encrypt_decrypt_empty_key] at the text ["abc"] and the key ["-"]. *)
Lemma encrypt_decrypt_empty_key_witness :
  normalize_text ascii_upper (lit "-") = [] /\
  encrypt ascii_upper (lit "abc") (lit "-") = Raise IndexError /\
  decrypt ascii_upper (lit "abc") (lit "-") = Raise IndexError.
Proof.
  assert (normalize_text ascii_upper (lit "-") = []) as Hk by reflexivity.
  split; [exact Hk|].
  exact (encrypt_decrypt_empty_key ascii_upper (lit "abc") (lit "-") Hk).
Defined.

(** C4 as stated fails: with the empty key the modulo by the length of the
    key raises [ZeroDivisionError]; with an empty text nothing is raised. *)
Lemma empty_key_zero_division :
  normalize_text ascii_upper (lit "") = [] /\
  encrypt ascii_upper (lit "A") (lit "") = Raise ZeroDivisionError /\
  decrypt ascii_upper (lit "A") (lit "") = Raise ZeroDivisionError /\
  encrypt ascii_upper (lit "") (lit "") = Ok [].
Proof. repeat split. Qed.

(** ** The Kasiski test *)

(** [find_multiples_entries] at the text ["ABCABC"] and its one entry. *)
Lemma find_multiples_entries_witness :
  In (lit "ABC", [0; 3]) (find_multiples (lit "ABCABC") 0) /\
  2 <= len [0; 3] /\
  3 <= len (lit "ABC") <= 16 /\
  (exists pre post, lit "ABCABC" = pre ++ lit "ABC" ++ post) /\
  Forall (occurs_at (lit "ABCABC") (lit "ABC")) [0; 3].
Proof.
  assert (In (lit "ABC", [0; 3]) (find_multiples (lit "ABCABC") 0)) as Hin
    by (vm_compute; left; reflexivity).
  split; [exact Hin|].
  exact (find_multiples_entries (lit "ABCABC") 0 (lit "ABC") [0; 3] Hin).
Defined.


(** ** The key length *)



(** ** [crack] *)

(** [crack_empty_table] at the ciphertext ["ab"]. *)
Lemma crack_empty_table_witness :
  len (normalize_text ascii_upper (lit "ab")) < 3 /\
  find_common_divisors
    (calc_distances (find_multiples (normalize_text ascii_upper (lit "ab")) 0) 0) 0
  = [] /\
  crack ascii_upper no_log (lit "ab") 0 = Raise ValueError.
Proof.
  assert (len (normalize_text ascii_upper (lit "ab")) < 3) as Hshort
    by (vm_compute; reflexivity).
  split; [exact Hshort|].
  exact (crack_empty_table ascii_upper no_log (lit "ab") 0 (or_introl Hshort)).
Defined.

(** C3 as stated fails: on a ciphertext of two letters, and on one with a
    single repeated ngram, [crack] stops at [max] with [ValueError]. *)
Lemma crack_max_of_empty :
  crack ascii_upper no_log (lit "AB") 0 = Raise ValueError /\
  crack ascii_upper no_log (lit "ABCABC") 0 = Raise ValueError.
Proof. split; vm_compute; reflexivity. Qed.

(** [crack_plain_key_consistent] at the ciphertext ["AAAAAAA"]. *)
Lemma crack_plain_key_consistent_witness :
  crack ascii_upper no_log (lit "AAAAAAA") 0 = Ok (lit "EEEEEEE", lit "WW") /\
  decrypt ascii_upper (normalize_text ascii_upper (lit "AAAAAAA")) (lit "WW")
  = Ok (lit "EEEEEEE").
Proof.
  assert (crack ascii_upper no_log (lit "AAAAAAA") 0
          = Ok (lit "EEEEEEE", lit "WW")) as Hc by (vm_compute; reflexivity).
  split; [exact Hc|].
  exact (crack_plain_key_consistent ascii_upper no_log (lit "AAAAAAA") 0 _ _ Hc).
Defined.

(** ** Instances of the further properties *)

(** [encrypt_decrypt_returns_letters] at the text ["Hi"] and the key
    ["k3y"], whose normalised form is shorter than the key. *)
Lemma encrypt_decrypt_returns_letters_witness :
  (encrypt ascii_upper (lit "Hi") (lit "k3y") = Ok (lit "RG") \/
   decrypt ascii_upper (lit "Hi") (lit "k3y") = Ok (lit "RG")) /\
  len (lit "RG") = len (normalize_text ascii_upper (lit "Hi")) /\
  letters (lit "RG").
Proof.
  assert (encrypt ascii_upper (lit "Hi") (lit "k3y") = Ok (lit "RG") \/
          decrypt ascii_upper (lit "Hi") (lit "k3y") = Ok (lit "RG")) as H
    by (left; reflexivity).
  split; [exact H|].
  exact (encrypt_decrypt_returns_letters ascii_upper (lit "Hi") (lit "k3y")
                                         (lit "RG") H).
Defined.

(** [decrypt_inverts_encrypt] at the text ["Hi"] and the key ["k3y"]. *)
Lemma decrypt_inverts_encrypt_witness :
  encrypt ascii_upper (lit "Hi") (lit "k3y") = Ok (lit "RG") /\
  decrypt ascii_upper (lit "RG") (lit "k3y")
  = Ok (normalize_text ascii_upper (lit "Hi")).
Proof.
  assert (encrypt ascii_upper (lit "Hi") (lit "k3y") = Ok (lit "RG")) as H
    by reflexivity.
  split; [exact H|].
  exact (decrypt_inverts_encrypt ascii_upper (lit "Hi") (lit "k3y") (lit "RG")
                                 H).
Defined.

(** [encrypt_inverts_decrypt] at the text ["r-g"] and the key ["k3y"]. *)
Lemma encrypt_inverts_decrypt_witness :
  decrypt ascii_upper (lit "r-g") (lit "k3y") = Ok (lit "HI") /\
  encrypt ascii_upper (lit "HI") (lit "k3y")
  = Ok (normalize_text ascii_upper (lit "r-g")).
Proof.
  assert (decrypt ascii_upper (lit "r-g") (lit "k3y") = Ok (lit "HI")) as H
    by reflexivity.
  split; [exact H|].
  exact (encrypt_inverts_decrypt ascii_upper (lit "r-g") (lit "k3y") (lit "HI")
                                 H).
Defined.

(** [prime_factors_correct] at 360. *)
Lemma prime_factors_correct_witness :
  1 <= 360 < 2 ^ 53 /\
  prime_factors_loop (S (Z.to_nat 360)) 360 2 [] = Some (prime_factors 360) /\
  product (prime_factors 360) = 360 /\
  Forall prime (prime_factors 360) /\
  StronglySorted Z.le (prime_factors 360) /\
  sorted (prime_factors 360) = prime_factors 360.
Proof.
  assert (1 <= 360 < 2 ^ 53) as H by (split; [lia | reflexivity]).
  split; [exact H|].
  exact (prime_factors_correct 360 H).
Defined.

(** [calc_distances_between_repeats] at the text ["AAAAAAA"] and the
    distance 4. *)
Lemma calc_distances_between_repeats_witness :
  In 4 (calc_distances (find_multiples (lit "AAAAAAA") 0) 0) /\
  (exists ngram p q,
      3 <= len ngram <= 16 /\
      occurs_at (lit "AAAAAAA") ngram p /\ occurs_at (lit "AAAAAAA") ngram q /\
      p < q /\ 4 = q - p) /\
  1 <= 4 <= len (lit "AAAAAAA") - 3.
Proof.
  assert (In 4 (calc_distances (find_multiples (lit "AAAAAAA") 0) 0)) as H
    by (vm_compute; do 5 right; left; reflexivity).
  split; [exact H|].
  exact (calc_distances_between_repeats (lit "AAAAAAA") 0 4 H).
Defined.

(** [find_common_divisors_counts] at the distances 12, 4 and 12 and the
    divisor 2 of all three. *)
Lemma find_common_divisors_counts_witness :
  Forall (fun d => d < 2 ^ 53) [12; 4; 12] /\
  NoDup (dict_keys (find_common_divisors [12; 4; 12] 0)) /\
  (In (2, 3) (find_common_divisors [12; 4; 12] 0) <->
   3 = divisor_count [12; 4; 12] 2 /\ 1 <= 3).
Proof.
  assert (Forall (fun d => d < 2 ^ 53) [12; 4; 12]) as H
    by (repeat constructor).
  split; [exact H|].
  exact (find_common_divisors_counts [12; 4; 12] 0 2 3 H).
Defined.

(** [crack_verbosity_only_adds_failures] at the ciphertext ["AAAAAAA"] and
    the verbosities 1 and 0. *)
Lemma crack_verbosity_only_adds_failures_witness :
  (0 <= 1 /\
   crack ascii_upper no_log (lit "AAAAAAA") 1 = Ok (lit "EEEEEEE", lit "WW")) /\
  crack ascii_upper no_log (lit "AAAAAAA") 0 = Ok (lit "EEEEEEE", lit "WW").
Proof.
  assert (0 <= 1) as Hv by lia.
  assert (crack ascii_upper no_log (lit "AAAAAAA") 1
          = Ok (lit "EEEEEEE", lit "WW")) as Hc by (vm_compute; reflexivity).
  split; [split; assumption|].
  exact (crack_verbosity_only_adds_failures ascii_upper no_log (lit "AAAAAAA")
                                            1 0 _ Hv Hc).
Defined.

(** [crack_result_encrypts_back] at the ciphertext ["AAAAAAA"]. *)
Lemma crack_result_encrypts_back_witness :
  crack ascii_upper no_log (lit "AAAAAAA") 0 = Ok (lit "EEEEEEE", lit "WW") /\
  letters (lit "WW") /\ letters (lit "EEEEEEE") /\
  len (lit "EEEEEEE") = len (normalize_text ascii_upper (lit "AAAAAAA")) /\
  encrypt ascii_upper (lit "EEEEEEE") (lit "WW")
  = Ok (normalize_text ascii_upper (lit "AAAAAAA")).
Proof.
  assert (crack ascii_upper no_log (lit "AAAAAAA") 0
          = Ok (lit "EEEEEEE", lit "WW")) as Hc by (vm_compute; reflexivity).
  split; [exact Hc|].
  exact (crack_result_encrypts_back ascii_upper no_log (lit "AAAAAAA") 0 _ _ Hc).
Defined.

(** [crack_key_length] at the ciphertext ["AAAAAAA"], of 7 letters, where
    the key has 2. *)
Lemma crack_key_length_witness :
  crack ascii_upper no_log (lit "AAAAAAA") 0 = Ok (lit "EEEEEEE", lit "WW") /\
  (exists ngram p q,
      3 <= len ngram <= 16 /\
      occurs_at (normalize_text ascii_upper (lit "AAAAAAA")) ngram p /\
      occurs_at (normalize_text ascii_upper (lit "AAAAAAA")) ngram q /\ p < q /\
      (len (lit "WW") | q - p) /\ 2 * len (lit "WW") <= q - p) /\
  2 <= len (lit "WW") /\
  2 * len (lit "WW") + 3 <= len (normalize_text ascii_upper (lit "AAAAAAA")).
Proof.
  assert (crack ascii_upper no_log (lit "AAAAAAA") 0
          = Ok (lit "EEEEEEE", lit "WW")) as Hc by (vm_compute; reflexivity).
  split; [exact Hc|].
  exact (crack_key_length ascii_upper no_log (lit "AAAAAAA") 0 _ _ Hc).
Defined.

(** [crack_key_most_common] at the ciphertext ["AAAAAAA"] and the second
    letter of the key. *)
Lemma crack_key_most_common_witness :
  (crack ascii_upper no_log (lit "AAAAAAA") 0 = Ok (lit "EEEEEEE", lit "WW") /\
   0 <= 1 < len (lit "WW")) /\
  exists m,
    In m (slice_step (normalize_text ascii_upper (lit "AAAAAAA")) 1
                     (len (lit "WW"))) /\
    (forall c,
        count (slice_step (normalize_text ascii_upper (lit "AAAAAAA")) 1
                          (len (lit "WW"))) c
        <= count (slice_step (normalize_text ascii_upper (lit "AAAAAAA")) 1
                             (len (lit "WW"))) m) /\
    nth (Z.to_nat 1) (lit "WW") 0 = 65 + (m - 69) mod 26.
Proof.
  assert (crack ascii_upper no_log (lit "AAAAAAA") 0
          = Ok (lit "EEEEEEE", lit "WW")) as Hc by (vm_compute; reflexivity).
  assert (0 <= 1 < len (lit "WW")) as Hi
    by (vm_compute; split; [discriminate | reflexivity]).
  split; [split; assumption|].
  exact (crack_key_most_common ascii_upper no_log (lit "AAAAAAA") 0 _ _ 1 Hc Hi).
Defined.

(** [crack_raises] at the ciphertext ["AAAAAAA"] under the verbosity 2. *)
Lemma crack_raises_witness :
  crack ascii_upper no_log (lit "AAAAAAA") 2 = Raise IndexError /\
  (IndexError = ValueError \/ IndexError = OverflowError \/
   (IndexError = IndexError /\ 2 <= 2)).
Proof.
  assert (crack ascii_upper no_log (lit "AAAAAAA") 2 = Raise IndexError) as Hc
    by (vm_compute; reflexivity).
  split; [exact Hc|].
  exact (crack_raises ascii_upper no_log (lit "AAAAAAA") 2 IndexError Hc).
Defined.

(** [crack_selects_key_length] at the ciphertext ["AAAAAAA"]. *)
Lemma crack_selects_key_length_witness :
  crack ascii_upper no_log (lit "AAAAAAA") 0 = Ok (lit "EEEEEEE", lit "WW") /\
  key_length_of no_log
    (find_common_divisors
       (calc_distances
          (find_multiples (normalize_text ascii_upper (lit "AAAAAAA")) 0) 0) 0)
  = Ok (len (lit "WW")).
Proof.
  assert (crack ascii_upper no_log (lit "AAAAAAA") 0
          = Ok (lit "EEEEEEE", lit "WW")) as Hc by (vm_compute; reflexivity).
  split; [exact Hc|].
  exact (crack_selects_key_length ascii_upper no_log (lit "AAAAAAA") 0 _ _ Hc).
Defined.
